(** * The recursive listing engine of backend/clouddrive/drive.go

    A shallow embedding of the composite-ID codec, the shortcut resolver,
    the paged lister, the batch sorter, the ListR worker and the ListR
    coordinator, followed by the properties the specification states about
    them.

    Go strings are byte sequences: they are modelled by [string] (a list of
    8-bit [ascii] characters).  Go [int] and [int32] values are [Z]; slice
    positions that the code keeps non-negative are [nat]. *)

From Stdlib Require Import ZArith Ascii String List Lia Bool.
From stdpp Require Import base option gmap sets list strings sorting relations.

Local Open Scope string_scope.
Local Open Scope Z_scope.

(** ** Go runtime helpers *)

Module Go.

(** [strings.IndexByte]: index of the first occurrence of [c], or -1. *)
Fixpoint IndexByte (s : string) (c : ascii) : Z :=
  match s with
  | EmptyString => -1
  | String x s' =>
      if Ascii.eqb x c then 0
      else let r := IndexByte s' c in
           if r <? 0 then -1 else r + 1
  end.

(** [strings.IndexRune] for a rune below 0x80 is [IndexByte]. *)
Definition IndexRune (s : string) (r : ascii) : Z := IndexByte s r.

(** [strings.ContainsRune(s, r)] is [IndexRune(s, r) >= 0]. *)
Definition ContainsRune (s : string) (r : ascii) : bool := 0 <=? IndexRune s r.

(** [s[:n]] for [n <= len(s)]. *)
Fixpoint sliceTo (s : string) (n : nat) {struct n} : string :=
  match n, s with
  | O, _ => EmptyString
  | S n', String x s' => String x (sliceTo s' n')
  | S _, EmptyString => EmptyString
  end.

(** [s[n:]] for [n <= len(s)]. *)
Fixpoint sliceFrom (s : string) (n : nat) {struct n} : string :=
  match n, s with
  | O, _ => s
  | S n', String _ s' => sliceFrom s' n'
  | S _, EmptyString => EmptyString
  end.

(** The byte [c] occurs in [s]. *)
Fixpoint occurs (c : ascii) (s : string) : Prop :=
  match s with
  | EmptyString => False
  | String x s' => x = c \/ occurs c s'
  end.

(** The comparison [a < b] of two Go strings: bytewise lexicographic. *)
Definition strLess (a b : string) : bool := String.ltb a b.

(** Go errors.  [Wrapf p e] is [fmt.Errorf(p + ": %w", e)]. *)
Inductive error : Type :=
| GoogleapiError (code : Z) (msg : string)
| PlainError (msg : string)
| Wrapf (prefix : string) (e : error).

(** [errors.As(err, &gerr)] for [gerr *googleapi.Error]: the code of the first
    googleapi error in the chain of wrapped errors. *)
Fixpoint errorsAsGoogleapi (e : error) : option Z :=
  match e with
  | GoogleapiError code _ => Some code
  | PlainError _ => None
  | Wrapf _ e' => errorsAsGoogleapi e'
  end.

(** A Go result pair [(value, err)] of which exactly one is meaningful. *)
Inductive result (A : Type) : Type :=
| Ok (a : A)
| Err (e : error).
Arguments Ok {A} a.
Arguments Err {A} e.

(** The outcome of running a piece of code from a state of type [St]: it
    returns, it panics, it waits for something no step of its own provides,
    or the bound on the number of loop iterations of the model is used up. *)
Inductive res (St A : Type) : Type :=
| Ret (a : A) (s : St)
| Panic (msg : string)
| Blocked
| OutOfFuel.
Arguments Ret {St A} a s.
Arguments Panic {St A} msg.
Arguments Blocked {St A}.
Arguments OutOfFuel {St A}.

Definition M (St A : Type) : Type := St -> res St A.

Definition ret {St A} (a : A) : M St A := fun s => Ret a s.

Definition bind {St A B} (m : M St A) (k : A -> M St B) : M St B :=
  fun s => match m s with
           | Ret a s' => k a s'
           | Panic msg => Panic msg
           | Blocked => Blocked
           | OutOfFuel => OutOfFuel
           end.

Definition get {St} : M St St := fun s => Ret s s.
Definition gets {St A} (f : St -> A) : M St A := fun s => Ret (f s) s.
Definition modify {St} (f : St -> St) : M St unit := fun s => Ret tt (f s).
Definition panic {St A} (msg : string) : M St A := fun _ => Panic msg.
Definition block {St A} : M St A := fun _ => Blocked.

(** [for _, x := range l { body x }] *)
Fixpoint forRange {St A} (l : list A) (body : A -> M St unit) : M St unit :=
  match l with
  | [] => ret tt
  | x :: l' => bind (body x) (fun _ => forRange l' body)
  end.

End Go.

Notation "'let*' x ':=' m 'in' k" := (Go.bind m (fun x => k))
  (at level 10, x name, m at level 100, k at level 200).
Notation "'let*' ' p ':=' m 'in' k" := (Go.bind m (fun p => k))
  (at level 10, p strict pattern, m at level 100, k at level 200).
Notation "m ';;' k" := (Go.bind m (fun _ => k))
  (at level 100, k at level 200, right associativity).

(** ** The drive API types used by the engine *)

Module Drive.

(** [drive.FileShortcutDetails] *)
Record FileShortcutDetails : Type := {
  TargetId : string;
  TargetMimeType : string
}.

(** [drive.File], with the fields the engine reads. *)
Record File : Type := {
  Id : string;
  Name : string;
  MimeType : string;
  Parents : list string;
  Trashed : bool;
  ShortcutDetails : option FileShortcutDetails;
  Md5Checksum : string;
  Size : Z;
  ModifiedTime : string;
  ResourceKey : string
}.

(** [drive.FileList] *)
Record FileList : Type := {
  Files : list File;
  NextPageToken : string;
  IncompleteSearch : bool
}.

Definition setName (v : string) (f : File) : File :=
  {| Id := Id f; Name := v; MimeType := MimeType f; Parents := Parents f;
     Trashed := Trashed f; ShortcutDetails := ShortcutDetails f;
     Md5Checksum := Md5Checksum f; Size := Size f;
     ModifiedTime := ModifiedTime f; ResourceKey := ResourceKey f |}.

Definition setMimeType (v : string) (f : File) : File :=
  {| Id := Id f; Name := Name f; MimeType := v; Parents := Parents f;
     Trashed := Trashed f; ShortcutDetails := ShortcutDetails f;
     Md5Checksum := Md5Checksum f; Size := Size f;
     ModifiedTime := ModifiedTime f; ResourceKey := ResourceKey f |}.

Definition setParents (v : list string) (f : File) : File :=
  {| Id := Id f; Name := Name f; MimeType := MimeType f; Parents := v;
     Trashed := Trashed f; ShortcutDetails := ShortcutDetails f;
     Md5Checksum := Md5Checksum f; Size := Size f;
     ModifiedTime := ModifiedTime f; ResourceKey := ResourceKey f |}.

Definition setTrashed (v : bool) (f : File) : File :=
  {| Id := Id f; Name := Name f; MimeType := MimeType f; Parents := Parents f;
     Trashed := v; ShortcutDetails := ShortcutDetails f;
     Md5Checksum := Md5Checksum f; Size := Size f;
     ModifiedTime := ModifiedTime f; ResourceKey := ResourceKey f |}.

Definition setId (v : string) (f : File) : File :=
  {| Id := v; Name := Name f; MimeType := MimeType f; Parents := Parents f;
     Trashed := Trashed f; ShortcutDetails := ShortcutDetails f;
     Md5Checksum := Md5Checksum f; Size := Size f;
     ModifiedTime := ModifiedTime f; ResourceKey := ResourceKey f |}.

End Drive.

(** ** Constants and options of the backend *)

Module Const.

Definition driveFolderType : string := "application/vnd.google-apps.folder".
Definition shortcutMimeType : string := "application/vnd.google-apps.shortcut".
Definition shortcutMimeTypeDangling : string :=
  "application/vnd.google-apps.shortcut.dangling".
(** number of IDs to search at once when using ListR *)
Definition listRGrouping : Z := 50.
(** size of input buffer when using ListR *)
Definition listRInputBuffer : Z := 1000.

End Const.

(** The fields of [Options] the engine reads. *)
Record Options : Type := {
  SkipShortcuts : bool;
  SkipDanglingShortcuts : bool;
  SharedWithMe : bool;
  TrashedOnly : bool;
  SkipGdocs : bool
}.

(** ** Composite IDs (joinID, splitID, isShortcutID, actualID, shortcutID) *)

Module ID.
Import Go.

(** [const shortcutSeparator = '\t'] *)
Definition shortcutSeparator : ascii := Ascii.ascii_of_nat 9.

Definition joinID (actual shortcut : string) : string :=
  actual +:+ String shortcutSeparator EmptyString +:+ shortcut.

Definition splitID (compositeID : string) : string * string :=
  let i := IndexRune compositeID shortcutSeparator in
  if i <? 0 then (compositeID, "")
  else (sliceTo compositeID (Z.to_nat i),
        sliceFrom compositeID (Z.to_nat (i + 1))).

Definition isShortcutID (compositeID : string) : bool :=
  ContainsRune compositeID shortcutSeparator.

Definition actualID (compositeID : string) : string :=
  fst (splitID compositeID).

Definition shortcutID (compositeID : string) : string :=
  let '(actual, shortcut) := splitID compositeID in
  if negb (String.eqb shortcut "") then shortcut else actual.

(** The string holds no separator byte. *)
Definition sepFree (s : string) : Prop := ~ occurs shortcutSeparator s.

End ID.

(** ** Entries, jobs and the mutable state of a listing *)

Module Engine.
Import Go Drive Const.

(** [listREntry] is a task to be executed by a listRRunner. *)
Record listREntry : Type := { id : string; path : string }.

(** An [fs.DirEntry]: a directory ([*fs.Dir]), an object, or the nil entry
    that stands for an item with no representation. *)
Inductive DirEntry : Type :=
| EntryDir (remote modTime ID parentID : string)
| EntryObject (remote ID : string)
| EntryNil.

(** What a run leaves behind for an observer: remote calls, log lines, and the
    operations on the shared structures (ghost events, in program order). *)
Inductive event : Type :=
| EvGetFile (ID : string)
| EvFilesList (dirIDs : list string) (pageToken : string)
| EvFn (item : File) (stop : bool)
| EvErrorf (format : string)
| EvLogf (format : string)
| EvDebugf (format : string) (args : list Z)
| EvLock (mutex : string)
| EvUnlock (mutex : string)
| EvSwapGrouping (new old : Z)
| EvSendJob (job : listREntry)
| EvEmptiesPut (ID : string)
| EvEmptiesDelete (ID : string)
| EvCallback (entry : DirEntry).

(** The mutable fields of [Fs] that the engine touches, the local variables of
    one [ListR] call that its closures and goroutines share, and the trace.
    The channel [in] is the pair of its buffer and its closed flag; [inNil]
    says that the variable [in] of [ListR] has been set to nil (the workers
    keep their own reference to the channel). *)
Record State : Type := {
  grouping : Z;
  listRempties : gset string;
  dirCache : gmap string string;
  dirResourceKeys : gmap string string;
  listRmu : bool;
  mu : bool;
  inNil : bool;
  inBuf : list listREntry;
  inClosed : bool;
  outBuf : list (option error);
  wg : Z;
  overflow : list listREntry;
  listed : Z;
  helperEntries : list DirEntry;
  err : option error;
  trace : list event
}.

Definition set_grouping (v : Z) (s : State) : State :=
  {| grouping := v; listRempties := listRempties s; dirCache := dirCache s;
     dirResourceKeys := dirResourceKeys s; listRmu := listRmu s; mu := mu s;
     inNil := inNil s; inBuf := inBuf s; inClosed := inClosed s;
     outBuf := outBuf s; wg := wg s; overflow := overflow s;
     listed := listed s; helperEntries := helperEntries s; err := err s;
     trace := trace s |}.

Definition set_listRempties (v : gset string) (s : State) : State :=
  {| grouping := grouping s; listRempties := v; dirCache := dirCache s;
     dirResourceKeys := dirResourceKeys s; listRmu := listRmu s; mu := mu s;
     inNil := inNil s; inBuf := inBuf s; inClosed := inClosed s;
     outBuf := outBuf s; wg := wg s; overflow := overflow s;
     listed := listed s; helperEntries := helperEntries s; err := err s;
     trace := trace s |}.

Definition set_dirCache (v : gmap string string) (s : State) : State :=
  {| grouping := grouping s; listRempties := listRempties s; dirCache := v;
     dirResourceKeys := dirResourceKeys s; listRmu := listRmu s; mu := mu s;
     inNil := inNil s; inBuf := inBuf s; inClosed := inClosed s;
     outBuf := outBuf s; wg := wg s; overflow := overflow s;
     listed := listed s; helperEntries := helperEntries s; err := err s;
     trace := trace s |}.

Definition set_dirResourceKeys (v : gmap string string) (s : State) : State :=
  {| grouping := grouping s; listRempties := listRempties s;
     dirCache := dirCache s; dirResourceKeys := v; listRmu := listRmu s;
     mu := mu s; inNil := inNil s; inBuf := inBuf s; inClosed := inClosed s;
     outBuf := outBuf s; wg := wg s; overflow := overflow s;
     listed := listed s; helperEntries := helperEntries s; err := err s;
     trace := trace s |}.

Definition set_listRmu (v : bool) (s : State) : State :=
  {| grouping := grouping s; listRempties := listRempties s;
     dirCache := dirCache s; dirResourceKeys := dirResourceKeys s;
     listRmu := v; mu := mu s; inNil := inNil s; inBuf := inBuf s;
     inClosed := inClosed s; outBuf := outBuf s; wg := wg s;
     overflow := overflow s; listed := listed s;
     helperEntries := helperEntries s; err := err s; trace := trace s |}.

Definition set_mu (v : bool) (s : State) : State :=
  {| grouping := grouping s; listRempties := listRempties s;
     dirCache := dirCache s; dirResourceKeys := dirResourceKeys s;
     listRmu := listRmu s; mu := v; inNil := inNil s; inBuf := inBuf s;
     inClosed := inClosed s; outBuf := outBuf s; wg := wg s;
     overflow := overflow s; listed := listed s;
     helperEntries := helperEntries s; err := err s; trace := trace s |}.

Definition set_inNil (v : bool) (s : State) : State :=
  {| grouping := grouping s; listRempties := listRempties s;
     dirCache := dirCache s; dirResourceKeys := dirResourceKeys s;
     listRmu := listRmu s; mu := mu s; inNil := v; inBuf := inBuf s;
     inClosed := inClosed s; outBuf := outBuf s; wg := wg s;
     overflow := overflow s; listed := listed s;
     helperEntries := helperEntries s; err := err s; trace := trace s |}.

Definition set_inBuf (v : list listREntry) (s : State) : State :=
  {| grouping := grouping s; listRempties := listRempties s;
     dirCache := dirCache s; dirResourceKeys := dirResourceKeys s;
     listRmu := listRmu s; mu := mu s; inNil := inNil s; inBuf := v;
     inClosed := inClosed s; outBuf := outBuf s; wg := wg s;
     overflow := overflow s; listed := listed s;
     helperEntries := helperEntries s; err := err s; trace := trace s |}.

Definition set_inClosed (v : bool) (s : State) : State :=
  {| grouping := grouping s; listRempties := listRempties s;
     dirCache := dirCache s; dirResourceKeys := dirResourceKeys s;
     listRmu := listRmu s; mu := mu s; inNil := inNil s; inBuf := inBuf s;
     inClosed := v; outBuf := outBuf s; wg := wg s;
     overflow := overflow s; listed := listed s;
     helperEntries := helperEntries s; err := err s; trace := trace s |}.

Definition set_outBuf (v : list (option error)) (s : State) : State :=
  {| grouping := grouping s; listRempties := listRempties s;
     dirCache := dirCache s; dirResourceKeys := dirResourceKeys s;
     listRmu := listRmu s; mu := mu s; inNil := inNil s; inBuf := inBuf s;
     inClosed := inClosed s; outBuf := v; wg := wg s;
     overflow := overflow s; listed := listed s;
     helperEntries := helperEntries s; err := err s; trace := trace s |}.

Definition set_wg (v : Z) (s : State) : State :=
  {| grouping := grouping s; listRempties := listRempties s;
     dirCache := dirCache s; dirResourceKeys := dirResourceKeys s;
     listRmu := listRmu s; mu := mu s; inNil := inNil s; inBuf := inBuf s;
     inClosed := inClosed s; outBuf := outBuf s; wg := v;
     overflow := overflow s; listed := listed s;
     helperEntries := helperEntries s; err := err s; trace := trace s |}.

Definition set_overflow (v : list listREntry) (s : State) : State :=
  {| grouping := grouping s; listRempties := listRempties s;
     dirCache := dirCache s; dirResourceKeys := dirResourceKeys s;
     listRmu := listRmu s; mu := mu s; inNil := inNil s; inBuf := inBuf s;
     inClosed := inClosed s; outBuf := outBuf s; wg := wg s;
     overflow := v; listed := listed s;
     helperEntries := helperEntries s; err := err s; trace := trace s |}.

Definition set_listed (v : Z) (s : State) : State :=
  {| grouping := grouping s; listRempties := listRempties s;
     dirCache := dirCache s; dirResourceKeys := dirResourceKeys s;
     listRmu := listRmu s; mu := mu s; inNil := inNil s; inBuf := inBuf s;
     inClosed := inClosed s; outBuf := outBuf s; wg := wg s;
     overflow := overflow s; listed := v;
     helperEntries := helperEntries s; err := err s; trace := trace s |}.

Definition set_helperEntries (v : list DirEntry) (s : State) : State :=
  {| grouping := grouping s; listRempties := listRempties s;
     dirCache := dirCache s; dirResourceKeys := dirResourceKeys s;
     listRmu := listRmu s; mu := mu s; inNil := inNil s; inBuf := inBuf s;
     inClosed := inClosed s; outBuf := outBuf s; wg := wg s;
     overflow := overflow s; listed := listed s;
     helperEntries := v; err := err s; trace := trace s |}.

Definition set_err (v : option error) (s : State) : State :=
  {| grouping := grouping s; listRempties := listRempties s;
     dirCache := dirCache s; dirResourceKeys := dirResourceKeys s;
     listRmu := listRmu s; mu := mu s; inNil := inNil s; inBuf := inBuf s;
     inClosed := inClosed s; outBuf := outBuf s; wg := wg s;
     overflow := overflow s; listed := listed s;
     helperEntries := helperEntries s; err := v; trace := trace s |}.

Definition set_trace (v : list event) (s : State) : State :=
  {| grouping := grouping s; listRempties := listRempties s;
     dirCache := dirCache s; dirResourceKeys := dirResourceKeys s;
     listRmu := listRmu s; mu := mu s; inNil := inNil s; inBuf := inBuf s;
     inClosed := inClosed s; outBuf := outBuf s; wg := wg s;
     overflow := overflow s; listed := listed s;
     helperEntries := helperEntries s; err := err s; trace := v |}.

(** Append an event to the trace. *)
Definition emit (e : event) : M State unit :=
  modify (fun s => set_trace (trace s ++ [e]) s).

(** A request of [f.svc.Files.List()]: the arguments the query is built from
    and the page token.  (The query string itself is not modelled.) *)
Record listRequest : Type := {
  reqDirIDs : list string;
  reqTitle : string;
  reqDirectoriesOnly : bool;
  reqFilesOnly : bool;
  reqTrashedOnly : bool;
  reqIncludeAll : bool;
  reqPageToken : string
}.

(** The receiver [f *Fs]: its options and the collaborators it calls.  The
    remote calls stand for [f.pacer.Call] around the request, that is, for the
    answer that remains once the pacer has done its retries.
    [newObjectWithInfo] stands for the result of the method of that name
    only: the line it writes to the debug log and the requests it makes
    itself (for the target of a shortcut, for the export formats) leave no
    mark on the state, so nothing below speaks of them. *)
Record Fs : Type := {
  opt : Options;
  ci_Checkers : nat;
  svc_Files_Get : string -> result File;
  svc_Files_List : listRequest -> result FileList;
  Enc_ToStandardName : string -> string;
  exportStems : string -> bool -> list string;
  findExportName : File -> string;
  newObjectWithInfo : string -> File -> result DirEntry;
  dirCache_FindDir : string -> result string;
  path_Join : string -> string -> string
}.

(** [fs.ErrorObjectNotFound] *)
Definition ErrorObjectNotFound : error := PlainError "object not found".

Definition error_eqb : error -> error -> bool :=
  fix go (a b : error) : bool :=
    match a, b with
    | GoogleapiError c m, GoogleapiError c' m' => (c =? c') && String.eqb m m'
    | PlainError m, PlainError m' => String.eqb m m'
    | Wrapf p e, Wrapf p' e' => String.eqb p p' && go e e'
    | _, _ => false
    end.

(** *** The shortcut resolver *)

(** [f.getFile(ctx, ID, fields)] *)
Definition Fs_getFile (f : Fs) (ID : string) : M State (result File) :=
  emit (EvGetFile ID) ;; ret (svc_Files_Get f ID).

(** [isShortcut] returns true if the item is a shortcut. *)
Definition isShortcut (item : File) : bool :=
  String.eqb (MimeType item) shortcutMimeType &&
  match ShortcutDetails item with Some _ => true | None => false end.

(** [errors.As(err, &gerr) && gerr.Code == 404] *)
Definition is404 (err : error) : bool :=
  match errorsAsGoogleapi err with
  | Some code => code =? 404
  | None => false
  end.

(** [f.resolveShortcut(ctx, item)]: dereference a shortcut if required. *)
Definition Fs_resolveShortcut (f : Fs) (item : File) : M State (result File) :=
  if SkipShortcuts (opt f) || negb (String.eqb (MimeType item) shortcutMimeType)
  then ret (Ok item)
  else
    match ShortcutDetails item with
    | None => emit (EvErrorf "Expecting shortcutDetails in %v") ;; ret (Ok item)
    | Some details =>
        let* r := Fs_getFile f (TargetId details) in
        match r with
        | Err err =>
            if is404 err then
              emit (EvLogf "Dangling shortcut %q detected") ;;
              ret (Ok (setMimeType shortcutMimeTypeDangling item))
            else ret (Err (Wrapf "failed to resolve shortcut" err))
        | Ok newItem =>
            let newItem := setName (Name item) newItem in
            let newItem := setParents (Parents item) newItem in
            let newItem := setTrashed (Trashed item) newItem in
            let newItem := setId (ID.joinID (Id newItem) (Id item)) newItem in
            ret (Ok newItem)
        end
    end.

(** *** The paged lister *)

(** How the body of the loop over the items of a page ends: it goes on to the
    next item, it leaves the loop over the pages ([break OUTER]), or the
    function returns an error. *)
Inductive itemFlow : Type :=
| FlowNext
| FlowBreakOuter
| FlowReturn (e : error).

(** The shortcut part of the loop body: [None] is [continue]. *)
Definition listShortcut (f : Fs) (directoriesOnly filesOnly : bool)
    (item : File) : M State (result (option File)) :=
  if isShortcut item then
    let targetMime :=
      match ShortcutDetails item with
      | Some d => TargetMimeType d
      | None => ""
      end in
    if SkipShortcuts (opt f) then ret (Ok None)
    else if directoriesOnly && negb (String.eqb targetMime driveFolderType)
    then ret (Ok None)
    else if filesOnly && String.eqb targetMime driveFolderType
    then ret (Ok None)
    else
      let* r := Fs_resolveShortcut f item in
      match r with
      | Err err => ret (Err (Wrapf "list" err))
      | Ok item' =>
          if SkipDanglingShortcuts (opt f) &&
             String.eqb (MimeType item') shortcutMimeTypeDangling
          then ret (Ok None)
          else ret (Ok (Some item'))
      end
  else ret (Ok (Some item)).

(** The check of the case of the name: [false] is [continue]. *)
Definition listTitleOK (f : Fs) (title : string) (stems : list string)
    (item : File) : bool :=
  if negb (String.eqb title "") && negb (String.eqb title (Name item)) then
    if existsb (fun stem => String.eqb stem (Name item)) stems then
      let exportName := findExportName f item in
      negb (String.eqb exportName "" || negb (String.eqb exportName title))
    else false
  else true.

(** The body of [for _, item := range files.Files]. *)
Definition listItem {A : Type} (f : Fs) (title : string)
    (directoriesOnly filesOnly : bool) (stems : list string)
    (fn : File -> A -> M State (A * bool)) (item : File) (a : A)
    : M State (A * itemFlow) :=
  let item := setName (Enc_ToStandardName f (Name item)) item in
  let* r := listShortcut f directoriesOnly filesOnly item in
  match r with
  | Err e => ret (a, FlowReturn e)
  | Ok None => ret (a, FlowNext)
  | Ok (Some item) =>
      if listTitleOK f title stems item then
        let* '(a', stop) := fn item a in
        emit (EvFn item stop) ;;
        if stop then ret (a', FlowBreakOuter) else ret (a', FlowNext)
      else ret (a, FlowNext)
  end.

Fixpoint listItems {A : Type} (f : Fs) (title : string)
    (directoriesOnly filesOnly : bool) (stems : list string)
    (fn : File -> A -> M State (A * bool)) (items : list File) (a : A)
    : M State (A * itemFlow) :=
  match items with
  | [] => ret (a, FlowNext)
  | item :: rest =>
      let* '(a', flow) :=
        listItem f title directoriesOnly filesOnly stems fn item a in
      match flow with
      | FlowNext => listItems f title directoriesOnly filesOnly stems fn rest a'
      | _ => ret (a', flow)
      end
  end.

(** One request for a page. *)
Definition listDo (f : Fs) (req : listRequest) : M State (result FileList) :=
  emit (EvFilesList (reqDirIDs req) (reqPageToken req)) ;;
  ret (svc_Files_List f req).

Definition withPageToken (tok : string) (req : listRequest) : listRequest :=
  {| reqDirIDs := reqDirIDs req; reqTitle := reqTitle req;
     reqDirectoriesOnly := reqDirectoriesOnly req;
     reqFilesOnly := reqFilesOnly req; reqTrashedOnly := reqTrashedOnly req;
     reqIncludeAll := reqIncludeAll req; reqPageToken := tok |}.

(** The loop [OUTER: for { ... }] over the pages; [fuel] bounds the number of
    pages requested.  The result is [(found, err)]. *)
Fixpoint listPages {A : Type} (fuel : nat) (f : Fs) (req : listRequest)
    (stems : list string) (fn : File -> A -> M State (A * bool)) (a : A)
    : M State (A * (bool * option error)) :=
  match fuel with
  | O => fun _ => OutOfFuel
  | S fuel' =>
      let* r := listDo f req in
      match r with
      | Err err => ret (a, (false, Some (Wrapf "couldn't list directory" err)))
      | Ok files =>
          (if IncompleteSearch files
           then emit (EvErrorf "search result INCOMPLETE") else ret tt) ;;
          let* '(a', flow) :=
            listItems f (reqTitle req) (reqDirectoriesOnly req)
              (reqFilesOnly req) stems fn (Files files) a in
          match flow with
          | FlowReturn e => ret (a', (false, Some e))
          | FlowBreakOuter => ret (a', (true, None))
          | FlowNext =>
              if String.eqb (NextPageToken files) "" then ret (a', (false, None))
              else listPages fuel' f (withPageToken (NextPageToken files) req)
                     stems fn a'
          end
      end
  end.

(** [f.list(ctx, dirIDs, title, directoriesOnly, filesOnly, trashedOnly,
    includeAll, fn)].  The construction of the query string is left to the
    remote side of [svc_Files_List]; [exportStems] gives the stems the
    construction collects for the title. *)
Definition Fs_list {A : Type} (fuel : nat) (f : Fs) (dirIDs : list string)
    (title : string) (directoriesOnly filesOnly trashedOnly includeAll : bool)
    (fn : File -> A -> M State (A * bool)) (a : A)
    : M State (A * (bool * option error)) :=
  let req := {| reqDirIDs := dirIDs; reqTitle := title;
                reqDirectoriesOnly := directoriesOnly;
                reqFilesOnly := filesOnly; reqTrashedOnly := trashedOnly;
                reqIncludeAll := includeAll; reqPageToken := "" |} in
  listPages fuel f req (exportStems f title directoriesOnly) fn a.

(** *** Sorting two slices at once *)

(** [listRSlices] is a helper struct to sort two slices at once. *)
Record listRSlices : Type := { dirs : list string; paths : list string }.

Definition listRSlices_Len (s : listRSlices) : nat := length (dirs s).

(** [l[i], l[j] = l[j], l[i]]; [None] is the index-out-of-range panic. *)
Definition swapAt (l : list string) (i j : nat) : option (list string) :=
  match l !! i, l !! j with
  | Some x, Some y => Some (<[j:=x]> (<[i:=y]> l))
  | _, _ => None
  end.

Definition listRSlices_Swap (s : listRSlices) (i j : nat) : option listRSlices :=
  match swapAt (dirs s) i j with
  | Some d =>
      match swapAt (paths s) i j with
      | Some p => Some {| dirs := d; paths := p |}
      | None => None
      end
  | None => None
  end.

Definition listRSlices_Less (s : listRSlices) (i j : nat) : option bool :=
  match dirs s !! i, dirs s !! j with
  | Some x, Some y => Some (strLess x y)
  | _, _ => None
  end.

(** The inner loop of the sort package's [insertionSort]:
    [for j := i; j > a && data.Less(j, j-1); j-- { data.Swap(j, j-1) }]. *)
Fixpoint insertionInner (a j : nat) (s : listRSlices) : option listRSlices :=
  match j with
  | O => Some s
  | S j' =>
      if (a <? j)%nat then
        match listRSlices_Less s j j' with
        | Some true =>
            match listRSlices_Swap s j j' with
            | Some s' => insertionInner a j' s'
            | None => None
            end
        | Some false => Some s
        | None => None
        end
      else Some s
  end.

(** Its outer loop [for i := a + 1; i < b; i++], as [n] iterations from [i]. *)
Fixpoint insertionOuter (a n i : nat) (s : listRSlices) : option listRSlices :=
  match n with
  | O => Some s
  | S n' =>
      match insertionInner a i s with
      | Some s' => insertionOuter a n' (S i) s'
      | None => None
      end
  end.

Definition insertionSort (s : listRSlices) (a b : nat) : option listRSlices :=
  insertionOuter a (b - (a + 1)) (a + 1) s.

(** [sort.Sort(s)].  The sort package belongs to the Go library, which reaches
    the data through [Len], [Less] and [Swap] only; it is taken here to be the
    package's [insertionSort] over the whole range, the routine [sort.Sort]
    runs on short slices. *)
Definition sort_Sort (s : listRSlices) : option listRSlices :=
  insertionSort s 0 (listRSlices_Len s).

(** [listRSlices{dirs, paths}.Sort()] *)
Definition listRSlices_Sort (s : listRSlices) : option listRSlices := sort_Sort s.

(** Any other sorting routine over the interface is a tree of [Less] queries
    and [Swap] calls. *)
Inductive sortProg : Type :=
| SortHalt
| SortSwap (i j : nat) (k : sortProg)
| SortLess (i j : nat) (kt kf : sortProg).

Fixpoint runSortProg (p : sortProg) (s : listRSlices) : option listRSlices :=
  match p with
  | SortHalt => Some s
  | SortSwap i j k =>
      match listRSlices_Swap s i j with
      | Some s' => runSortProg k s'
      | None => None
      end
  | SortLess i j kt kf =>
      match listRSlices_Less s i j with
      | Some true => runSortProg kt s
      | Some false => runSortProg kf s
      | None => None
      end
  end.

(** The pairs [(dirs[i], paths[i])] of a batch. *)
Definition pairsOf (s : listRSlices) : list (string * string) :=
  zip (dirs s) (paths s).

(** The batch made of a list of pairs. *)
Definition ofPairs (l : list (string * string)) : listRSlices :=
  {| dirs := l.*1; paths := l.*2 |}.

(** The directory IDs are in ascending order. *)
Definition ascending (ds : list string) : Prop := StronglySorted String.le ds.

(** [sort.Search(n, f)]: binary search for the least index in [[0, n)] at
    which [f] holds.  Each round shrinks [j - i]: [n] rounds are enough. *)
Fixpoint Search_loop (fuel i j : nat) (f : nat -> bool) : nat :=
  match fuel with
  | O => i
  | S fuel' =>
      if (i <? j)%nat then
        let h := ((i + j) / 2)%nat in
        if negb (f h) then Search_loop fuel' (h + 1)%nat j f
        else Search_loop fuel' i h f
      else i
  end.

Definition sort_Search (n : nat) (f : nat -> bool) : nat :=
  Search_loop n 0%nat n f.

(** [sort.SearchStrings(a, x)]; the test is [a[i] >= x]. *)
Definition sort_SearchStrings (a : list string) (x : string) : nat :=
  sort_Search (length a)
    (fun i => match a !! i with
              | Some y => negb (strLess y x)
              | None => false
              end).

(** *** The worker: one batch of listRRunner *)

(** [f.itemToDirEntry(ctx, remote, item)] *)
Definition Fs_itemToDirEntry (f : Fs) (remote : string) (item : File)
    : M State (result DirEntry) :=
  if String.eqb (MimeType item) driveFolderType then
    modify (fun s => set_dirCache (<[remote := Id item]> (dirCache s)) s) ;;
    (if negb (String.eqb (ResourceKey item) "")
     then modify (fun s =>
            set_dirResourceKeys
              (<[Id item := ResourceKey item]> (dirResourceKeys s)) s)
     else ret tt) ;;
    ret (Ok (EntryDir remote (ModifiedTime item) (Id item)
               (match Parents item with p :: _ => p | [] => "" end)))
  else
    match newObjectWithInfo f remote item with
    | Err e =>
        if error_eqb e ErrorObjectNotFound then ret (Ok EntryNil)
        else ret (Err e)
    | Ok entry => ret (Ok entry)
    end.

(** The variables of one round of [listRRunner] that its closure writes. *)
Record batchVars : Type := { foundItems : bool; iErr : option error }.

(** The index [i] of the directory an item is filed under for one of its
    parents; [None] is [continue]. *)
Definition parentIndex (dirs paths : list string) (parent : string)
    : option nat :=
  if (length paths =? 1)%nat then Some 0%nat
  else
    let i := sort_SearchStrings dirs parent in
    if (i =? length dirs)%nat then None
    else
      match dirs !! i with
      | Some d => if String.eqb d parent then Some i else None
      | None => None
      end.

(** The entry of an item under the directory path [p] is made and handed to
    [cb]; the result is the error of either step. *)
Definition emitUnder (f : Fs) (cb : DirEntry -> M State (option error))
    (p : string) (item : File) : M State (option error) :=
  let remote := path_Join f p (Name item) in
  let* r := Fs_itemToDirEntry f remote item in
  match r with
  | Err err => ret (Some err)
  | Ok entry => cb entry
  end.

(** [for _, parent := range item.Parents { ... }] of the closure; the boolean
    is the value the closure returns. *)
Fixpoint parentsLoop (f : Fs) (cb : DirEntry -> M State (option error))
    (dirs paths : list string) (item : File) (parents : list string)
    (v : batchVars) : M State (batchVars * bool) :=
  match parents with
  | [] => ret (v, false)
  | parent :: rest =>
      let v := {| foundItems := true; iErr := iErr v |} in
      let earlyExit := (length paths =? 1)%nat in
      match parentIndex dirs paths parent with
      | None => parentsLoop f cb dirs paths item rest v
      | Some i =>
          match paths !! i with
          | None => panic "index out of range"
          | Some p =>
              let* e := emitUnder f cb p item in
              match e with
              | Some err =>
                  ret ({| foundItems := foundItems v; iErr := Some err |}, true)
              | None =>
                  if earlyExit then ret (v, false)
                  else parentsLoop f cb dirs paths item rest v
              end
          end
      end
  end.

(** The closure [func(item *drive.File) bool] that [listRRunner] hands to
    [f.list]. *)
Definition listRClosure (f : Fs) (cb : DirEntry -> M State (option error))
    (dirs paths : list string) (item : File) (v : batchVars)
    : M State (batchVars * bool) :=
  let item :=
    if SharedWithMe (opt f) && (length (Parents item) =? 0)%nat &&
       (length paths =? 1)%nat &&
       match paths !! 0%nat with Some p => String.eqb p "" | None => false end
    then setParents dirs item
    else item in
  parentsLoop f cb dirs paths item (Parents item) v.

(** The item the closure works on: an item without parents takes the batch
    as its parents when the shared-with-me root is listed. *)
Definition effectiveItem (f : Fs) (dirs paths : list string) (item : File)
    : File :=
  if SharedWithMe (opt f) && (length (Parents item) =? 0)%nat &&
     (length paths =? 1)%nat &&
     match paths !! 0%nat with Some p => String.eqb p "" | None => false end
  then setParents dirs item
  else item.

(** The path of the directory [parent] in the batch, when it is there: the
    path at the first index that holds the ID. *)
Definition pathOf (dirs paths : list string) (parent : string)
    : option string :=
  match list_find (fun d => d = parent) dirs with
  | Some (i, _) => paths !! i
  | None => None
  end.

(** The directory paths an item is to be entered under. *)
Definition filedUnder (dirs paths parents : list string) : list string :=
  if (length paths =? 1)%nat then
    match parents with
    | [] => []
    | _ :: _ => take 1 paths
    end
  else omap (pathOf dirs paths) parents.

(** Enter the item under the paths, one after the other, up to the first
    error. *)
Fixpoint emitAll (f : Fs) (cb : DirEntry -> M State (option error))
    (item : File) (ps : list string) : M State (option error) :=
  match ps with
  | [] => ret None
  | p :: ps' =>
      let* e := emitUnder f cb p item in
      match e with
      | Some err => ret (Some err)
      | None => emitAll f cb item ps'
      end
  end.

(** What the closure comes to: the item is entered under the paths of
    [filedUnder]; [foundItems] is set once the item has a parent, [iErr]
    takes the error, and the listing goes on unless there was one. *)
Definition closurePlan (f : Fs) (cb : DirEntry -> M State (option error))
    (dirs paths : list string) (item : File) (v : batchVars)
    : M State (batchVars * bool) :=
  let item := effectiveItem f dirs paths item in
  let* e := emitAll f cb item (filedUnder dirs paths (Parents item)) in
  ret ({| foundItems :=
            match Parents item with [] => foundItems v | _ :: _ => true end;
          iErr := match e with Some err => Some err | None => iErr v end |},
       match e with Some _ => true | None => false end).

(** [atomic.SwapInt32(&f.grouping, new)] *)
Definition swapGrouping (new : Z) : M State Z :=
  fun s => Ret (grouping s)
             (set_trace (trace s ++ [EvSwapGrouping new (grouping s)])
                (set_grouping new s)).

Definition listRmu_Lock : M State unit :=
  fun s => if listRmu s then Blocked
           else Ret tt (set_trace (trace s ++ [EvLock "listRmu"])
                          (set_listRmu true s)).

Definition listRmu_Unlock : M State unit :=
  fun s => if listRmu s
           then Ret tt (set_trace (trace s ++ [EvUnlock "listRmu"])
                          (set_listRmu false s))
           else Panic "sync: unlock of unlocked mutex".

(** [wg.Add(delta)] *)
Definition wg_Add (delta : Z) : M State unit :=
  fun s => if wg s + delta <? 0 then Panic "sync: negative WaitGroup counter"
           else Ret tt (set_wg (wg s + delta) s).

(** [wg.Done()] *)
Definition wg_Done : M State unit := wg_Add (-1).

(** [if len(dirs) > 1 && !foundItems { ... }]: retry the directories of the
    batch one by one. *)
Definition regroup (sendJob : listREntry -> M State unit)
    (dirs paths : list string) : M State unit :=
  let* old := swapGrouping 1 in
  (if negb (old =? 1)
   then emit (EvDebugf
     "Disabling ListR to work around bug in drive as multi listing (%d) returned no entries"
     [Z.of_nat (length dirs)])
   else ret tt) ;;
  listRmu_Lock ;;
  forRange (seq 0 (length dirs)) (fun i =>
    match dirs !! i, paths !! i with
    | Some d, Some p =>
        let job := {| id := d; path := p |} in
        emit (EvSendJob job) ;;
        sendJob job ;;
        emit (EvEmptiesPut d) ;;
        modify (fun s => set_listRempties ({[d]} ∪ listRempties s) s)
    | _, _ => panic "index out of range"
    end) ;;
  listRmu_Unlock ;;
  emit (EvDebugf "Recycled %d entries" [Z.of_nat (length dirs)]).

(** [if grouping == 1 && len(dirs) == 1 && !foundItems { ... }]: an empty
    directory listed on its own clears its mark. *)
Definition clearEmpty (dirs : list string) : M State unit :=
  listRmu_Lock ;;
  match dirs !! 0%nat with
  | None => panic "index out of range"
  | Some d0 =>
      let* empties := gets listRempties in
      (if decide (d0 ∈ empties) then
         emit (EvEmptiesDelete d0) ;;
         modify (fun s => set_listRempties (listRempties s ∖ {[d0]}) s) ;;
         let* empties' := gets listRempties in
         if (size empties' =? 0)%nat then
           let* old := swapGrouping listRGrouping in
           if negb (old =? listRGrouping)
           then emit (EvDebugf
                  "Re-enabling ListR as previous detection was in error" [])
           else ret tt
         else ret tt
       else ret tt)
  end ;;
  listRmu_Unlock.

(** The code of [listRRunner] after a batch has been listed, up to the
    [wg.Done()] calls. *)
Definition afterList (sendJob : listREntry -> M State unit)
    (dirs paths : list string) (grouping : Z) (found : bool) : M State unit :=
  (if (1 <? length dirs)%nat && negb found
   then regroup sendJob dirs paths else ret tt) ;;
  (if (grouping =? 1) && (length dirs =? 1)%nat && negb found
   then clearEmpty dirs else ret tt) ;;
  forRange dirs (fun _ => wg_Done).

(** One round of the loop of [listRRunner] once the batch [dirs0], [paths0]
    has been read from the channel: sort, list, regroup, [wg.Done()].  The
    result is the pair [(iErr, err)]. *)
Definition listRBatch (fuel : nat) (f : Fs)
    (cb : DirEntry -> M State (option error))
    (sendJob : listREntry -> M State unit)
    (dirs0 paths0 : list string) (grouping : Z)
    : M State (option error * option error) :=
  match listRSlices_Sort {| dirs := dirs0; paths := paths0 |} with
  | None => panic "index out of range"
  | Some sorted =>
      let dirs := dirs sorted in
      let paths := paths sorted in
      let* '(v, (_, err)) :=
        Fs_list fuel f dirs "" false false (TrashedOnly (opt f)) false
          (listRClosure f cb dirs paths)
          {| foundItems := false; iErr := None |} in
      afterList sendJob dirs paths grouping (foundItems v) ;;
      ret (iErr v, err)
  end.

(** *** ListR: its closures *)

(** [mu.Lock()] of the mutex that protects [in] and [overflow]. *)
Definition mu_Lock : M State unit :=
  fun s => if mu s then Blocked else Ret tt (set_mu true s).

Definition mu_Unlock : M State unit :=
  fun s => if mu s then Ret tt (set_mu false s)
           else Panic "sync: unlock of unlocked mutex".

(** [select { case in <- job: ... default: ... }] on a non-nil [in]: the
    boolean says that the send case was taken. *)
Definition in_trySend (job : listREntry) : M State bool :=
  fun s => if inClosed s then Panic "send on closed channel"
           else if Z.of_nat (length (inBuf s)) <? listRInputBuffer
           then Ret true (set_inBuf (inBuf s ++ [job]) s)
           else Ret false s.

(** [in <- d] through the variable [in]: a send on a nil channel and a send on
    a full channel wait. *)
Definition in_send (d : listREntry) : M State unit :=
  fun s => if inNil s then Blocked
           else if inClosed s then Panic "send on closed channel"
           else if Z.of_nat (length (inBuf s)) <? listRInputBuffer
           then Ret tt (set_inBuf (inBuf s ++ [d]) s)
           else Blocked.

(** [close(in); in = nil] *)
Definition in_closeAndNil : M State unit :=
  fun s => if inClosed s then Panic "close of closed channel"
           else Ret tt (set_inNil true (set_inClosed true s)).

(** [sendJob]: send a job to the input channel if not closed; if the job
    won't fit then queue it in the overflow slice. *)
Definition sendJob (job : listREntry) : M State unit :=
  mu_Lock ;;
  let* isNil := gets inNil in
  if isNil then mu_Unlock
  else
    wg_Add 1 ;;
    let* sent := in_trySend job in
    (if sent then ret tt
     else modify (fun s => set_overflow (overflow s ++ [job]) s) ;;
          wg_Add (-1)) ;;
    mu_Unlock.

(** The state a call of [sendJob] leaves behind when it gets the mutex: none
    other when [in] is nil, the job in the channel and one more piece of
    outstanding work when there is room, the job in the overflow slice
    otherwise. *)
Definition afterSendJob (job : listREntry) (s : State) : State :=
  if inNil s then s
  else if Z.of_nat (length (inBuf s)) <? listRInputBuffer
  then set_inBuf (inBuf s ++ [job]) (set_wg (wg s + 1) s)
  else set_overflow (overflow s ++ [job]) s.

(** What [sendJob] relies on: the mutex is free, a channel that has been
    closed has been set to nil, and the outstanding work is not negative. *)
Definition sendable (s : State) : Prop :=
  mu s = false /\ (inNil s = false -> inClosed s = false) /\ 0 <= wg s.

(** The part of [sendable] that holds whoever has the mutex. *)
Definition chanInv (s : State) : Prop :=
  (inNil s = false -> inClosed s = false) /\ 0 <= wg s.

(** A piece of code keeps a property of the state whenever it returns. *)
Definition preserves {A : Type} (P : State -> Prop) (m : M State A) : Prop :=
  forall s a s', P s -> m s = Ret a s' -> P s'.








(** Modelled from the spec: [walk.ListRHelper] (package fs/walk, outside the
    listed sources).  The aggregating callback is a sink invoked once per
    entry, whose error aborts the traversal: [list.Add(entry)] hands the entry
    to the callback and returns its answer, and [list.Flush()] has nothing
    left to deliver. *)
Definition list_Add (callback : DirEntry -> option error) (entry : DirEntry)
    : M State (option error) :=
  emit (EvCallback entry) ;;
  modify (fun s => set_helperEntries (helperEntries s ++ [entry]) s) ;;
  ret (callback entry).

Definition list_Flush : M State (option error) := ret None.

(** [cb]: send the entry to the caller, queueing any directories as new
    jobs. *)
Definition ListR_cb (callback : DirEntry -> option error) (entry : DirEntry)
    : M State (option error) :=
  match entry with
  | EntryDir remote _ dID _ =>
      sendJob {| id := ID.actualID dID; path := remote |}
  | _ => ret tt
  end ;;
  mu_Lock ;;
  modify (fun s => set_listed (listed s + 1) s) ;;
  let* e := list_Add callback entry in
  mu_Unlock ;;
  ret e.

(** *** ListR: its goroutines *)

(** Where a worker ([listRRunner]) stands: at the [range] over the channel, in
    the wait loop before round [i], with a batch to list, about to report on
    [out], or gone. *)
Inductive workerPC : Type :=
| WRange
| WWait (dirs paths : list string) (grouping i : Z)
| WBatch (dirs paths : list string) (grouping : Z)
| WOut (e : option error)
| WExit.

(** Where the goroutine that feeds and closes the channel stands. *)
Inductive coordPC : Type :=
| CWait
| CTest
| CRefill
| CFill (rest : list listREntry) (l : nat)
| CClose
| CExit.

(** Where [ListR] itself stands: receiving the report number [i], looking at
    the report [e], or returned with a result. *)
Inductive mainPC : Type :=
| MRecv (i : nat)
| MCheck (i : nat) (e : option error)
| MReturned (r : option error).

Record Config : Type := {
  st : State;
  mainpc : mainPC;
  coordpc : coordPC;
  workers : list workerPC;
  crashed : option string
}.

Inductive tid : Type :=
| TMain
| TCoord
| TWorker (n : nat).

(** One step of a worker. *)
Definition workerStep (fuel : nat) (f : Fs)
    (callback : DirEntry -> option error) (pc : workerPC)
    : M State workerPC :=
  match pc with
  | WRange =>
      fun s =>
        match inBuf s with
        | dir :: rest =>
            Ret (WWait [id dir] [path dir] (grouping s) 1) (set_inBuf rest s)
        | [] => if inClosed s then Ret (WOut None) s else Blocked
        end
  | WWait dirs paths grouping i =>
      if i <? grouping then
        fun s =>
          match inBuf s with
          | d :: rest =>
              Ret (WWait (dirs ++ [id d]) (paths ++ [path d]) grouping (i + 1))
                  (set_inBuf rest s)
          | [] =>
              if inClosed s then Ret (WBatch dirs paths grouping) s
              else Ret (WWait dirs paths grouping (i + 1)) s
          end
      else ret (WBatch dirs paths grouping)
  | WBatch dirs paths grouping =>
      let* '(iErr, err) :=
        listRBatch fuel f (ListR_cb callback) sendJob dirs paths grouping in
      match iErr, err with
      | Some e, _ => ret (WOut (Some e))
      | None, Some e => ret (WOut (Some e))
      | None, None => ret WRange
      end
  | WOut e =>
      fun s =>
        if (length (outBuf s) <? ci_Checkers f)%nat
        then Ret WExit (set_outBuf (outBuf s ++ [e]) s)
        else Blocked
  | WExit => block
  end.

(** One step of the feeding goroutine. *)
Definition coordStep (pc : coordPC) : M State coordPC :=
  match pc with
  | CWait => fun s => if wg s =? 0 then Ret CTest s else Blocked
  | CTest =>
      let* ov := gets overflow in
      if (0 <? length ov)%nat then ret CRefill else ret CClose
  | CRefill =>
      mu_Lock ;;
      let* ov := gets overflow in
      let l := length ov in
      let l := if (Z.to_nat (listRInputBuffer / 2) <? l)%nat
               then Z.to_nat (listRInputBuffer / 2) else l in
      wg_Add (Z.of_nat l) ;;
      ret (CFill (take l ov) l)
  | CFill (d :: rest) l => in_send d ;; ret (CFill rest l)
  | CFill [] l =>
      modify (fun s => set_overflow (drop l (overflow s)) s) ;;
      mu_Unlock ;;
      ret CWait
  | CClose =>
      mu_Lock ;;
      let* isNil := gets inNil in
      (if negb isNil then in_closeAndNil else ret tt) ;;
      mu_Unlock ;;
      ret CExit
  | CExit => block
  end.

(** One step of [ListR] after it has started its goroutines. *)
Definition mainStep (f : Fs) (pc : mainPC) : M State mainPC :=
  match pc with
  | MRecv i =>
      if (i <? ci_Checkers f)%nat then
        fun s =>
          match outBuf s with
          | e :: rest => Ret (MCheck i e) (set_outBuf rest s)
          | [] => Blocked
          end
      else
        let* err := gets err in
        match err with
        | Some e => ret (MReturned (Some e))
        | None => let* e := list_Flush in ret (MReturned e)
        end
  | MCheck i e =>
      mu_Lock ;;
      let* isNil := gets inNil in
      (match e with
       | Some _ =>
           if negb isNil
           then modify (set_err e) ;; in_closeAndNil
           else ret tt
       | None => ret tt
       end) ;;
      mu_Unlock ;;
      ret (MRecv (S i))
  | MReturned _ => block
  end.

Definition crash (msg : string) (c : Config) : Config :=
  {| st := st c; mainpc := mainpc c; coordpc := coordpc c;
     workers := workers c; crashed := Some msg |}.

(** Run one step of a thread on a configuration.  A panic stops the whole
    program; a thread that waits, or that has gone, has no step. *)
Definition stepWith {PC : Type} (m : M State PC) (c : Config)
    (k : PC -> State -> Config) : option Config :=
  match m (st c) with
  | Ret pc s' => Some (k pc s')
  | Panic msg => Some (crash msg c)
  | Blocked => None
  | OutOfFuel => None
  end.

Definition stepThread (fuel : nat) (f : Fs)
    (callback : DirEntry -> option error) (t : tid) (c : Config)
    : option Config :=
  match crashed c with
  | Some _ => None
  | None =>
      match t with
      | TMain =>
          stepWith (mainStep f (mainpc c)) c (fun pc s' =>
            {| st := s'; mainpc := pc; coordpc := coordpc c;
               workers := workers c; crashed := None |})
      | TCoord =>
          stepWith (coordStep (coordpc c)) c (fun pc s' =>
            {| st := s'; mainpc := mainpc c; coordpc := pc;
               workers := workers c; crashed := None |})
      | TWorker n =>
          match workers c !! n with
          | None => None
          | Some w =>
              stepWith (workerStep fuel f callback w) c (fun pc s' =>
                {| st := s'; mainpc := mainpc c; coordpc := coordpc c;
                   workers := <[n := pc]> (workers c); crashed := None |})
          end
      end
  end.

(** The interleavings of the goroutines. *)
Definition step (f : Fs) (callback : DirEntry -> option error)
    (c c' : Config) : Prop :=
  exists fuel t, stepThread fuel f callback t c = Some c'.

(** Run the threads in the order of a schedule. *)
Fixpoint runSchedule (fuel : nat) (f : Fs)
    (callback : DirEntry -> option error) (sched : list tid) (c : Config)
    : option Config :=
  match sched with
  | [] => Some c
  | t :: sched' =>
      match stepThread fuel f callback t c with
      | Some c' => runSchedule fuel f callback sched' c'
      | None => None
      end
  end.

(** [ListR(ctx, dir, callback)] up to the point where its goroutines run: the
    early return on a directory that is not found, or the first
    configuration.  [s0] gives the fields of [f] when the call is made. *)
Definition ListR_start (f : Fs) (dir : string) (s0 : State) : result Config :=
  match dirCache_FindDir f dir with
  | Err e => Err e
  | Ok directoryID =>
      let directoryID := ID.actualID directoryID in
      Ok {| st := {| grouping := grouping s0;
                     listRempties := listRempties s0;
                     dirCache := dirCache s0;
                     dirResourceKeys := dirResourceKeys s0;
                     listRmu := listRmu s0;
                     mu := false;
                     inNil := false;
                     inBuf := [ {| id := directoryID; path := dir |} ];
                     inClosed := false;
                     outBuf := [];
                     wg := 1;
                     overflow := [];
                     listed := 0;
                     helperEntries := [];
                     err := None;
                     trace := trace s0 |};
            mainpc := MRecv 0;
            coordpc := CWait;
            workers := replicate (ci_Checkers f) WRange;
            crashed := None |}
  end.

(** The configurations a call of [ListR] can be in. *)
Definition reachable (f : Fs) (callback : DirEntry -> option error)
    (dir : string) (s0 : State) (c : Config) : Prop :=
  exists c0, ListR_start f dir s0 = Ok c0 /\ rtc (step f callback) c0 c.

(** A worker that has gone. *)
Definition isExit (w : workerPC) : bool :=
  match w with WExit => true | _ => false end.

Definition exitedCount (ws : list workerPC) : nat :=
  length (filter (fun w => isExit w = true) ws).

(** The number of reports [ListR] has taken from [out]. *)
Definition reportsTaken (f : Fs) (pc : mainPC) : nat :=
  match pc with
  | MRecv i => i
  | MCheck i _ => S i
  | MReturned _ => ci_Checkers f
  end.

(** Every worker that has gone has left one report, which is in [out] or has
    been taken. *)
Definition reportInv (f : Fs) (c : Config) : Prop :=
  length (workers c) = ci_Checkers f /\
  exitedCount (workers c)
  = (length (outBuf (st c)) + reportsTaken f (mainpc c))%nat.

(** The state of [f] when the backend is created ([NewFs]). *)
Definition newFsState : State :=
  {| grouping := listRGrouping; listRempties := ∅; dirCache := ∅;
     dirResourceKeys := ∅; listRmu := false; mu := false; inNil := false;
     inBuf := []; inClosed := false; outBuf := []; wg := 0; overflow := [];
     listed := 0; helperEntries := []; err := None; trace := [] |}.

(** *** Readings of a trace *)

(** The IDs fetched by [getFile], in order. *)
Definition fetches (tr : list event) : list string :=
  omap (fun e => match e with EvGetFile i => Some i | _ => None end) tr.

(** The page tokens of the list requests, in order. *)
Definition pageRequests (tr : list event) : list string :=
  omap (fun e => match e with EvFilesList _ tok => Some tok | _ => None end) tr.

(** The items handed to the function of a listing, with its answers. *)
Definition fnCalls (tr : list event) : list (File * bool) :=
  omap (fun e => match e with EvFn it b => Some (it, b) | _ => None end) tr.

(** The lines written with [fs.Errorf]. *)
Definition errorLines (tr : list event) : list string :=
  omap (fun e => match e with EvErrorf m => Some m | _ => None end) tr.

(** Some call of the function asked for the listing to stop. *)
Definition stopped (calls : list (File * bool)) : Prop :=
  Exists (fun c => c.2 = true) calls.

(** Events that are none of the lister's own. *)
Definition silent (tr : list event) : Prop :=
  pageRequests tr = [] /\ errorLines tr = [] /\ fnCalls tr = [].

(** A function of a listing that always returns, and that leaves the lister's
    part of the trace alone. *)
Definition quiet {A : Type} (fn : File -> A -> M State (A * bool)) : Prop :=
  forall item a s, exists a' stop new s',
    fn item a s = Ret (a', stop) s' /\
    trace s' = (trace s ++ new)%list /\ silent new.

(** The pages the remote side serves from a request on: each but the last
    names its successor, and the last has no next page token. *)
Fixpoint chainFrom (f : Fs) (req : listRequest) (pages : list FileList)
    : Prop :=
  match pages with
  | [] => False
  | p :: rest =>
      svc_Files_List f req = Ok p /\
      match rest with
      | [] => NextPageToken p = ""
      | _ :: _ =>
          NextPageToken p <> "" /\
          chainFrom f (withPageToken (NextPageToken p) req) rest
      end
  end.

(** The page tokens of the requests that fetch a chain of pages. *)
Fixpoint tokensOf (tok : string) (pages : list FileList) : list string :=
  match pages with
  | [] => []
  | p :: rest => tok :: tokensOf (NextPageToken p) rest
  end.

(** What the lister leaves in the trace for a page before it looks at the
    items: the request, and a line in the log when the page is marked
    incomplete. *)
Definition pageEvents (req : listRequest) (p : FileList) : list event :=
  EvFilesList (reqDirIDs req) (reqPageToken req)
    :: (if IncompleteSearch p
        then [EvErrorf "search result INCOMPLETE"] else []).

(** What the remote side answers from a request on, up to the end: the pages
    it serves, each naming its successor, and how they end, with a page
    without next page token ([failure = None]) or with a request that fails
    ([failure = Some err]). *)
Fixpoint servedFrom (f : Fs) (req : listRequest) (pages : list FileList)
    (failure : option error) : Prop :=
  match pages with
  | [] =>
      match failure with
      | Some err => svc_Files_List f req = Err err
      | None => False
      end
  | p :: rest =>
      svc_Files_List f req = Ok p /\
      match rest, failure with
      | [], None => NextPageToken p = ""
      | _, _ =>
          NextPageToken p <> "" /\
          servedFrom f (withPageToken (NextPageToken p) req) rest failure
      end
  end.

(** The page tokens of the requests that get these answers, the failing one
    included. *)
Fixpoint tokensTo (tok : string) (pages : list FileList)
    (failure : option error) : list string :=
  match pages with
  | [] => match failure with Some _ => [tok] | None => [] end
  | p :: rest => tok :: tokensTo (NextPageToken p) rest failure
  end.

Definition incompleteCount (pages : list FileList) : nat :=
  length (filter (fun p => IncompleteSearch p = true) pages).

End Engine.

(** ** Sample data *)

Module Samples.
Import Go Drive Const Engine.

Definition plainOptions : Options :=
  {| SkipShortcuts := false; SkipDanglingShortcuts := false;
     SharedWithMe := false; TrashedOnly := false; SkipGdocs := false |}.

Definition skipShortcutsOptions : Options :=
  {| SkipShortcuts := true; SkipDanglingShortcuts := false;
     SharedWithMe := false; TrashedOnly := false; SkipGdocs := false |}.

(** A file [report.txt] with ID [t1] kept in the folder [d9]. *)
Definition targetFile : File :=
  {| Id := "t1"; Name := "report.txt"; MimeType := "text/plain";
     Parents := ["d9"]; Trashed := false; ShortcutDetails := None;
     Md5Checksum := "9e107d9d372bb6826bd81d3542a419d6"; Size := 43;
     ModifiedTime := "2023-01-02T03:04:05Z"; ResourceKey := "" |}.

(** A shortcut [link] with ID [sc1] in the folder [d1] that points to it. *)
Definition aliasFile : File :=
  {| Id := "sc1"; Name := "link"; MimeType := shortcutMimeType;
     Parents := ["d1"]; Trashed := false;
     ShortcutDetails :=
       Some {| TargetId := "t1"; TargetMimeType := "text/plain" |};
     Md5Checksum := ""; Size := 0;
     ModifiedTime := "2023-02-03T04:05:06Z"; ResourceKey := "" |}.

(** A backend whose remote holds [targetFile] only and answers every list
    request with [pages]. *)
Definition sampleFs (o : Options) (checkers : nat)
    (pages : listRequest -> result FileList) : Fs :=
  {| opt := o;
     ci_Checkers := checkers;
     svc_Files_Get := fun i =>
       if String.eqb i "t1" then Ok targetFile
       else Err (GoogleapiError 404 "File not found");
     svc_Files_List := pages;
     Enc_ToStandardName := fun n => n;
     exportStems := fun _ _ => [];
     findExportName := fun _ => "";
     newObjectWithInfo := fun remote item => Ok (EntryObject remote (Id item));
     dirCache_FindDir := fun _ => Ok "root";
     path_Join := fun dir leaf =>
       if String.eqb dir "" then leaf else dir +:+ "/" +:+ leaf |}.

Definition noPages : listRequest -> result FileList :=
  fun _ => Ok {| Files := []; NextPageToken := ""; IncompleteSearch := false |}.


(** Two pages: the first names the second with the token [p2]. *)
Definition firstPage : FileList :=
  {| Files := [targetFile]; NextPageToken := "p2"; IncompleteSearch := false |}.

Definition secondPage : FileList :=
  {| Files := [aliasFile]; NextPageToken := ""; IncompleteSearch := true |}.

Definition twoPages : listRequest -> result FileList :=
  fun req => if String.eqb (reqPageToken req) "" then Ok firstPage
             else Ok secondPage.

(** A file that names no parent. *)
Definition orphanFile : File :=
  {| Id := "f7"; Name := "notes.txt"; MimeType := "text/plain";
     Parents := []; Trashed := false; ShortcutDetails := None;
     Md5Checksum := "0cc175b9c0f1b6a831c399e269772661"; Size := 1;
     ModifiedTime := "2023-03-04T05:06:07Z"; ResourceKey := "" |}.

(** A file kept in the folders [b], [zz] and [a] at once. *)
Definition sharedFile : File :=
  {| Id := "f8"; Name := "plan.txt"; MimeType := "text/plain";
     Parents := ["b"; "zz"; "a"]; Trashed := false; ShortcutDetails := None;
     Md5Checksum := "92eb5ffee6ae2fec3ad71c777531578f"; Size := 1;
     ModifiedTime := "2023-03-04T05:06:07Z"; ResourceKey := "" |}.

(** A callback that takes every entry. *)
Definition acceptAll : DirEntry -> option error := fun _ => None.



(** The error a remote side out of quota answers with. *)
Definition quotaError : error := GoogleapiError 403 "userRateLimitExceeded".



(** A backend with one checker whose remote side fails every list request. *)
Definition failingFs : Fs :=
  sampleFs plainOptions 1%nat (fun _ => Err quotaError).

(** The first configuration of [ListR], when the directory is found. *)
Definition startOf (f : Fs) (dir : string) (s0 : State) : Config :=
  match ListR_start f dir s0 with
  | Ok c => c
  | Err _ =>
      {| st := s0; mainpc := MReturned None; coordpc := CExit; workers := [];
         crashed := Some "directory not found" |}
  end.

(** The worker takes the root job, polls the channel for more (49 rounds and
    the end of the wait loop) and lists the batch. *)
Definition workerListsRoot : list tid :=
  (TWorker 0 :: repeat (TWorker 0) 50 ++ [TWorker 0])%list.

(** After that, the feeding goroutine sees the counter at zero and closes the
    channel before the worker's report is looked at. *)
Definition lostErrorSchedule : list tid :=
  (workerListsRoot ++
   [TCoord; TCoord; TCoord; TWorker 0; TMain; TMain; TMain])%list.

(** After that, the report is looked at before the feeding goroutine runs. *)
Definition keptErrorSchedule : list tid :=
  (workerListsRoot ++
   [TWorker 0; TMain; TMain; TCoord; TCoord; TCoord; TMain])%list.

(** What is seen of a configuration from outside. *)
Definition outcome (c : option Config)
    : option (mainPC * coordPC * list workerPC * option string) :=
  match c with
  | Some c => Some (mainpc c, coordpc c, workers c, crashed c)
  | None => None
  end.

End Samples.

(** * The rest of the backend

    The functions around the listing engine: the parsing of the options, the
    choice of an export format, the retry policy, the plain listing and the
    lookups built on the lister, the removal of directories and objects, and
    the reader of exported documents. *)

(** ** More of the Go library *)

Module GoStrings.

(** [strings.HasPrefix(s, prefix)] *)
Fixpoint HasPrefix (s prefix : string) : bool :=
  match prefix, s with
  | EmptyString, _ => true
  | String p prefix', String x s' => Ascii.eqb x p && HasPrefix s' prefix'
  | String _ _, EmptyString => false
  end.

(** [strings.Split(s, sep)] for a separator of one byte: the pieces between
    the separators, one more than there are separators. *)
Fixpoint Split (s : string) (sep : ascii) : list string :=
  match s with
  | EmptyString => [EmptyString]
  | String x s' =>
      if Ascii.eqb x sep then EmptyString :: Split s' sep
      else
        match Split s' sep with
        | piece :: rest => String x piece :: rest
        | [] => [String x EmptyString]
        end
  end.

(** The number of bytes [c] in [s]. *)
Fixpoint countByte (c : ascii) (s : string) : nat :=
  match s with
  | EmptyString => O
  | String x s' => ((if Ascii.eqb x c then 1 else 0) + countByte c s')%nat
  end.

(** The functions of the Go library whose tables the backend does not hold:
    [strings.TrimSpace], [strings.ToLower], [mime.TypeByExtension] (with the
    types the backend registers at start-up) and [strconv.Quote], the [%q] of
    [fmt]. *)
Record Library : Type := {
  TrimSpace : string -> string;
  ToLower : string -> string;
  TypeByExtension : string -> string;
  Quote : string -> string
}.

End GoStrings.

(** ** Options, extensions and export formats *)

Module Formats.
Import Go GoStrings.

Definition scopePrefix : string := "https://www.googleapis.com/auth/".
Definition defaultScope : string := "drive".
Definition defaultExportExtensions : string := "docx,xlsx,pptx,svg".

(** [driveScopes]: parse the scopes option returning a slice of scopes. *)
Definition driveScopes (lib : Library) (scopesString : string) : list string :=
  let scopesString :=
    if String.eqb scopesString "" then defaultScope else scopesString in
  (fun scope => scopePrefix +:+ TrimSpace lib scope)
    <$> Split scopesString ",".

(** [containsString(slice, s)] *)
Fixpoint containsString (slice : list string) (s : string) : bool :=
  match slice with
  | [] => false
  | e :: rest => if String.eqb e s then true else containsString rest s
  end.

(** The body of the inner loop of [parseExtensions] on the pieces of one
    argument; it ends with the two slices and the error of the piece that has
    no MIME type, if there is one. *)
Fixpoint parsePieces (lib : Library) (pieces : list string)
    (extensions mimeTypes : list string)
    : list string * list string * option error :=
  match pieces with
  | [] => (extensions, mimeTypes, None)
  | extension :: rest =>
      let extension := ToLower lib (TrimSpace lib extension) in
      if String.eqb extension "" then
        parsePieces lib rest extensions mimeTypes
      else
        let extension :=
          match extension with
          | String c _ =>
              if negb (Ascii.eqb c ".") then "." +:+ extension else extension
          | EmptyString => extension
          end in
        let mt := TypeByExtension lib extension in
        if String.eqb mt "" then
          (extensions, mimeTypes,
           Some (PlainError ("couldn't find MIME type for extension "
                             +:+ Quote lib extension)))
        else if negb (containsString extensions extension) then
          parsePieces lib rest (extensions ++ [extension]) (mimeTypes ++ [mt])
        else parsePieces lib rest extensions mimeTypes
  end.

(** The outer loop of [parseExtensions], over its arguments. *)
Fixpoint parseTexts (lib : Library) (extensionsIn : list string)
    (extensions mimeTypes : list string)
    : list string * list string * option error :=
  match extensionsIn with
  | [] => (extensions, mimeTypes, None)
  | extensionText :: rest =>
      match parsePieces lib (Split extensionText ",") extensions mimeTypes with
      | (extensions', mimeTypes', None) =>
          parseTexts lib rest extensions' mimeTypes'
      | failed => failed
      end
  end.

(** [parseExtensions(extensionsIn...)]: parse a list of comma separated
    extensions into a list of unique extensions with leading "." and a list
    of associated MIME types. *)
Definition parseExtensions (lib : Library) (extensionsIn : list string)
    : list string * list string * option error :=
  parseTexts lib extensionsIn [] [].

(** The extension a piece of the option stands for: trimmed, in lower case
    and with a leading dot; the empty string for a blank piece. *)
Definition extensionOf (lib : Library) (piece : string) : string :=
  let extension := ToLower lib (TrimSpace lib piece) in
  match extension with
  | String c _ => if negb (Ascii.eqb c ".") then "." +:+ extension else extension
  | EmptyString => ""
  end.

(** The pieces of the arguments of [parseExtensions], in order. *)
Definition piecesOf (extensionsIn : list string) : list string :=
  extensionsIn ≫= (fun extensionText => Split extensionText ",").

(** A piece that [parseExtensions] accepts: it is blank, or its extension
    has a MIME type. *)
Definition knownPiece (lib : Library) (piece : string) : Prop :=
  extensionOf lib piece <> "" ->
  TypeByExtension lib (extensionOf lib piece) <> "".

(** What the two slices of [parseExtensions] satisfy at every moment. *)
Definition slicesInv (lib : Library) (exts mts : list string) : Prop :=
  NoDup exts /\ mts = TypeByExtension lib <$> exts /\
  Forall (fun e => HasPrefix e "." = true) exts /\
  Forall (fun mt => mt <> "") mts.

(** [isInternalMimeType] *)
Definition isInternalMimeType (mimeType : string) : bool :=
  HasPrefix mimeType "application/vnd.google-apps.".

(** [isLinkMimeType] *)
Definition isLinkMimeType (mimeType : string) : bool :=
  HasPrefix mimeType "application/x-link-".

(** [_mimeTypeCustomTransform[emt]]: the entry of the map, or the empty
    string. *)
Definition mimeTypeCustomTransform (emt : string) : string :=
  if String.eqb emt "application/vnd.google-apps.script+json"
  then "application/json" else "".

(** What the choice of an export format reads: the export formats the drive
    offers by MIME type ([f.exportFormats(ctx)], the map that is left once
    the formats have been fetched), and the preferred extensions of the
    options ([f.exportExtensions]). *)
Record Exports : Type := {
  exportFormats : gmap string (list string);
  exportExtensions : list string
}.

(** [for _, emt := range exportMimeTypes { ... }]: the export MIME type that
    fits the MIME type of an extension. *)
Fixpoint matchExport (_mimeType : string) (exportMimeTypes : list string)
    : option string :=
  match exportMimeTypes with
  | [] => None
  | emt :: rest =>
      if String.eqb emt _mimeType then Some emt
      else if String.eqb _mimeType (mimeTypeCustomTransform emt) then Some emt
      else matchExport _mimeType rest
  end.

(** The first loop of [findExportFormatByMimeType], run for a document. *)
Fixpoint documentLoop (lib : Library) (exportMimeTypes : list string)
    (extensions : list string) : option (string * string) :=
  match extensions with
  | [] => None
  | _extension :: rest =>
      let _mimeType := TypeByExtension lib _extension in
      if isLinkMimeType _mimeType then Some (_extension, _mimeType)
      else
        match matchExport _mimeType exportMimeTypes with
        | Some emt => Some (_extension, emt)
        | None => documentLoop lib exportMimeTypes rest
        end
  end.

(** Its second loop: a link type exports every item. *)
Fixpoint linkLoop (lib : Library) (extensions : list string)
    : option (string * string) :=
  match extensions with
  | [] => None
  | _extension :: rest =>
      let _mimeType := TypeByExtension lib _extension in
      if isLinkMimeType _mimeType then Some (_extension, _mimeType)
      else linkLoop lib rest
  end.

(** [f.findExportFormatByMimeType(ctx, itemMimeType)]: the optimum export
    settings [(extension, mimeType, isDocument)] for a MIME type. *)
Definition findExportFormatByMimeType (lib : Library) (x : Exports)
    (itemMimeType : string) : string * string * bool :=
  let found :=
    match exportFormats x !! itemMimeType with
    | Some exportMimeTypes =>
        documentLoop lib exportMimeTypes (exportExtensions x)
    | None => None
    end in
  match found with
  | Some (extension, mimeType) => (extension, mimeType, true)
  | None =>
      match linkLoop lib (exportExtensions x) with
      | Some (extension, mimeType) => (extension, mimeType, true)
      | None =>
          ("", "",
           match exportFormats x !! itemMimeType with
           | Some _ => true
           | None => false
           end)
      end
  end.

(** [f.findExportFormat(ctx, item)]:
    [(extension, filename, mimeType, isDocument)]. *)
Definition findExportFormat (lib : Library) (x : Exports) (item : Drive.File)
    : string * string * string * bool :=
  if negb (String.eqb (Drive.Md5Checksum item) "") then ("", "", "", false)
  else if String.eqb (Drive.MimeType item) Const.driveFolderType
  then ("", "", "", false)
  else
    let '(extension, mimeType, isDocument) :=
      findExportFormatByMimeType lib x (Drive.MimeType item) in
    (extension,
     if negb (String.eqb extension "") then Drive.Name item +:+ extension
     else "",
     mimeType, isDocument).

(** An extension the choice can settle on for a document with the export
    MIME types [emts]. *)
Definition usable (lib : Library) (emts : list string) (ext : string) : bool :=
  isLinkMimeType (TypeByExtension lib ext) ||
  match matchExport (TypeByExtension lib ext) emts with
  | Some _ => true
  | None => false
  end.

End Formats.

(** ** The retry policy *)

Module Retry.

(** [googleapi.ErrorItem] *)
Record ErrorItem : Type := { Reason : string; Message : string }.

(** The errors [shouldRetry] tells apart by their type: a [*googleapi.Error]
    with its code and items, an error marked fatal by
    [fserrors.FatalError], and the others. *)
Inductive err : Type :=
| Googleapi (Code : Z) (Errors : list ErrorItem)
| Fatal (e : err)
| Other (msg : string).

(** What [shouldRetry] reads besides the error: the two options, and the two
    functions of the package fserrors for the context of the call,
    [fserrors.ContextError(ctx, &err)] (its answer and the error it leaves
    in [err]) and [fserrors.ShouldRetry(err)]. *)
Record Policy : Type := {
  StopOnUploadLimit : bool;
  StopOnDownloadLimit : bool;
  ContextError : option err -> bool * option err;
  ShouldRetry : err -> bool
}.

(** [f.shouldRetry(ctx, err)]: whether the call is to be made again, the
    error to return, and the lines written with [fs.Errorf]. *)
Definition shouldRetry (p : Policy) (e : option err)
    : bool * option err * list string :=
  let '(done, e) := ContextError p e in
  if done then (false, e, [])
  else
    match e with
    | None => (false, None, [])
    | Some err =>
        if ShouldRetry p err then (true, Some err, [])
        else
          match err with
          | Googleapi Code Errors =>
              if (500 <=? Code) && (Code <? 600) then (true, Some err, [])
              else
                match Errors with
                | item :: _ =>
                    let reason := Reason item in
                    if String.eqb reason "rateLimitExceeded" ||
                       String.eqb reason "userRateLimitExceeded" then
                      if StopOnUploadLimit p &&
                         String.eqb (Message item) "User rate limit exceeded."
                      then (false, Some (Fatal err),
                            ["Received upload limit error: %v"])
                      else (true, Some err, [])
                    else if StopOnDownloadLimit p &&
                            String.eqb reason "downloadQuotaExceeded"
                    then (false, Some (Fatal err),
                          ["Received download limit error: %v"])
                    else if StopOnUploadLimit p &&
                            String.eqb reason "quotaExceeded"
                    then (false, Some (Fatal err),
                          ["Received upload limit error: %v"])
                    else if StopOnUploadLimit p &&
                            String.eqb reason "teamDriveFileLimitExceeded"
                    then (false, Some (Fatal err),
                          ["Received Shared Drive file limit error: %v"])
                    else (false, Some err, [])
                | [] => (false, Some err, [])
                end
          | _ => (false, Some err, [])
          end
    end.

End Retry.

(** ** Objects and their removal *)

Module Objects.
Import Go Drive Const Engine.

(** The fields of [drive.File] and of the options that only the making of an
    object reads. *)
Record FileInfo : Type := {
  CreatedTime : string;
  SharedWithMeTime : string;
  QuotaBytesUsed : Z
}.

Record ObjectOptions : Type := {
  UseCreatedDate : bool;
  UseSharedDate : bool;
  SizeAsQuota : bool
}.

(** [baseObject], without its pointers to the backend and to the resource
    key. *)
Record baseObject : Type := {
  remote : string;
  id : string;
  modifiedDate : string;
  mimeType : string;
  bytes : Z;
  parents : list string
}.

(** [f.newBaseObject(remote, info)] *)
Definition newBaseObject (o : ObjectOptions) (remote : string) (info : File)
    (more : FileInfo) : baseObject :=
  let modifiedDate :=
    if UseCreatedDate o then CreatedTime more
    else if UseSharedDate o && negb (String.eqb (SharedWithMeTime more) "")
    then SharedWithMeTime more
    else ModifiedTime info in
  let size := if SizeAsQuota o then QuotaBytesUsed more else Size info in
  {| remote := remote; id := Id info; modifiedDate := modifiedDate;
     mimeType := MimeType info; bytes := size; parents := Parents info |}.

(** [o.ParentID()] *)
Definition baseObject_ParentID (o : baseObject) : string :=
  match parents o with
  | p :: _ => p
  | [] => ""
  end.

(** What a removal does to the remote side and to the directory cache. *)
Inductive effect : Type :=
| EffDelete (id : string)
| EffFlushDir (dir : string).

(** [f.delete(ctx, id, useTrash)]: delete a file or directory
    unconditionally by ID.  [svc_delete] is the answer of the remote side. *)
Definition Fs_delete (svc_delete : string -> option error) (id : string)
    (useTrash : bool) : M (list effect) (option error) :=
  modify (fun l : list effect => (l ++ [EffDelete id])%list) ;; ret (svc_delete id).

(** [o.Remove(ctx)] *)
Definition baseObject_Remove (svc_delete : string -> option error)
    (o : baseObject) : M (list effect) (option error) :=
  if (1 <? length (parents o))%nat then
    ret (Some (PlainError "can't delete safely - has multiple parents"))
  else Fs_delete svc_delete (ID.shortcutID (id o)) false.

(** [f.Purge(ctx, dir)] for a backend with the root [root]. *)
Definition Fs_Purge (f : Fs) (root : string)
    (svc_delete : string -> option error) (dir : string)
    : M (list effect) (option error) :=
  let root := path_Join f root dir in
  match dirCache_FindDir f dir with
  | Err err => ret (Some err)
  | Ok directoryID =>
      let '(directoryID, shortcutID) := ID.splitID directoryID in
      if negb (String.eqb shortcutID "") then
        Fs_delete svc_delete shortcutID false
      else
        let* err :=
          if negb (String.eqb root "")
          then Fs_delete svc_delete directoryID false
          else ret None in
        match err with
        | Some err => ret (Some err)
        | None => modify (fun l : list effect => (l ++ [EffFlushDir dir])%list) ;; ret None
        end
  end.

(** [f.Rmdir(ctx, dir)] *)
Definition Fs_Rmdir (f : Fs) (root : string)
    (svc_delete : string -> option error) (dir : string)
    : M (list effect) (option error) :=
  Fs_Purge f root svc_delete dir.

End Objects.

(** ** The plain listing *)

Module Listing.
Import Go Drive Const Engine.

(** The function [f.List] hands to [f.list]; its variables are the entries
    gathered so far and [iErr]. *)
Definition List_fn (f : Fs) (dir : string) (item : File)
    (v : list DirEntry * option error)
    : M State ((list DirEntry * option error) * bool) :=
  let '(entries, iErr) := v in
  let* r := Fs_itemToDirEntry f (path_Join f dir (Name item)) item in
  match r with
  | Err err => ret ((entries, Some err), true)
  | Ok EntryNil => ret ((entries, iErr), false)
  | Ok entry => ret ((entries ++ [entry])%list, iErr, false)
  end.

(** [f.List(ctx, dir)]: list the objects and directories in [dir]. *)
Definition Fs_List (fuel : nat) (f : Fs) (dir : string)
    : M State (result (list DirEntry)) :=
  match dirCache_FindDir f dir with
  | Err err => ret (Err err)
  | Ok directoryID =>
      let directoryID := ID.actualID directoryID in
      let* '((entries, iErr), (_, err)) :=
        Fs_list fuel f [directoryID] "" false false (TrashedOnly (opt f)) false
          (List_fn f dir) ([], None) in
      match err with
      | Some err => ret (Err err)
      | None =>
          match iErr with
          | Some iErr => ret (Err iErr)
          | None => ret (Ok entries)
          end
      end
  end.

(** What the resolver returns for an item, apart from the trace it
    leaves. *)
Definition resolved (f : Fs) (item : File) : result File :=
  if SkipShortcuts (opt f) || negb (String.eqb (MimeType item) shortcutMimeType)
  then Ok item
  else
    match ShortcutDetails item with
    | None => Ok item
    | Some details =>
        match svc_Files_Get f (TargetId details) with
        | Err err =>
            if is404 err then Ok (setMimeType shortcutMimeTypeDangling item)
            else Err (Wrapf "failed to resolve shortcut" err)
        | Ok newItem =>
            Ok (setId (ID.joinID (Id newItem) (Id item))
                  (setTrashed (Trashed item)
                     (setParents (Parents item)
                        (setName (Name item) newItem))))
        end
    end.

(** The item the function of a listing of everything gets for an item of a
    page: the item under its standard name, the target of a shortcut in its
    place, nothing for a shortcut that is skipped, or the error of the
    resolver. *)
Definition shown (f : Fs) (item : File) : result (option File) :=
  let item := setName (Enc_ToStandardName f (Name item)) item in
  if isShortcut item then
    if SkipShortcuts (opt f) then Ok None
    else
      match resolved f item with
      | Err err => Err (Wrapf "list" err)
      | Ok item' =>
          if SkipDanglingShortcuts (opt f) &&
             String.eqb (MimeType item') shortcutMimeTypeDangling
          then Ok None
          else Ok (Some item')
      end
  else Ok (Some item).

(** The entry [itemToDirEntry] makes of an item, apart from what it notes
    in the caches. *)
Definition entryOf (f : Fs) (remote : string) (item : File)
    : result DirEntry :=
  if String.eqb (MimeType item) driveFolderType then
    Ok (EntryDir remote (ModifiedTime item) (Id item)
          (match Parents item with p :: _ => p | [] => "" end))
  else
    match newObjectWithInfo f remote item with
    | Err e => if error_eqb e ErrorObjectNotFound then Ok EntryNil else Err e
    | Ok entry => Ok entry
    end.

(** The entries of the items of a directory, in their order, after
    [entries]: an item that is not shown, or that has no entry, is left out,
    and the first error ends the listing. *)
Fixpoint entriesOf (f : Fs) (dir : string) (items : list File)
    (entries : list DirEntry) : result (list DirEntry) :=
  match items with
  | [] => Ok entries
  | item :: rest =>
      match shown f item with
      | Err err => Err err
      | Ok None => entriesOf f dir rest entries
      | Ok (Some item') =>
          match entryOf f (path_Join f dir (Name item')) item' with
          | Err err => Err err
          | Ok EntryNil => entriesOf f dir rest entries
          | Ok entry => entriesOf f dir rest (entries ++ [entry])
          end
      end
  end.

(** The items of the pages of a listing, in their order. *)
Definition itemsOf (pages : list FileList) : list File :=
  pages ≫= Files.

(** The request [f.List] and [listRRunner] make for the directories
    [dirIDs]. *)
Definition listAll (f : Fs) (dirIDs : list string) : listRequest :=
  {| reqDirIDs := dirIDs; reqTitle := ""; reqDirectoriesOnly := false;
     reqFilesOnly := false; reqTrashedOnly := TrashedOnly (opt f);
     reqIncludeAll := false; reqPageToken := "" |}.

(** How a run of the loop over the items of a page stands to the entries of
    these items. *)
Definition ranItems (f : Fs) (dir : string) (items : list File)
    (entries : list DirEntry) (a : list DirEntry * option error)
    (flow : itemFlow) : Prop :=
  match flow with
  | FlowNext =>
      exists es, a = (es, None) /\
        forall rest, entriesOf f dir (items ++ rest) entries
                     = entriesOf f dir rest es
  | FlowBreakOuter =>
      exists es e, a = (es, Some e) /\
        forall rest, entriesOf f dir (items ++ rest) entries = Err e
  | FlowReturn e =>
      forall rest, entriesOf f dir (items ++ rest) entries = Err e
  end.

(** The result [f.List] makes of its variables and of the error of the
    lister. *)
Definition finished (a : list DirEntry * option error) (err : option error)
    : result (list DirEntry) :=
  match err with
  | Some err => Err err
  | None =>
      match a.2 with
      | Some iErr => Err iErr
      | None => Ok a.1
      end
  end.


(** The calls of the function of a listing end with the call that asked to
    stop, if there was one. *)
Definition stopsLast (found : bool) (calls : list (File * bool)) : Prop :=
  if found then
    exists init item,
      calls = (init ++ [(item, true)])%list /\
      Forall (fun c => c.2 = false) init
  else Forall (fun c => c.2 = false) calls.

(** The test of the function [FindLeaf] hands to the lister: the export
    name of the item is the leaf, or the item is no document and its name is
    the leaf; with [skip_gdocs] only the name counts. *)
Definition leafMatch (lib : GoStrings.Library) (x : Formats.Exports) (f : Fs)
    (leaf : string) (item : File) : bool :=
  if negb (SkipGdocs (opt f)) then
    let '(_, exportName, _, isDocument) :=
      Formats.findExportFormat lib x item in
    if String.eqb exportName leaf then true
    else if isDocument then false
    else String.eqb (Name item) leaf
  else String.eqb (Name item) leaf.

(** The function [FindLeaf] hands to the lister; its variable is
    [pathIDOut]. *)
Definition FindLeaf_fn (lib : GoStrings.Library) (x : Formats.Exports)
    (f : Fs) (leaf : string) (item : File) (pathIDOut : string)
    : M State (string * bool) :=
  if negb (SkipGdocs (opt f)) then
    let '(_, exportName, _, isDocument) :=
      Formats.findExportFormat lib x item in
    if String.eqb exportName leaf then ret (Id item, true)
    else if isDocument then ret (pathIDOut, false)
    else if String.eqb (Name item) leaf then ret (Id item, true)
    else ret (pathIDOut, false)
  else if String.eqb (Name item) leaf then ret (Id item, true)
  else ret (pathIDOut, false).

(** [f.FindLeaf(ctx, pathID, leaf)]: find a directory of name [leaf] in the
    folder with ID [pathID]; the result is [(pathIDOut, found, err)]. *)
Definition Fs_FindLeaf (fuel : nat) (lib : GoStrings.Library)
    (x : Formats.Exports) (f : Fs) (pathID leaf : string)
    : M State (string * bool * option error) :=
  let pathID := ID.actualID pathID in
  let* '(pathIDOut, (found, err)) :=
    Fs_list fuel f [pathID] leaf true false (TrashedOnly (opt f)) false
      (FindLeaf_fn lib x f leaf) "" in
  ret (pathIDOut, found, err).

(** A function of a listing that only computes: it returns [step item a]
    and leaves the state alone. *)
Definition pureFn {A : Type} (fn : File -> A -> M State (A * bool))
    (step : File -> A -> A * bool) : Prop :=
  forall item a s, fn item a s = Ret (step item a) s.

(** The calls of such a function lead its variables from [a] to [a']. *)
Fixpoint ranCalls {A : Type} (step : File -> A -> A * bool) (a : A)
    (calls : list (File * bool)) (a' : A) : Prop :=
  match calls with
  | [] => a' = a
  | c :: rest =>
      c.2 = (step c.1 a).2 /\ ranCalls step (step c.1 a).1 rest a'
  end.

(** What the function of [FindLeaf] computes. *)
Definition FindLeaf_step (lib : GoStrings.Library) (x : Formats.Exports)
    (f : Fs) (leaf : string) (item : File) (pathIDOut : string)
    : string * bool :=
  if leafMatch lib x f leaf item then (Id item, true) else (pathIDOut, false).

End Listing.

(** ** Reading an exported document *)

Module Download.

(** The error of a read of the underlying reader: [io.EOF], or another. *)
Inductive readError : Type :=
| EOF
| ReadFailed (msg : string).

(** [openDocumentFile], a [documentObject] open for reading, together with
    the size of the object it reads for ([file.o.bytes]). *)
Record openDocumentFile : Type := {
  size : Z;
  bytes : Z;
  eof : bool;
  errored : bool
}.

(** The value an [int64] takes for a sum that has left its range. *)
Definition wrap64 (z : Z) : Z := (z + 2 ^ 63) mod 2 ^ 64 - 2 ^ 63.

(** [&openDocumentFile{o: o, in: in}], as [documentObject.Open] makes it. *)
Definition opened (size : Z) : openDocumentFile :=
  {| size := size; bytes := 0; eof := false; errored := false |}.

(** [file.Read(p)], where the underlying reader answers [(n, err)]. *)
Definition Read (r : Z * option readError) (file : openDocumentFile)
    : openDocumentFile :=
  let '(n, err) := r in
  {| size := size file;
     bytes := wrap64 (bytes file + n);
     eof := match err with Some EOF => true | _ => eof file end;
     errored := match err with
                | Some (ReadFailed _) => true
                | _ => errored file
                end |}.

(** [file.Close()]: if end of file, update bytes read. *)
Definition Close (file : openDocumentFile) : openDocumentFile :=
  if eof file && negb (errored file) then
    {| size := bytes file; bytes := bytes file; eof := eof file;
       errored := errored file |}
  else file.

Definition isEOF (r : Z * option readError) : bool :=
  match r.2 with Some EOF => true | _ => false end.

Definition isFailed (r : Z * option readError) : bool :=
  match r.2 with Some (ReadFailed _) => true | _ => false end.

(** The number of bytes of a run of reads. *)
Definition total (reads : list (Z * option readError)) : Z :=
  foldr (fun r acc => r.1 + acc) 0 reads.

(** The file after a run of reads. *)
Definition readAll (reads : list (Z * option readError))
    (file : openDocumentFile) : openDocumentFile :=
  foldl (fun file r => Read r file) file reads.

End Download.

(** ** The invariants of ListR *)

Module Safety.
Import Go Drive Const Engine.

(** Run from a state that satisfies [P], the code [m] does not panic, and
    when it returns, its result and the state it leaves satisfy [Q]. *)
Definition hoare {A : Type} (P : State -> Prop) (m : M State A)
    (Q : A -> State -> Prop) : Prop :=
  forall s, P s ->
    match m s with
    | Ret a s' => Q a s'
    | Panic _ => False
    | Blocked => True
    | OutOfFuel => True
    end.

(** The code [m] does not panic and keeps [P]. *)
Definition keeps {A : Type} (P : State -> Prop) (m : M State A) : Prop :=
  hoare P m (fun _ => P).

(** The outstanding work that is not in the channel: the counter of the
    wait group less the number of jobs in [in]. *)
Definition pending (s : State) : Z := wg s - Z.of_nat (length (inBuf s)).

(** What holds of the state all through a round of a worker: [k] pieces of
    work are outstanding that are not in the channel, a channel that has
    been closed has been set to nil, the two mutexes are as the round found
    them, and the group size is one of those [G] allows. *)
Definition roundInv (G : Z -> Prop) (k : Z) (mb lb : bool) (s : State)
    : Prop :=
  pending s = k /\ 0 <= k /\
  (inNil s = false -> inClosed s = false) /\
  mu s = mb /\ listRmu s = lb /\ G (grouping s).

(** The directories a worker has taken from the channel and not yet
    reported done. *)
Definition inflight (w : workerPC) : Z :=
  match w with
  | WWait dirs _ _ _ => Z.of_nat (length dirs)
  | WBatch dirs _ _ => Z.of_nat (length dirs)
  | _ => 0
  end.

Definition inflightAll (ws : list workerPC) : Z :=
  foldr (fun w acc => inflight w + acc) 0 ws.

(** The jobs the feeding goroutine has counted and not yet sent. *)
Definition filling (pc : coordPC) : Z :=
  match pc with
  | CFill rest _ => Z.of_nat (length rest)
  | _ => 0
  end.

(** The feeding goroutine holds [mu] while it refills the channel. *)
Definition holdsMu (pc : coordPC) : bool :=
  match pc with
  | CFill _ _ => true
  | _ => false
  end.

(** The batch of a worker: as many paths as directories, at least one
    directory, and no more than the group size the worker read (and than the
    rounds of its wait loop so far). *)
Definition wellShaped (G : Z -> Prop) (w : workerPC) : Prop :=
  match w with
  | WWait dirs paths grouping i =>
      length dirs = length paths /\
      1 <= Z.of_nat (length dirs) <= i /\ i <= Z.max 1 grouping /\ G grouping
  | WBatch dirs paths grouping =>
      length dirs = length paths /\
      1 <= Z.of_nat (length dirs) <= Z.max 1 grouping /\ G grouping
  | _ => True
  end.

(** The invariant of the configurations of [ListR]. *)
Definition safeInv (G : Z -> Prop) (c : Config) : Prop :=
  crashed c = None /\
  (inNil (st c) = false -> inClosed (st c) = false) /\
  wg (st c)
  = Z.of_nat (length (inBuf (st c))) + inflightAll (workers c)
    + filling (coordpc c) /\
  mu (st c) = holdsMu (coordpc c) /\
  G (grouping (st c)) /\
  Forall (wellShaped G) (workers c).

(** The group sizes the backend uses. *)
Definition groupSize (g : Z) : Prop := g = 1 \/ g = listRGrouping.

End Safety.

(** ** More sample data *)

Module Cases.
Import Go Drive Const Engine Samples.

(** The white space of ASCII. *)
Definition isSpace (c : ascii) : bool :=
  let n := nat_of_ascii c in
  (n =? 32)%nat || ((9 <=? n)%nat && (n <=? 13)%nat).

Fixpoint trimLeft (s : string) : string :=
  match s with
  | String c s' => if isSpace c then trimLeft s' else s
  | EmptyString => EmptyString
  end.

Fixpoint trimRight (s : string) : string :=
  match s with
  | EmptyString => EmptyString
  | String c s' =>
      match trimRight s' with
      | EmptyString => if isSpace c then EmptyString else String c EmptyString
      | t => String c t
      end
  end.

Definition lowerByte (c : ascii) : ascii :=
  let n := nat_of_ascii c in
  if ((65 <=? n)%nat && (n <=? 90)%nat)%bool then ascii_of_nat (n + 32) else c.

Fixpoint mapBytes (g : ascii -> ascii) (s : string) : string :=
  match s with
  | EmptyString => EmptyString
  | String c s' => String (g c) (mapBytes g s')
  end.

(** A library that knows ASCII only, and a few extensions. *)
Definition asciiLibrary : GoStrings.Library :=
  {| GoStrings.TrimSpace := fun s => trimRight (trimLeft s);
     GoStrings.ToLower := mapBytes lowerByte;
     GoStrings.TypeByExtension := fun ext =>
       if String.eqb ext ".docx" then
         "application/vnd.openxmlformats-officedocument.wordprocessingml.document"
       else if String.eqb ext ".pdf" then "application/pdf"
       else if String.eqb ext ".svg" then "image/svg+xml"
       else if String.eqb ext ".url" then "application/x-link-url"
       else "";
     GoStrings.Quote := fun s =>
       String (ascii_of_nat 34) (s +:+ String (ascii_of_nat 34) EmptyString) |}.

(** A drive that exports its documents as PDF, and a user who would rather
    have a word processor file, and a link for everything else. *)
Definition pdfExports : Formats.Exports :=
  {| Formats.exportFormats :=
       {[ "application/vnd.google-apps.document" := ["application/pdf"] ]};
     Formats.exportExtensions := [".docx"; ".url"] |}.

(** A drawing without checksum. *)
Definition drawingFile : File :=
  {| Id := "g3"; Name := "sketch";
     MimeType := "application/vnd.google-apps.drawing";
     Parents := ["d1"]; Trashed := false; ShortcutDetails := None;
     Md5Checksum := ""; Size := 0;
     ModifiedTime := "2023-04-05T06:07:08Z"; ResourceKey := "" |}.

(** A live context, a library that leaves the decision to the backend, and
    both stop options set. *)
Definition stoppingPolicy : Retry.Policy :=
  {| Retry.StopOnUploadLimit := true;
     Retry.StopOnDownloadLimit := true;
     Retry.ContextError := fun e => (false, e);
     Retry.ShouldRetry := fun _ => false |}.

(** The error of a download quota that is used up. *)
Definition downloadQuotaError : Retry.err :=
  Retry.Googleapi 403
    [{| Retry.Reason := "downloadQuotaExceeded";
        Retry.Message := "The download quota for this file has been exceeded." |}].

Definition plainObjectOptions : Objects.ObjectOptions :=
  {| Objects.UseCreatedDate := false; Objects.UseSharedDate := false;
     Objects.SizeAsQuota := false |}.

Definition noFileInfo : Objects.FileInfo :=
  {| Objects.CreatedTime := ""; Objects.SharedWithMeTime := "";
     Objects.QuotaBytesUsed := 0 |}.

(** A remote side that deletes what it is asked to. *)
Definition deleteAll : string -> option error := fun _ => None.

(** A backend whose directory cache knows every directory as the folder
    [d1] reached through the shortcut [sc1]. *)
Definition shortcutDirFs : Fs :=
  {| opt := plainOptions;
     ci_Checkers := 1%nat;
     svc_Files_Get := svc_Files_Get (sampleFs plainOptions 1%nat noPages);
     svc_Files_List := noPages;
     Enc_ToStandardName := fun n => n;
     exportStems := fun _ _ => [];
     findExportName := fun _ => "";
     newObjectWithInfo := fun remote item => Ok (EntryObject remote (Id item));
     dirCache_FindDir := fun _ => Ok (ID.joinID "d1" "sc1");
     path_Join := path_Join (sampleFs plainOptions 1%nat noPages) |}.

(** The worker takes the root job and polls the channel to the end of its
    wait loop: it holds the batch of the root directory. *)
(** A folder [photos] with ID [d2] kept in the folder [d1]. *)
Definition photosFolder : File :=
  {| Id := "d2"; Name := "photos"; MimeType := driveFolderType;
     Parents := ["d1"]; Trashed := false; ShortcutDetails := None;
     Md5Checksum := ""; Size := 0;
     ModifiedTime := "2023-03-04T05:06:07Z"; ResourceKey := "" |}.

(** A second folder of that name, with ID [d3], and the page that holds
    both. *)
Definition photosCopy : File :=
  {| Id := "d3"; Name := "photos"; MimeType := driveFolderType;
     Parents := ["d1"]; Trashed := false; ShortcutDetails := None;
     Md5Checksum := ""; Size := 0;
     ModifiedTime := "2023-04-05T06:07:08Z"; ResourceKey := "" |}.

Definition photosPage : listRequest -> result FileList :=
  fun _ => Ok {| Files := [photosFolder; photosCopy]; NextPageToken := "";
                 IncompleteSearch := false |}.

Definition workerHoldsRoot : list tid := repeat (TWorker 0) 51.

End Cases.
(** * Properties *)

Import Go Drive Const Engine.
Local Open Scope list_scope.

(** ** The composite-ID codec *)

Section Codec.
Import ID.

Lemma append_cons (x : ascii) (a b : string) :
  String x a +:+ b = String x (a +:+ b).
Proof. reflexivity. Qed.

Lemma append_nil (b : string) : "" +:+ b = b.
Proof. reflexivity. Qed.

Lemma IndexByte_lower (s : string) (c : ascii) : -1 <= IndexByte s c.
Proof.
  induction s as [|x s IH]; simpl; [lia|].
  destruct (Ascii.eqb x c); [lia|].
  destruct (IndexByte s c <? 0) eqn:E; [lia|].
  apply Z.ltb_ge in E. lia.
Qed.

Lemma IndexByte_absent (s : string) (c : ascii) :
  ~ occurs c s -> IndexByte s c = -1.
Proof.
  induction s as [|x s IH]; simpl; intros H; [reflexivity|].
  destruct (Ascii.eqb_spec x c) as [->|Hne]; [tauto|].
  rewrite IH by tauto. reflexivity.
Qed.

Lemma IndexByte_present (s : string) (c : ascii) :
  occurs c s -> 0 <= IndexByte s c.
Proof.
  induction s as [|x s IH]; simpl; intros H; [tauto|].
  destruct (Ascii.eqb_spec x c) as [->|Hne]; [lia|].
  destruct H as [H|H]; [congruence|].
  specialize (IH H).
  destruct (IndexByte s c <? 0) eqn:E; [apply Z.ltb_lt in E; lia | lia].
Qed.

Lemma IndexByte_occurs (s : string) (c : ascii) :
  0 <= IndexByte s c -> occurs c s.
Proof.
  induction s as [|x s IH]; simpl; [lia|].
  destruct (Ascii.eqb_spec x c) as [->|Hne]; [tauto|].
  destruct (IndexByte s c <? 0) eqn:E; [lia|].
  apply Z.ltb_ge in E. intros _. right. apply IH, E.
Qed.

Lemma IndexByte_append (a s : string) (c : ascii) :
  ~ occurs c a ->
  IndexByte (a +:+ String c s) c = Z.of_nat (String.length a).
Proof.
  induction a as [|x a IH]; rewrite ?append_cons, ?append_nil; simpl; intros H.
  - rewrite Ascii.eqb_refl. reflexivity.
  - destruct (Ascii.eqb_spec x c) as [->|Hne]; [tauto|].
    rewrite IH by tauto.
    destruct (Z.of_nat (String.length a) <? 0) eqn:E;
      [apply Z.ltb_lt in E; lia | lia].
Qed.

Lemma sliceTo_append (a b : string) : sliceTo (a +:+ b) (String.length a) = a.
Proof.
  induction a as [|x a IH]; rewrite ?append_cons, ?append_nil; simpl;
    [reflexivity | by rewrite IH].
Qed.

Lemma sliceFrom_append (a b : string) :
  sliceFrom (a +:+ b) (String.length a) = b.
Proof.
  induction a as [|x a IH]; rewrite ?append_cons, ?append_nil; simpl;
    [reflexivity | exact IH].
Qed.

(** A string falls apart at the first occurrence of a byte. *)
Lemma IndexByte_split (s : string) (c : ascii) :
  0 <= IndexByte s c ->
  s = sliceTo s (Z.to_nat (IndexByte s c)) +:+
      String c (sliceFrom s (Z.to_nat (IndexByte s c + 1))).
Proof.
  induction s as [|x s IH]; simpl; [lia|].
  destruct (Ascii.eqb_spec x c) as [->|Hne]; [reflexivity|].
  destruct (IndexByte s c <? 0) eqn:E; [lia|].
  apply Z.ltb_ge in E. intros _.
  replace (Z.to_nat (IndexByte s c + 1)) with (S (Z.to_nat (IndexByte s c)))
    by lia.
  replace (Z.to_nat (IndexByte s c + 1 + 1))
    with (S (Z.to_nat (IndexByte s c + 1))) by lia.
  simpl. exact (f_equal (String x) (IH E)).
Qed.

Lemma splitID_plain (i : string) : sepFree i -> splitID i = (i, "").
Proof.
  intros H. unfold splitID, IndexRune.
  rewrite (IndexByte_absent _ _ H). reflexivity.
Qed.

Lemma joinID_unfold (a s : string) :
  joinID a s = a +:+ String shortcutSeparator s.
Proof. reflexivity. Qed.

Lemma length_append_one (a : string) (c : ascii) :
  String.length (a +:+ String c "") = S (String.length a).
Proof.
  induction a as [|x a IH]; rewrite ?append_cons, ?append_nil; simpl;
    [reflexivity | by rewrite IH].
Qed.

Lemma append_one_assoc (a s : string) (c : ascii) :
  a +:+ String c s = (a +:+ String c "") +:+ s.
Proof.
  induction a as [|x a IH]; rewrite ?append_cons, ?append_nil;
    [reflexivity | by rewrite IH].
Qed.

Lemma splitID_joinID_actual (a s : string) :
  sepFree a -> splitID (joinID a s) = (a, s).
Proof.
  intros Ha. unfold splitID, IndexRune. rewrite joinID_unfold.
  rewrite (IndexByte_append a s _ Ha).
  destruct (Z.of_nat (String.length a) <? 0) eqn:E;
    [apply Z.ltb_lt in E; lia|].
  f_equal.
  - rewrite Nat2Z.id. apply sliceTo_append.
  - replace (Z.to_nat (Z.of_nat (String.length a) + 1))
      with (String.length (a +:+ String shortcutSeparator ""))
      by (rewrite length_append_one; lia).
    rewrite append_one_assoc. apply sliceFrom_append.
Qed.

Lemma isShortcutID_occurs (i : string) :
  isShortcutID i = true <-> occurs shortcutSeparator i.
Proof.
  unfold isShortcutID, ContainsRune, IndexRune. rewrite Z.leb_le. split.
  - apply IndexByte_occurs.
  - apply IndexByte_present.
Qed.

Lemma occurs_append (c : ascii) (a b : string) :
  occurs c (a +:+ b) <-> occurs c a \/ occurs c b.
Proof.
  induction a as [|x a IH]; rewrite ?append_cons, ?append_nil; simpl;
    [tauto | rewrite IH; tauto].
Qed.

Lemma isShortcutID_joinID (a s : string) : isShortcutID (joinID a s) = true.
Proof.
  apply isShortcutID_occurs. rewrite joinID_unfold.
  apply occurs_append. right. simpl. by left.
Qed.

Lemma isShortcutID_plain (i : string) : sepFree i -> isShortcutID i = false.
Proof.
  intros H. destruct (isShortcutID i) eqn:E; [|reflexivity].
  apply isShortcutID_occurs in E. contradiction.
Qed.

(** Decoding gives back the parts an ID was made of, whatever the ID. *)
Lemma splitID_rebuild (i : string) :
  i = if isShortcutID i then joinID (splitID i).1 (splitID i).2
      else (splitID i).1.
Proof.
  unfold isShortcutID, ContainsRune, splitID, IndexRune, joinID.
  destruct (0 <=? IndexByte i shortcutSeparator) eqn:E.
  - apply Z.leb_le in E.
    destruct (IndexByte i shortcutSeparator <? 0) eqn:E';
      [apply Z.ltb_lt in E'; lia|].
    simpl. apply IndexByte_split, E.
  - apply Z.leb_gt in E.
    destruct (IndexByte i shortcutSeparator <? 0) eqn:E';
      [reflexivity | apply Z.ltb_ge in E'; lia].
Qed.

(** C5: for strings [a] and [s] without the separator, splitting their join
    gives back [(a, s)]; splitting is defined on every ID and loses nothing
    (the ID is rebuilt from the two parts and the presence of the separator);
    and an ID without separator splits into itself and an empty shortcut ID. *)
Theorem splitID_joinID_roundtrip (a s : string) :
  ID.sepFree a -> ID.sepFree s ->
  ID.splitID (ID.joinID a s) = (a, s) /\
  ID.splitID a = (a, "") /\
  (forall i : string,
     exists x y, ID.splitID i = (x, y) /\
       i = if ID.isShortcutID i then ID.joinID x y else x).
Proof.
  intros Ha Hs. split; [|split].
  - by apply splitID_joinID_actual.
  - by apply splitID_plain.
  - intros i. exists (splitID i).1, (splitID i).2. split.
    + by destruct (splitID i).
    + apply splitID_rebuild.
Qed.

Lemma splitID_joinID_roundtrip_witness :
  ID.sepFree "1AbC" /\ ID.sepFree "sc9" /\
  ID.splitID (ID.joinID "1AbC" "sc9") = ("1AbC", "sc9").
Proof.
  assert (H1 : ID.sepFree "1AbC") by (vm_compute; intuition discriminate).
  assert (H2 : ID.sepFree "sc9") by (vm_compute; intuition discriminate).
  split; [exact H1 | split; [exact H2 |]].
  exact (proj1 (splitID_joinID_roundtrip "1AbC" "sc9" H1 H2)).
Defined.

(** C6, as the specification states it, fails: [joinID] always inserts the separator,
    so the join of an ID with the empty shortcut ID counts as a shortcut ID. *)
Lemma joinID_empty_isShortcutID_counterexample :
  ID.sepFree "a" /\ ID.isShortcutID "a" = false /\
  ID.isShortcutID (ID.joinID "a" "") = true.
Proof.
  split; [vm_compute; intuition discriminate | split; reflexivity].
Qed.

(** C6, amended: for an ID [a] without the separator, [joinID a ""] decodes
    like the plain ID [a] ([splitID], [actualID] and [shortcutID] agree on
    the two), but [isShortcutID] tells them apart: it is true of every join
    and false of [a]. *)
Theorem joinID_empty_behaviour (a : string) :
  ID.sepFree a ->
  ID.splitID (ID.joinID a "") = ID.splitID a /\
  ID.actualID (ID.joinID a "") = ID.actualID a /\
  ID.shortcutID (ID.joinID a "") = ID.shortcutID a /\
  ID.isShortcutID a = false /\
  (forall s : string, ID.isShortcutID (ID.joinID a s) = true).
Proof.
  intros Ha.
  assert (E : splitID (joinID a "") = splitID a)
    by (rewrite splitID_joinID_actual, splitID_plain; done).
  split; [exact E|]. unfold actualID, shortcutID. rewrite E.
  repeat split.
  - by apply isShortcutID_plain.
  - intros s. apply isShortcutID_joinID.
Qed.

Lemma joinID_empty_behaviour_witness :
  ID.sepFree "a" /\ ID.isShortcutID (ID.joinID "a" "") = true.
Proof.
  assert (H : ID.sepFree "a") by (vm_compute; intuition discriminate).
  split; [exact H|].
  exact (proj2 (proj2 (proj2 (proj2 (joinID_empty_behaviour "a" H)))) "").
Defined.

End Codec.

(** ** The shortcut resolver *)

Section Resolver.
Import ID Samples.

Lemma fetches_app (t1 t2 : list event) :
  fetches (t1 ++ t2) = (fetches t1 ++ fetches t2)%list.
Proof. unfold fetches. apply omap_app. Qed.

(** C7, as the specification states it, fails: with [skip_shortcuts] set the resolver
    hands an alias back as it is and fetches nothing. *)
Lemma resolveShortcut_skip_counterexample :
  isShortcut aliasFile = true /\
  Fs_resolveShortcut (sampleFs skipShortcutsOptions 1%nat noPages) aliasFile
    newFsState = Ret (Ok aliasFile) newFsState /\
  fetches (trace newFsState) = [].
Proof. repeat split. Qed.

(** C7, amended: for an alias item (shortcut MIME type, shortcut details
    present) and with [skip_shortcuts] off, the resolver fetches the target
    once and only once; on success it returns the target with the alias's
    name, parents and trashed flag and the ID [joinID target.Id alias.Id]; on
    a 404 it returns the alias itself with the dangling MIME type, its ID
    kept, and no error; any other error is returned wrapped.  With
    [skip_shortcuts] on it returns the item as it is and fetches nothing. *)
Theorem resolveShortcut_alias (f : Fs) (item : File)
    (d : FileShortcutDetails) (s : State) :
  MimeType item = shortcutMimeType ->
  ShortcutDetails item = Some d ->
  exists r s',
    Fs_resolveShortcut f item s = Ret r s' /\
    s' = set_trace (trace s') s /\
    if SkipShortcuts (opt f) then r = Ok item /\ s' = s
    else
      fetches (trace s') = (fetches (trace s) ++ [TargetId d])%list /\
      match svc_Files_Get f (TargetId d) with
      | Ok target =>
          r = Ok {| Id := joinID (Id target) (Id item);
                    Name := Name item;
                    MimeType := MimeType target;
                    Parents := Parents item;
                    Trashed := Trashed item;
                    ShortcutDetails := ShortcutDetails target;
                    Md5Checksum := Md5Checksum target;
                    Size := Size target;
                    ModifiedTime := ModifiedTime target;
                    ResourceKey := ResourceKey target |}
      | Err e =>
          if is404 e then
            r = Ok (setMimeType shortcutMimeTypeDangling item) /\
            Id (setMimeType shortcutMimeTypeDangling item) = Id item
          else r = Err (Wrapf "failed to resolve shortcut" e)
      end.
Proof.
  intros Hmime Hdet. unfold Fs_resolveShortcut.
  rewrite Hmime, String.eqb_refl, Hdet.
  destruct (SkipShortcuts (opt f)); simpl.
  - exists (Ok item), s. repeat split. by destruct s.
  - unfold Fs_getFile, bind, emit, modify, ret. simpl.
    destruct (svc_Files_Get f (TargetId d)) as [target|e]; simpl.
    + eexists _, _. split; [reflexivity|]. simpl.
      rewrite fetches_app. repeat split.
    + destruct (is404 e); simpl.
      * eexists _, _. split; [reflexivity|]. simpl.
        rewrite !fetches_app, app_nil_r. repeat split.
      * eexists _, _. split; [reflexivity|]. simpl.
        rewrite fetches_app. repeat split.
Qed.

Lemma resolveShortcut_alias_witness :
  exists r s',
    Fs_resolveShortcut (sampleFs plainOptions 1%nat noPages) aliasFile newFsState
      = Ret r s' /\
    fetches (trace s') = ["t1"] /\
    r = Ok {| Id := joinID "t1" "sc1"; Name := "link";
              MimeType := "text/plain"; Parents := ["d1"]; Trashed := false;
              ShortcutDetails := None;
              Md5Checksum := "9e107d9d372bb6826bd81d3542a419d6"; Size := 43;
              ModifiedTime := "2023-01-02T03:04:05Z"; ResourceKey := "" |}.
Proof.
  destruct (resolveShortcut_alias (sampleFs plainOptions 1%nat noPages) aliasFile
              {| TargetId := "t1"; TargetMimeType := "text/plain" |}
              newFsState eq_refl eq_refl)
    as (r & s' & Hrun & _ & Hfetch & Hres).
  exists r, s'. split; [exact Hrun | split; [exact Hfetch | exact Hres]].
Defined.

End Resolver.

(** ** The paged lister *)

Section Lister.
Import Samples.

Lemma pageRequests_app (t1 t2 : list event) :
  pageRequests (t1 ++ t2) = (pageRequests t1 ++ pageRequests t2)%list.
Proof. unfold pageRequests. apply omap_app. Qed.

Lemma errorLines_app (t1 t2 : list event) :
  errorLines (t1 ++ t2) = (errorLines t1 ++ errorLines t2)%list.
Proof. unfold errorLines. apply omap_app. Qed.

Lemma fnCalls_app (t1 t2 : list event) :
  fnCalls (t1 ++ t2) = (fnCalls t1 ++ fnCalls t2)%list.
Proof. unfold fnCalls. apply omap_app. Qed.

Lemma silent_nil : silent [].
Proof. by repeat split. Qed.

Lemma silent_app (t1 t2 : list event) :
  silent t1 -> silent t2 -> silent (t1 ++ t2).
Proof.
  intros (H1 & H2 & H3) (H4 & H5 & H6). unfold silent.
  rewrite pageRequests_app, errorLines_app, fnCalls_app, H1, H2, H3, H4, H5, H6.
  by repeat split.
Qed.

(** The resolver always returns, and writes no error line for an item that
    carries shortcut details. *)
Lemma resolveShortcut_silent (f : Fs) (item : File) (s : State) :
  isShortcut item = true ->
  exists r new s',
    Fs_resolveShortcut f item s = Ret r s' /\
    trace s' = (trace s ++ new)%list /\ silent new.
Proof.
  unfold isShortcut. intros H. apply andb_true_iff in H as [Hm Hd].
  unfold Fs_resolveShortcut. rewrite Hm. simpl.
  destruct (SkipShortcuts (opt f)); simpl.
  { exists (Ok item), [], s. rewrite app_nil_r. auto using silent_nil. }
  destruct (ShortcutDetails item) as [d|]; [|discriminate].
  unfold Fs_getFile, bind, emit, modify, ret. simpl.
  destruct (svc_Files_Get f (TargetId d)) as [target|e]; simpl.
  - eexists _, [EvGetFile (TargetId d)], _. by repeat split.
  - destruct (is404 e); simpl.
    + eexists _, [EvGetFile (TargetId d);
                  EvLogf "Dangling shortcut %q detected"], _.
      rewrite <- app_assoc. by repeat split.
    + eexists _, [EvGetFile (TargetId d)], _. by repeat split.
Qed.

Lemma listShortcut_silent (f : Fs) (directoriesOnly filesOnly : bool)
    (item : File) (s : State) :
  exists r new s',
    listShortcut f directoriesOnly filesOnly item s = Ret r s' /\
    trace s' = (trace s ++ new)%list /\ silent new.
Proof.
  unfold listShortcut.
  destruct (isShortcut item) eqn:Hsc;
    [|exists (Ok (Some item)), [], s; rewrite app_nil_r;
      auto using silent_nil].
  repeat match goal with
         | |- context [if ?b then ret (Ok None) else _] =>
             destruct b;
             [exists (Ok None), [], s; rewrite app_nil_r;
              by auto using silent_nil|]
         end.
  destruct (resolveShortcut_silent f item s Hsc) as (r & new & s' & Hr & Ht & Hs).
  unfold bind. rewrite Hr.
  destruct r as [item'|e]; simpl.
  - destruct (SkipDanglingShortcuts (opt f) &&
              String.eqb (MimeType item') shortcutMimeTypeDangling);
      eexists _, new, s'; (split; [reflexivity | split; assumption]).
  - eexists _, new, s'. split; [reflexivity | split; assumption].
Qed.

Lemma bind_Ret {St A B : Type} (m : M St A) (k : A -> M St B) (s s' : St)
    (a : A) :
  m s = Ret a s' -> bind m k s = k a s'.
Proof. intros H. unfold bind. by rewrite H. Qed.

Lemma stopped_app (c1 c2 : list (File * bool)) :
  stopped (c1 ++ c2) <-> stopped c1 \/ stopped c2.
Proof. apply Exists_app. Qed.

Lemma stopped_nil : ~ stopped [].
Proof. intros H. inversion H. Qed.

Lemma listItem_spec {A : Type} (f : Fs) (title : string)
    (directoriesOnly filesOnly : bool) (stems : list string)
    (fn : File -> A -> M State (A * bool)) (item : File) (a : A) (s : State) :
  quiet fn ->
  exists a' flow new s',
    listItem f title directoriesOnly filesOnly stems fn item a s
      = Ret (a', flow) s' /\
    trace s' = (trace s ++ new)%list /\
    pageRequests new = [] /\ errorLines new = [] /\
    (flow = FlowBreakOuter <-> stopped (fnCalls new)).
Proof.
  intros Hq. unfold listItem.
  set (item1 := setName (Enc_ToStandardName f (Name item)) item).
  destruct (listShortcut_silent f directoriesOnly filesOnly item1 s)
    as (r & new & s1 & Hr & Ht & Hp & He & Hc).
  rewrite (bind_Ret _ _ _ _ _ Hr).
  destruct r as [[item2|]|e].
  - destruct (listTitleOK f title stems item2).
    + destruct (Hq item2 a s1) as (a' & stop & new2 & s2 & Hfn & Ht2 & Hp2 & He2 & Hc2).
      rewrite (bind_Ret _ _ _ _ _ Hfn). simpl.
      unfold bind, emit, modify. simpl.
      exists a', (if stop then FlowBreakOuter else FlowNext),
        (new ++ new2 ++ [EvFn item2 stop])%list.
      eexists. split; [by destruct stop|]. simpl.
      rewrite Ht2, Ht, !pageRequests_app, !errorLines_app, !fnCalls_app,
        Hp, He, Hc, Hp2, He2, Hc2, <- !app_assoc. simpl.
      repeat split; try done.
      * intros Hb. constructor. simpl. by destruct stop.
      * intros Hs. apply Exists_cons in Hs as [Hs|Hs]; simpl in Hs;
          [by subst | by apply stopped_nil in Hs].
    + exists a, FlowNext, new, s1. rewrite Hc. repeat split; try done.
      intros Hs. by apply stopped_nil in Hs.
  - exists a, FlowNext, new, s1. rewrite Hc. repeat split; try done.
    intros Hs. by apply stopped_nil in Hs.
  - exists a, (FlowReturn e), new, s1. rewrite Hc. repeat split; try done.
    intros Hs. by apply stopped_nil in Hs.
Qed.

Lemma listItems_spec {A : Type} (f : Fs) (title : string)
    (directoriesOnly filesOnly : bool) (stems : list string)
    (fn : File -> A -> M State (A * bool)) (items : list File) (a : A)
    (s : State) :
  quiet fn ->
  exists a' flow new s',
    listItems f title directoriesOnly filesOnly stems fn items a s
      = Ret (a', flow) s' /\
    trace s' = (trace s ++ new)%list /\
    pageRequests new = [] /\ errorLines new = [] /\
    (flow = FlowBreakOuter <-> stopped (fnCalls new)).
Proof.
  intros Hq. revert a s.
  induction items as [|item rest IH]; intros a s; simpl.
  - exists a, FlowNext, [], s. rewrite app_nil_r. repeat split; try done.
    intros Hs. by apply stopped_nil in Hs.
  - destruct (listItem_spec f title directoriesOnly filesOnly stems fn
                item a s Hq)
      as (a1 & flow & new1 & s1 & Hrun & Ht & Hp & He & Hflow).
    rewrite (bind_Ret _ _ _ _ _ Hrun).
    destruct flow.
    + destruct (IH a1 s1) as (a2 & flow2 & new2 & s2 & Hrun2 & Ht2 & Hp2 & He2 & Hflow2).
      exists a2, flow2, (new1 ++ new2)%list, s2.
      rewrite Hrun2, Ht2, Ht, pageRequests_app, errorLines_app, fnCalls_app,
        Hp, He, Hp2, He2, app_assoc, stopped_app.
      repeat split; try done.
      * intros H. right. by apply Hflow2.
      * intros [H|H]; [|by apply Hflow2].
        destruct Hflow as [_ Hf]. specialize (Hf H). discriminate.
    + exists a1, FlowBreakOuter, new1, s1. repeat split; try done; tauto.
    + exists a1, (FlowReturn e), new1, s1. repeat split; try done; tauto.
Qed.

Lemma incompleteCount_cons (p : FileList) (rest : list FileList) :
  incompleteCount (p :: rest)
  = ((if IncompleteSearch p then 1 else 0) + incompleteCount rest)%nat.
Proof.
  unfold incompleteCount. rewrite filter_cons.
  destruct (IncompleteSearch p); case_decide; simpl; congruence.
Qed.

(** One round of the loop over the pages: the request, the line in the log,
    then the items of the page. *)
Lemma listPages_page {A : Type} (f : Fs) (stems : list string)
    (fn : File -> A -> M State (A * bool)) (fuel : nat) (req : listRequest)
    (a : A) (s : State) :
  match svc_Files_List f req with
  | Err e =>
      listPages (S fuel) f req stems fn a s
      = Ret (a, (false, Some (Wrapf "couldn't list directory" e)))
          (set_trace (trace s ++ [EvFilesList (reqDirIDs req)
                                    (reqPageToken req)]) s)
  | Ok p =>
      exists s2,
        trace s2 = (trace s ++ pageEvents req p)%list /\
        listPages (S fuel) f req stems fn a s
        = (let* '(a', flow) :=
             listItems f (reqTitle req) (reqDirectoriesOnly req)
               (reqFilesOnly req) stems fn (Files p) a in
           match flow with
           | FlowReturn e => ret (a', (false, Some e))
           | FlowBreakOuter => ret (a', (true, None))
           | FlowNext =>
               if String.eqb (NextPageToken p) ""
               then ret (a', (false, None))
               else listPages fuel f (withPageToken (NextPageToken p) req)
                      stems fn a'
           end) s2
  end.
Proof.
  simpl. unfold listDo. unfold bind at 1. unfold bind at 1.
  unfold emit, modify, ret.
  destruct (svc_Files_List f req) as [p|e]; [|reflexivity].
  set (s1 := set_trace (trace s ++ [EvFilesList (reqDirIDs req)
                                      (reqPageToken req)]) s).
  set (log := if IncompleteSearch p
              then [EvErrorf "search result INCOMPLETE"] else []).
  set (s2 := set_trace (trace s1 ++ log) s1).
  assert (Hlog : (if IncompleteSearch p
                  then emit (EvErrorf "search result INCOMPLETE")
                  else Go.ret tt) s1 = Ret tt s2).
  { subst s2 log. destruct (IncompleteSearch p); [reflexivity|].
    unfold Go.ret. f_equal. rewrite app_nil_r. by destruct s1. }
  rewrite (bind_Ret _ _ _ _ _ Hlog). exists s2. split; [|reflexivity].
  subst s2 s1. unfold pageEvents. fold log. simpl.
  by rewrite <- app_assoc.
Qed.

Lemma pageEvents_readings (req : listRequest) (p : FileList) :
  pageRequests (pageEvents req p) = [reqPageToken req] /\
  errorLines (pageEvents req p)
  = replicate (if IncompleteSearch p then 1 else 0)%nat
      "search result INCOMPLETE" /\
  fnCalls (pageEvents req p) = [].
Proof. unfold pageEvents. by destruct (IncompleteSearch p). Qed.

Lemma length_tokensTo (tok : string) (pages : list FileList)
    (failure : option error) :
  length (tokensTo tok pages failure)
  = (length pages + match failure with Some _ => 1 | None => 0 end)%nat.
Proof.
  revert tok. induction pages as [|p rest IH]; intros tok; simpl.
  - by destruct failure.
  - by rewrite IH.
Qed.

Lemma servedFrom_next (f : Fs) (req : listRequest) (p : FileList)
    (rest : list FileList) (failure : option error) :
  servedFrom f req (p :: rest) failure ->
  svc_Files_List f req = Ok p /\
  (NextPageToken p = "" -> rest = [] /\ failure = None) /\
  (NextPageToken p <> "" ->
   servedFrom f (withPageToken (NextPageToken p) req) rest failure).
Proof.
  intros [Hdo Hrest]. split; [exact Hdo|].
  destruct rest as [|p' rest'], failure as [e|]; simpl in *; tauto.
Qed.

(** The lister on a remote side that comes to an end. *)
Lemma listPages_spec {A : Type} (f : Fs) (stems : list string)
    (fn : File -> A -> M State (A * bool)) :
  quiet fn ->
  forall (pages : list FileList) (failure : option error) (fuel : nat)
         (req : listRequest) (a : A) (s : State),
    servedFrom f req pages failure ->
    (length (tokensTo (reqPageToken req) pages failure) <= fuel)%nat ->
    exists a' found err new s',
      listPages fuel f req stems fn a s = Ret (a', (found, err)) s' /\
      trace s' = (trace s ++ new)%list /\
      (found = true <-> stopped (fnCalls new)) /\
      (found = true -> err = None) /\
      exists k : nat,
        (0 < k <= length (tokensTo (reqPageToken req) pages failure))%nat /\
        pageRequests new
        = take k (tokensTo (reqPageToken req) pages failure) /\
        errorLines new
        = replicate (incompleteCount (take k pages)) "search result INCOMPLETE" /\
        (found = false -> err = None ->
         failure = None /\ k = length pages) /\
        (forall e, failure = Some e -> k = S (length pages) ->
           found = false /\
           err = Some (Wrapf "couldn't list directory" e)).
Proof.
  intros Hq pages failure.
  induction pages as [|p rest IH]; intros fuel req a s Hserved Hfuel.
  - destruct failure as [e|]; [|done]. simpl in Hserved, Hfuel.
    destruct fuel as [|fuel]; [lia|].
    pose proof (listPages_page f stems fn fuel req a s) as Hrun.
    rewrite Hserved in Hrun.
    eexists a, false, (Some _), [_], _. split; [exact Hrun|].
    split; [reflexivity|].
    split; [split; [done | intros H; by apply stopped_nil in H]|].
    split; [done|]. exists 1%nat. simpl.
    repeat split; try lia; try done. congruence.
  - apply servedFrom_next in Hserved as (Hdo & Hend & Hnext).
    simpl in Hfuel. destruct fuel as [|fuel]; [lia|].
    pose proof (listPages_page f stems fn fuel req a s) as Hrun.
    rewrite Hdo in Hrun. destruct Hrun as (s2 & Ht2 & Hrun). rewrite Hrun.
    destruct (pageEvents_readings req p) as (HpreP & HpreE & HpreC).
    destruct (listItems_spec f (reqTitle req) (reqDirectoriesOnly req)
                (reqFilesOnly req) stems fn (Files p) a s2 Hq)
      as (a1 & flow & new1 & s3 & Hitems & Ht & Hp & He & Hflow).
    rewrite (bind_Ret _ _ _ _ _ Hitems).
    assert (Hpre : trace s3 = (trace s ++ (pageEvents req p ++ new1))%list)
      by (by rewrite Ht, Ht2, <- app_assoc).
    assert (Hone : incompleteCount (take 1 (p :: rest))
                   = (if IncompleteSearch p then 1 else 0)%nat).
    { simpl. rewrite incompleteCount_cons. unfold incompleteCount.
      simpl. lia. }
    assert (Hfirst : forall found err,
      (found = true <-> flow = FlowBreakOuter) ->
      (found = true -> err = None) ->
      (found = false -> err = None -> rest = [] /\ failure = None) ->
      (found = true <-> stopped (fnCalls (pageEvents req p ++ new1))) /\
      (found = true -> err = None) /\
      exists k : nat,
        (0 < k <= length (tokensTo (reqPageToken req) (p :: rest)
                            failure))%nat /\
        pageRequests (pageEvents req p ++ new1)
        = take k (tokensTo (reqPageToken req) (p :: rest) failure) /\
        errorLines (pageEvents req p ++ new1)
        = replicate (incompleteCount (take k (p :: rest)))
            "search result INCOMPLETE" /\
        (found = false -> err = None ->
         failure = None /\ k = length (p :: rest)) /\
        (forall e, failure = Some e -> k = S (length (p :: rest)) ->
           found = false /\
           err = Some (Wrapf "couldn't list directory" e))).
    { intros found err Hfound Herr Hlast.
      rewrite fnCalls_app, pageRequests_app, errorLines_app, HpreC, HpreP,
        HpreE, Hp, He, !app_nil_r. simpl app.
      split; [rewrite Hfound; exact Hflow|]. split; [exact Herr|].
      exists 1%nat. rewrite Hone. simpl.
      split; [lia|]. split; [done|]. split; [done|].
      split; [|intros e _ Hk; lia].
      intros H1 H2. destruct (Hlast H1 H2) as [-> ->]. by split. }
    destruct flow as [| |e].
    + destruct (String.eqb_spec (NextPageToken p) "") as [Htok|Htok].
      * eexists a1, false, None, _, s3.
        split; [reflexivity|]. split; [exact Hpre|].
        apply Hfirst; [done | done | intros _ _; by apply Hend].
      * specialize (Hnext Htok).
        destruct (IH fuel (withPageToken (NextPageToken p) req) a1 s3 Hnext
                    ltac:(simpl in *; lia))
          as (a2 & found & err & new2 & s4 & Hrun2 & Ht3 & Hfound & Herr
              & k & Hk & Hp2 & He2 & Hall & Hfail).
        simpl in Hk, Hp2.
        eexists a2, found, err, _, s4.
        split; [exact Hrun2|].
        split; [rewrite Ht3, Hpre, <- app_assoc; reflexivity|].
        rewrite !fnCalls_app, HpreC, !stopped_app.
        split; [split; [tauto|];
                intros [[H|H]|H];
                [by apply stopped_nil in H | apply Hflow in H; done | tauto]|].
        split; [done|]. exists (S k).
        rewrite !pageRequests_app, !errorLines_app, HpreP, HpreE, Hp, He,
          Hp2, He2, !app_nil_r.
        split; [simpl; lia|].
        split; [reflexivity|].
        split.
        { change (take (S k) (p :: rest)) with (p :: take k rest).
          rewrite incompleteCount_cons, replicate_add. reflexivity. }
        split.
        { intros H1 H2. destruct (Hall H1 H2) as [-> ->]. by split. }
        intros e Hf Hlen. apply (Hfail e Hf). simpl in Hlen. lia.
    + eexists a1, true, None, _, s3.
      split; [reflexivity|]. split; [exact Hpre|].
      by apply Hfirst.
    + eexists a1, false, (Some e), _, s3.
      split; [reflexivity|]. split; [exact Hpre|].
      by apply Hfirst.
Qed.







End Lister.

(** ** Sorting a batch *)

Section Sorting.

Lemma strLess_le (a b : string) : strLess a b = true -> String.le a b.
Proof.
  unfold strLess, String.ltb, String.le, String.leb.
  destruct (a ?= b)%string; done.
Qed.

Lemma strLess_ge (a b : string) : strLess a b = false -> String.le b a.
Proof.
  unfold strLess, String.ltb, String.le, String.leb.
  rewrite (String.compare_antisym a b).
  destruct (b ?= a)%string; done.
Qed.

Lemma pairsOf_ofPairs (l : list (string * string)) : pairsOf (ofPairs l) = l.
Proof. apply zip_fst_snd. Qed.

Lemma ofPairs_pairsOf (s : listRSlices) :
  length (dirs s) = length (paths s) -> ofPairs (pairsOf s) = s.
Proof.
  intros H. destruct s as [d p]. unfold ofPairs, pairsOf. simpl in *.
  rewrite fst_zip, snd_zip by lia. reflexivity.
Qed.

(** Swapping two positions of a list permutes it. *)
Lemma insert_head_Permutation {A : Type} (l : list A) (i : nat) (x y : A) :
  l !! i = Some y -> y :: <[i:=x]> l ≡ₚ x :: l.
Proof.
  revert i. induction l as [|a l IH]; intros [|i] H; simplify_eq/=.
  - apply perm_swap.
  - rewrite (perm_swap a y), (IH i H). apply perm_swap.
Qed.

Lemma swap_Permutation {A : Type} (l : list A) (i j : nat) (x y : A) :
  l !! i = Some x -> l !! j = Some y -> <[j:=x]> (<[i:=y]> l) ≡ₚ l.
Proof.
  revert i j. induction l as [|a l IH]; intros [|i] [|j] Hi Hj;
    simplify_eq/=; try done.
  - by apply insert_head_Permutation.
  - by apply insert_head_Permutation.
  - f_equiv. by apply IH.
Qed.

Lemma swapAt_fmap (l : list (string * string)) (i j : nat)
    (x y : string * string) :
  l !! i = Some x -> l !! j = Some y ->
  listRSlices_Swap (ofPairs l) i j = Some (ofPairs (<[j:=x]> (<[i:=y]> l))).
Proof.
  intros Hi Hj. unfold listRSlices_Swap, swapAt, ofPairs. simpl.
  rewrite !list_lookup_fmap, Hi, Hj. simpl.
  by rewrite !list_fmap_insert.
Qed.

Lemma Swap_fails (l : list (string * string)) (i j : nat) :
  l !! i = None \/ l !! j = None -> listRSlices_Swap (ofPairs l) i j = None.
Proof.
  intros H. unfold listRSlices_Swap, swapAt, ofPairs. simpl.
  rewrite !list_lookup_fmap.
  destruct H as [-> | ->]; simpl; [done|]. by destruct (l !! i).
Qed.

(** On slices of equal length, [Swap] moves the pairs as a whole. *)
Lemma Swap_lockstep (s s' : listRSlices) (i j : nat) :
  length (dirs s) = length (paths s) ->
  listRSlices_Swap s i j = Some s' ->
  pairsOf s' ≡ₚ pairsOf s /\ length (dirs s') = length (paths s').
Proof.
  intros Hlen Hswap. rewrite <- (ofPairs_pairsOf s Hlen) in Hswap.
  destruct (pairsOf s !! i) as [x|] eqn:Hi;
    [|rewrite Swap_fails in Hswap by auto; done].
  destruct (pairsOf s !! j) as [y|] eqn:Hj;
    [|rewrite Swap_fails in Hswap by auto; done].
  rewrite (swapAt_fmap _ _ _ _ _ Hi Hj) in Hswap. simplify_eq.
  rewrite pairsOf_ofPairs. split; [by apply swap_Permutation|].
  unfold ofPairs. simpl. by rewrite !length_fmap.
Qed.

(** Whatever routine sorts the batch through [Less] and [Swap], the pairs
    stay together. *)
Lemma runSortProg_lockstep (p : sortProg) (s s' : listRSlices) :
  length (dirs s) = length (paths s) ->
  runSortProg p s = Some s' ->
  pairsOf s' ≡ₚ pairsOf s /\ length (dirs s') = length (paths s').
Proof.
  revert s. induction p as [|i j k IH|i j kt IHt kf IHf]; intros s Hlen Hrun;
    simpl in Hrun.
  - by simplify_eq.
  - destruct (listRSlices_Swap s i j) as [s1|] eqn:Hswap; [|done].
    destruct (Swap_lockstep s s1 i j Hlen Hswap) as [Hp Hl].
    destruct (IH s1 Hl Hrun) as [Hp' Hl']. split; [by rewrite Hp'|done].
  - destruct (listRSlices_Less s i j) as [[]|]; [by apply IHt | by apply IHf | done].
Qed.

Lemma Less_ofPairs (l : list (string * string)) (i j : nat)
    (x y : string * string) :
  l !! i = Some x -> l !! j = Some y ->
  listRSlices_Less (ofPairs l) i j = Some (strLess x.1 y.1).
Proof.
  intros Hi Hj. unfold listRSlices_Less, ofPairs. simpl.
  by rewrite !list_lookup_fmap, Hi, Hj.
Qed.

Lemma lookup_adjacent {A : Type} (l1 l2 : list A) (x y : A) :
  (l1 ++ y :: x :: l2) !! length l1 = Some y /\
  (l1 ++ y :: x :: l2) !! S (length l1) = Some x.
Proof.
  split; [by apply list_lookup_middle|].
  change (l1 ++ y :: x :: l2)%list with (l1 ++ [y] ++ x :: l2)%list.
  rewrite app_assoc. apply list_lookup_middle.
  rewrite length_app. simpl. lia.
Qed.

Lemma insert_adjacent {A : Type} (l1 l2 : list A) (x y : A) :
  <[length l1:=x]> (<[S (length l1):=y]> (l1 ++ y :: x :: l2))
  = (l1 ++ x :: y :: l2)%list.
Proof.
  rewrite (insert_app_r_alt l1 _ (S (length l1))) by lia.
  replace (S (length l1) - length l1)%nat with 1%nat by lia. simpl.
  rewrite (insert_app_r_alt l1 _ (length l1)) by lia.
  by rewrite Nat.sub_diag.
Qed.

(** The inner loop moves the element at [j] down to its place in the sorted
    part before it.  [l1] is that part as far as it has not been passed,
    [l2] the elements passed so far. *)
Lemma insertionInner_spec (j : nat) :
  forall (l1 l2 rest : list (string * string)) (x : string * string),
    length l1 = j ->
    ascending ((l1 ++ l2).*1) ->
    Forall (fun z => strLess x.1 z.1 = true) l2 ->
    exists m,
      insertionInner 0 j (ofPairs (l1 ++ x :: l2 ++ rest))
        = Some (ofPairs (m ++ rest)) /\
      m ≡ₚ l1 ++ x :: l2 /\ ascending (m.*1).
Proof.
  unfold ascending.
  induction j as [|j IH]; intros l1 l2 rest x Hlen Hsorted Hlt.
  - destruct l1; [|done]. simpl in *. exists (x :: l2).
    split; [done|]. split; [done|]. simpl.
    apply StronglySorted_cons. split; [|done].
    apply Forall_fmap. eapply Forall_impl; [exact Hlt|].
    intros z Hz. by apply strLess_le.
  - destruct l1 as [|y l1' _] using rev_ind; [done|].
    rewrite length_app in Hlen. simpl in Hlen.
    assert (Hlen' : length l1' = j) by lia.
    rewrite <- (app_assoc l1' [y]). simpl.
    destruct (lookup_adjacent l1' (l2 ++ rest) x y) as [Hy Hx].
    rewrite Hlen' in Hy, Hx.
    rewrite (Less_ofPairs _ _ _ _ _ Hx Hy).
    destruct (strLess x.1 y.1) eqn:Hless.
    + rewrite (swapAt_fmap _ _ _ _ _ Hx Hy).
      rewrite <- Hlen', insert_adjacent.
      destruct (IH l1' (y :: l2) rest x Hlen') as (m & Hrun & Hperm & Hm).
      * by rewrite <- app_assoc in Hsorted.
      * by constructor.
      * exists m. rewrite Hlen'. split; [exact Hrun|]. split; [|done].
        rewrite Hperm, <- app_assoc. simpl. f_equiv. apply perm_swap.
    + exists ((l1' ++ [y]) ++ x :: l2)%list.
      rewrite <- !app_assoc. simpl. split; [done|]. split; [done|].
      rewrite <- app_assoc in Hsorted. simpl in Hsorted.
      rewrite fmap_app in Hsorted |- *. simpl in *.
      apply StronglySorted_app in Hsorted as (Hcross & H1 & H2).
      apply StronglySorted_cons in H2 as [Hy2 H2].
      apply StronglySorted_app. split; [|split; [done|]].
      * intros a b Ha Hb.
        apply elem_of_cons in Hb as [->|Hb]; [apply Hcross; [done|by left]|].
        apply elem_of_cons in Hb as [->|Hb].
        -- trans y.1; [apply Hcross; [done | by left]|].
           by apply strLess_ge.
        -- apply Hcross; [done | by right].
      * apply StronglySorted_cons. split.
        -- constructor; [by apply strLess_ge|].
           apply Forall_fmap. eapply Forall_impl; [exact Hlt|].
           intros z Hz. simpl. trans x.1; [by apply strLess_ge|].
           by apply strLess_le.
        -- apply StronglySorted_cons. split; [|done].
           apply Forall_fmap. eapply Forall_impl; [exact Hlt|].
           intros z Hz. by apply strLess_le.
Qed.

Lemma insertionOuter_spec (n : nat) :
  forall (l1 rest : list (string * string)),
    length rest = n ->
    ascending (l1.*1) ->
    exists m,
      insertionOuter 0 n (length l1) (ofPairs (l1 ++ rest)) = Some (ofPairs m) /\
      m ≡ₚ l1 ++ rest /\ ascending (m.*1).
Proof.
  induction n as [|n IH]; intros l1 rest Hlen Hsorted.
  - destruct rest; [|done]. exists l1. rewrite app_nil_r. by repeat split.
  - destruct rest as [|x rest]; [done|]. simpl in Hlen. simpl.
    destruct (insertionInner_spec (length l1) l1 [] rest x eq_refl)
      as (m1 & Hrun1 & Hperm1 & Hm1).
    { by rewrite app_nil_r. }
    { constructor. }
    simpl in Hrun1. rewrite Hrun1.
    assert (Hlen1 : length m1 = S (length l1)).
    { rewrite Hperm1, length_app. simpl. lia. }
    rewrite <- Hlen1.
    destruct (IH m1 rest ltac:(lia) Hm1) as (m & Hrun & Hperm & Hm).
    exists m. split; [exact Hrun|]. split; [|done].
    rewrite Hperm, Hperm1, <- app_assoc. reflexivity.
Qed.

Lemma sort_Sort_ofPairs (l : list (string * string)) :
  exists m, sort_Sort (ofPairs l) = Some (ofPairs m) /\
            m ≡ₚ l /\ ascending (m.*1).
Proof.
  unfold sort_Sort, insertionSort, listRSlices_Len.
  destruct l as [|x rest].
  - exists []. repeat split; [done|constructor].
  - destruct (insertionOuter_spec (length rest) [x] rest eq_refl)
      as (m & Hrun & Hperm & Hm).
    { simpl. repeat constructor. }
    exists m. split; [|done].
    unfold ofPairs at 1. simpl. rewrite length_fmap.
    rewrite Nat.sub_0_r. exact Hrun.
Qed.

(** C9: [Sort] on a batch whose two slices have the same length returns, and
    it permutes the directory IDs and the paths in lockstep: the pairs
    [(dirs[i], paths[i])] after the sort are a permutation of the pairs
    before it, [dirs] is in ascending order, and at every index the path is
    still the one that came with the directory ID. *)
Theorem listRSlices_Sort_lockstep (s : listRSlices) :
  length (dirs s) = length (paths s) ->
  exists s',
    listRSlices_Sort s = Some s' /\
    pairsOf s' ≡ₚ pairsOf s /\
    ascending (dirs s') /\
    length (dirs s') = length (dirs s) /\
    length (paths s') = length (dirs s') /\
    forall (i : nat) (d p : string),
      dirs s' !! i = Some d -> paths s' !! i = Some p -> (d, p) ∈ pairsOf s.
Proof.
  intros Hlen. unfold listRSlices_Sort.
  destruct (sort_Sort_ofPairs (pairsOf s)) as (m & Hrun & Hperm & Hm).
  rewrite (ofPairs_pairsOf s Hlen) in Hrun.
  exists (ofPairs m). split; [exact Hrun|].
  rewrite pairsOf_ofPairs. split; [exact Hperm|]. split; [exact Hm|].
  unfold ofPairs. simpl. rewrite !length_fmap.
  split; [|split; [done|]].
  - rewrite Hperm. unfold pairsOf. rewrite length_zip. lia.
  - intros i d p Hd Hp. rewrite <- Hperm.
    rewrite list_lookup_fmap in Hd, Hp.
    destruct (m !! i) as [[d' p']|] eqn:Hi; simplify_eq/=.
    by eapply list_elem_of_lookup_2.
Qed.

Lemma listRSlices_Sort_lockstep_witness :
  exists s',
    listRSlices_Sort {| dirs := ["b"; "a"; "c"]; paths := ["pb"; "pa"; "pc"] |}
      = Some s' /\
    ascending (dirs s') /\
    forall (i : nat) (d p : string),
      dirs s' !! i = Some d -> paths s' !! i = Some p ->
      (d, p) ∈ [("b", "pb"); ("a", "pa"); ("c", "pc")].
Proof.
  destruct (listRSlices_Sort_lockstep
              {| dirs := ["b"; "a"; "c"]; paths := ["pb"; "pa"; "pc"] |}
              eq_refl)
    as (s' & Hrun & _ & Hasc & _ & _ & Hpair).
  exists s'. split; [exact Hrun|]. split; [exact Hasc | exact Hpair].
Defined.

End Sorting.

(** ** The closure of the worker: where an item is entered *)

Section Closure.
Import Samples.

Lemma strLess_irrefl (a : string) : strLess a a = false.
Proof.
  unfold strLess, String.ltb.
  assert ((a ?= a)%string = Eq) as ->; [|reflexivity].
  induction a as [|c a IH]; simpl; [reflexivity|].
  unfold Ascii.compare. by rewrite N.compare_refl.
Qed.

Lemma strLess_not_ge (a b : string) :
  strLess a b = true -> String.le b a -> False.
Proof.
  intros Hlt Hge. pose proof (strLess_le _ _ Hlt) as Hle.
  assert (a = b) as -> by (by apply (anti_symm String.le)).
  rewrite strLess_irrefl in Hlt. discriminate.
Qed.

Lemma ascending_lookup (l : list string) (i j : nat) (x y : string) :
  ascending l -> (i <= j)%nat -> l !! i = Some x -> l !! j = Some y ->
  String.le x y.
Proof.
  intros Hs Hij Hi Hj.
  destruct (decide (i = j)) as [->|Hne]; [by simplify_eq|].
  rewrite <- (take_drop j l) in Hs.
  eapply (StronglySorted_app_1_elem_of _ _ _ _ _ Hs).
  - apply list_elem_of_lookup. exists i. rewrite lookup_take_lt by lia. done.
  - apply list_elem_of_lookup. exists 0%nat. rewrite lookup_drop.
    by rewrite Nat.add_0_r.
Qed.

Lemma Search_loop_S (fuel i j : nat) (f : nat -> bool) :
  Search_loop (S fuel) i j f
  = if (i <? j)%nat then
      if negb (f ((i + j) / 2)%nat)
      then Search_loop fuel ((i + j) / 2 + 1)%nat j f
      else Search_loop fuel i ((i + j) / 2)%nat f
    else i.
Proof. reflexivity. Qed.

(** The binary search ends on the first index at which the test holds. *)
Lemma Search_loop_spec (n : nat) (f : nat -> bool) :
  (forall a b, (a <= b < n)%nat -> f a = true -> f b = true) ->
  forall (fuel i j : nat),
    (i <= j <= n)%nat -> (j - i <= fuel)%nat ->
    (forall k, (k < i)%nat -> f k = false) ->
    (forall k, (j <= k < n)%nat -> f k = true) ->
    (i <= Search_loop fuel i j f <= j)%nat /\
    (forall k, (k < Search_loop fuel i j f)%nat -> f k = false) /\
    (forall k, (Search_loop fuel i j f <= k < n)%nat -> f k = true).
Proof.
  intros Hmono fuel.
  induction fuel as [|fuel IH]; intros i j Hij Hfuel Hlow Hhigh.
  - simpl. assert (i = j) as -> by lia. repeat split; auto; lia.
  - rewrite Search_loop_S. destruct (i <? j)%nat eqn:Hlt.
    + apply Nat.ltb_lt in Hlt.
      assert (Hh : (i <= (i + j) / 2 < j)%nat).
      { split; [apply Nat.div_le_lower_bound
               | apply Nat.Div0.div_lt_upper_bound]; lia. }
      set (h := ((i + j) / 2)%nat) in *. clearbody h.
      destruct (f h) eqn:Hf; simpl.
      * destruct (IH i h) as (H1 & H2 & H3); [lia | lia | done | |].
        { intros k Hk. apply (Hmono h k); [lia | done]. }
        repeat split; auto; lia.
      * destruct (IH (h + 1)%nat j) as (H1 & H2 & H3); [lia | lia | | done |].
        { intros k Hk. destruct (f k) eqn:Hfk; [|done].
          rewrite (Hmono k h) in Hf; [done | lia | done]. }
        repeat split; auto; lia.
    + apply Nat.ltb_ge in Hlt. assert (i = j) as -> by lia.
      repeat split; auto; lia.
Qed.

Lemma sort_SearchStrings_spec (a : list string) (x : string) :
  ascending a ->
  (sort_SearchStrings a x <= length a)%nat /\
  (forall k y, (k < sort_SearchStrings a x)%nat -> a !! k = Some y ->
               strLess y x = true) /\
  (forall k y, (sort_SearchStrings a x <= k)%nat -> a !! k = Some y ->
               strLess y x = false).
Proof.
  intros Hasc. unfold sort_SearchStrings, sort_Search.
  set (f := fun i => match a !! i with
                     | Some y => negb (strLess y x)
                     | None => false
                     end).
  destruct (Search_loop_spec (length a) f) with (fuel := length a)
                                               (i := 0%nat) (j := length a)
    as (H1 & H2 & H3); try lia.
  - intros i j Hij. unfold f.
    destruct (a !! i) as [yi|] eqn:Hi; [|done].
    destruct (lookup_lt_is_Some_2 a j ltac:(lia)) as [yj Hj]. rewrite Hj.
    intros Hyi. apply negb_true_iff in Hyi. apply negb_true_iff.
    destruct (strLess yj x) eqn:Hyj; [|done]. exfalso.
    apply (strLess_not_ge yj x Hyj).
    trans yi; [by apply strLess_ge|].
    apply (ascending_lookup a i j); [done | lia | done | done].
  - split; [lia|]. split.
    + intros k y Hk Hy. specialize (H2 k Hk). unfold f in H2.
      rewrite Hy in H2. by apply negb_false_iff in H2.
    + intros k y Hk Hy. specialize (H3 k).
      unfold f in H3. rewrite Hy in H3. apply negb_true_iff, H3.
      split; [done|]. by eapply lookup_lt_Some.
Qed.

(** In a sorted batch of more than one directory, the binary search finds
    the first index that holds the parent, or tells that there is none. *)
Lemma parentIndex_find (dirs paths : list string) (parent : string) :
  ascending dirs -> length paths <> 1%nat ->
  parentIndex dirs paths parent
  = fst <$> list_find (fun d => d = parent) dirs.
Proof.
  intros Hasc Hlen. unfold parentIndex.
  destruct (Nat.eqb_spec (length paths) 1) as [|_]; [done|].
  destruct (sort_SearchStrings_spec dirs parent Hasc) as (Hle & Hlow & Hhigh).
  set (r := sort_SearchStrings dirs parent) in *.
  destruct (Nat.eqb_spec r (length dirs)) as [Hr|Hr].
  - symmetry. apply fmap_None, list_find_None, Forall_forall.
    intros d Hd ->. apply list_elem_of_lookup in Hd as [k Hk].
    pose proof (lookup_lt_Some _ _ _ Hk).
    pose proof (Hlow k parent ltac:(lia) Hk) as Hc.
    by rewrite strLess_irrefl in Hc.
  - destruct (lookup_lt_is_Some_2 dirs r ltac:(lia)) as [d Hd]. rewrite Hd.
    destruct (String.eqb_spec d parent) as [->|Hne].
    + symmetry. apply fmap_Some. exists (r, parent). split; [|done].
      apply list_find_Some. split; [done|]. split; [done|].
      intros j y Hj Hjr ->.
      pose proof (Hlow j parent Hjr Hj) as Hc.
      by rewrite strLess_irrefl in Hc.
    + symmetry. apply fmap_None, list_find_None, Forall_forall.
      intros d' Hd' ->. apply list_elem_of_lookup in Hd' as [k Hk].
      destruct (decide (k < r)%nat) as [Hkr|Hkr].
      * pose proof (Hlow k parent Hkr Hk) as Hc.
        by rewrite strLess_irrefl in Hc.
      * apply Hne. apply (anti_symm String.le).
        -- apply (ascending_lookup dirs r k); [done | lia | done | done].
        -- apply strLess_ge. by apply (Hhigh r).
Qed.

Lemma pathOf_index (dirs paths : list string) (parent : string) :
  ascending dirs -> length paths <> 1%nat ->
  pathOf dirs paths parent
  = match parentIndex dirs paths parent with
    | Some i => paths !! i
    | None => None
    end.
Proof.
  intros Hasc Hlen. rewrite (parentIndex_find _ _ _ Hasc Hlen). unfold pathOf.
  by destruct (list_find (fun d => d = parent) dirs) as [[i d]|].
Qed.

Lemma parentIndex_in_range (dirs paths : list string) (parent : string)
    (i : nat) :
  length paths <> 1%nat -> parentIndex dirs paths parent = Some i ->
  (i < length dirs)%nat.
Proof.
  unfold parentIndex.
  destruct (Nat.eqb_spec (length paths) 1) as [|_]; [done|]. intros _.
  destruct (Nat.eqb_spec (sort_SearchStrings dirs parent) (length dirs));
    [done|].
  destruct (dirs !! sort_SearchStrings dirs parent) as [d|] eqn:Hd; [|done].
  destruct (String.eqb d parent); [|done].
  intros [= <-]. by eapply lookup_lt_Some.
Qed.

Lemma bind_bind {St A B C : Type} (m : M St A) (k1 : A -> M St B)
    (k2 : B -> M St C) (s : St) :
  bind (bind m k1) k2 s = bind m (fun a => bind (k1 a) k2) s.
Proof. unfold bind. by destruct (m s). Qed.

Lemma bind_ext {St A B : Type} (m : M St A) (k1 k2 : A -> M St B) (s : St) :
  (forall a s', k1 a s' = k2 a s') -> bind m k1 s = bind m k2 s.
Proof. intros H. unfold bind. destruct (m s); auto. Qed.

(** The loop over the parents of an item in a batch of several directories. *)
Lemma parentsLoop_several (f : Fs) (cb : DirEntry -> M State (option error))
    (dirs paths : list string) (item : File) :
  ascending dirs -> length dirs = length paths -> length paths <> 1%nat ->
  forall (parents : list string) (v : batchVars) (s : State),
    parentsLoop f cb dirs paths item parents v s
    = (let* e := emitAll f cb item (omap (pathOf dirs paths) parents) in
       ret ({| foundItems :=
                 match parents with [] => foundItems v | _ :: _ => true end;
               iErr := match e with Some err => Some err | None => iErr v end |},
            match e with Some _ => true | None => false end)) s.
Proof.
  intros Hasc Hlen Hne parents.
  induction parents as [|parent rest IH]; intros v s.
  - simpl. unfold bind, ret. by destruct v.
  - cbn [parentsLoop omap list_omap].
    rewrite (pathOf_index _ _ _ Hasc Hne).
    destruct (parentIndex dirs paths parent) as [i|] eqn:Hidx.
    + pose proof (parentIndex_in_range _ _ _ _ Hne Hidx) as Hi.
      destruct (lookup_lt_is_Some_2 paths i ltac:(lia)) as [p Hp].
      rewrite Hp. cbn [emitAll]. rewrite bind_bind. apply bind_ext.
      intros [err|] s'; [reflexivity|].
      destruct (Nat.eqb_spec (length paths) 1) as [|_]; [done|].
      rewrite IH. apply bind_ext. intros e s''. by destruct rest.
    + rewrite IH. apply bind_ext. intros e s''. by destruct rest.
Qed.

(** The loop over the parents of an item in a batch of one directory. *)
Lemma parentsLoop_single (f : Fs) (cb : DirEntry -> M State (option error))
    (dirs : list string) (p : string) (item : File) (parents : list string)
    (v : batchVars) (s : State) :
  parentsLoop f cb dirs [p] item parents v s
  = (let* e := emitAll f cb item
                 (match parents with [] => [] | _ :: _ => [p] end) in
     ret ({| foundItems :=
               match parents with [] => foundItems v | _ :: _ => true end;
             iErr := match e with Some err => Some err | None => iErr v end |},
          match e with Some _ => true | None => false end)) s.
Proof.
  destruct parents as [|parent rest].
  - simpl. unfold bind, ret. by destruct v.
  - cbn [parentsLoop emitAll]. unfold parentIndex. simpl.
    rewrite bind_bind. apply bind_ext.
    by intros [err|] s'.
Qed.

Lemma length_omap_pathOf (dirs paths parents : list string) :
  length dirs = length paths ->
  length (omap (pathOf dirs paths) parents)
  = length (filter (fun parent => parent ∈ dirs) parents).
Proof.
  intros Hlen. induction parents as [|parent rest IH]; [done|].
  simpl. rewrite filter_cons. unfold pathOf at 1.
  destruct (list_find (fun d => d = parent) dirs) as [[i d]|] eqn:Hfind.
  - apply list_find_Some in Hfind as (Hd & -> & _).
    destruct (lookup_lt_is_Some_2 paths i) as [p Hp];
      [rewrite <- Hlen; by eapply lookup_lt_Some|].
    rewrite Hp. rewrite decide_True by (by eapply list_elem_of_lookup_2).
    simpl. f_equal. exact IH.
  - apply list_find_None in Hfind. rewrite decide_False; [exact IH|].
    intros Hin. by apply (proj1 (Forall_forall _ _) Hfind parent).
Qed.

(** C2, as the specification states it, fails: in a batch of one directory an item
    that names no parent is not entered at all (outside the shared-with-me
    root); the callback is not called and nothing is recorded. *)
Lemma listRClosure_orphan_counterexample :
  length ["docs"] = 1%nat /\
  listRClosure (sampleFs plainOptions 1%nat noPages) (ListR_cb acceptAll)
    ["d1"] ["docs"] orphanFile {| foundItems := false; iErr := None |}
    newFsState
  = Ret ({| foundItems := false; iErr := None |}, false) newFsState.
Proof. split; reflexivity. Qed.

(** C2, amended: on a sorted batch the closure enters the item under the
    paths of [filedUnder], in order and up to the first error.  An item
    without parents first takes the batch as its parents when the
    shared-with-me root is listed.  In a batch of one directory an item with
    a parent is entered once, under that directory's path, whatever its
    parents are, and an item left without parents is not entered.  In a batch
    of several directories the item is entered once for every parent that the
    binary search finds in the batch, under the path that goes with that
    parent. *)
Theorem listRClosure_files (f : Fs) (cb : DirEntry -> M State (option error))
    (dirs paths : list string) (item : File) (v : batchVars) (s : State) :
  ascending dirs -> length dirs = length paths ->
  listRClosure f cb dirs paths item v s = closurePlan f cb dirs paths item v s /\
  (length paths = 1%nat ->
   Parents (effectiveItem f dirs paths item) <> [] ->
   filedUnder dirs paths (Parents (effectiveItem f dirs paths item)) = paths) /\
  (length paths = 1%nat ->
   Parents (effectiveItem f dirs paths item) = [] ->
   filedUnder dirs paths (Parents (effectiveItem f dirs paths item)) = []) /\
  (length paths <> 1%nat ->
   filedUnder dirs paths (Parents (effectiveItem f dirs paths item))
   = omap (pathOf dirs paths) (Parents (effectiveItem f dirs paths item)) /\
   length (filedUnder dirs paths (Parents (effectiveItem f dirs paths item)))
   = length (filter (fun parent => parent ∈ dirs)
               (Parents (effectiveItem f dirs paths item)))) /\
  (SharedWithMe (opt f) = true -> Parents item = [] -> paths = [""] ->
   Parents (effectiveItem f dirs paths item) = dirs).
Proof.
  intros Hasc Hlen.
  split; [|split; [|split; [|split]]].
  - unfold listRClosure, closurePlan.
    fold (effectiveItem f dirs paths item).
    set (item' := effectiveItem f dirs paths item).
    unfold filedUnder.
    destruct (Nat.eqb_spec (length paths) 1) as [H1|H1].
    + destruct paths as [|p [|]]; try done.
      rewrite parentsLoop_single. by destruct (Parents item').
    + by apply parentsLoop_several.
  - intros H1 Hp. unfold filedUnder. rewrite H1. simpl.
    destruct paths as [|p [|]]; try done.
    by destruct (Parents (effectiveItem f dirs [p] item)).
  - intros H1 ->. unfold filedUnder. by rewrite H1.
  - intros H1. unfold filedUnder.
    destruct (Nat.eqb_spec (length paths) 1) as [|_]; [done|].
    split; [done|]. by apply length_omap_pathOf.
  - intros Hshared Hnone ->. unfold effectiveItem.
    rewrite Hshared, Hnone. reflexivity.
Qed.

Lemma listRClosure_files_witness :
  listRClosure (sampleFs plainOptions 1%nat noPages) (ListR_cb acceptAll)
    ["a"; "b"] ["pa"; "pb"] sharedFile {| foundItems := false; iErr := None |}
    newFsState
  = closurePlan (sampleFs plainOptions 1%nat noPages) (ListR_cb acceptAll)
      ["a"; "b"] ["pa"; "pb"] sharedFile {| foundItems := false; iErr := None |}
      newFsState /\
  filedUnder ["a"; "b"] ["pa"; "pb"] ["b"; "zz"; "a"] = ["pb"; "pa"].
Proof.
  assert (Hasc : ascending ["a"; "b"]).
  { unfold ascending. repeat constructor. }
  destruct (listRClosure_files (sampleFs plainOptions 1%nat noPages)
              (ListR_cb acceptAll) ["a"; "b"] ["pa"; "pb"] sharedFile
              {| foundItems := false; iErr := None |} newFsState Hasc eq_refl)
    as (Hrun & _).
  split; [exact Hrun | reflexivity].
Defined.

End Closure.

(** ** sendJob *)

Section SendJob.
Import Samples.

Lemma sendJob_run (job : listREntry) (s : State) :
  sendable s -> sendJob job s = Ret tt (afterSendJob job s).
Proof.
  intros (Hmu & Hchan & Hwg). unfold sendJob, afterSendJob.
  unfold bind, mu_Lock, mu_Unlock, gets, wg_Add, in_trySend, modify, ret.
  rewrite Hmu. destruct s as [g e dc rk lm m n b c o w ov li he er tr].
  simpl in *. subst m.
  destruct n; simpl; [reflexivity|].
  rewrite (Hchan eq_refl).
  destruct (w + 1 <? 0) eqn:E1; [apply Z.ltb_lt in E1; lia|]. simpl.
  destruct (Z.of_nat (length b) <? listRInputBuffer) eqn:E2; simpl.
  - reflexivity.
  - destruct (w + 1 + -1 <? 0) eqn:E3; [apply Z.ltb_lt in E3; lia|].
    unfold set_mu, set_wg, set_overflow. simpl.
    replace (w + 1 + -1) with w by lia. reflexivity.
Qed.

Lemma afterSendJob_sendable (job : listREntry) (s : State) :
  sendable s -> sendable (afterSendJob job s).
Proof.
  intros (Hmu & Hchan & Hwg). unfold afterSendJob, sendable.
  destruct (inNil s) eqn:Hn; [by rewrite Hn|].
  destruct (Z.of_nat (length (inBuf s)) <? listRInputBuffer); simpl;
    rewrite ?Hn; repeat split; auto; lia.
Qed.

(** *** Code that keeps a property of the state *)

Lemma preserves_ret {A : Type} (P : State -> Prop) (a : A) :
  preserves P (ret a).
Proof. intros s a' s' HP H. unfold ret in H. by simplify_eq. Qed.

Lemma preserves_bind {A B : Type} (P : State -> Prop) (m : M State A)
    (k : A -> M State B) :
  preserves P m -> (forall a, preserves P (k a)) -> preserves P (bind m k).
Proof.
  intros Hm Hk s b s' HP H. unfold bind in H.
  destruct (m s) as [a s1| | |] eqn:Hms; try done.
  eapply Hk; [|exact H]. by eapply Hm.
Qed.

Lemma preserves_panic {A : Type} (P : State -> Prop) (msg : string) :
  preserves P (@panic State A msg).
Proof. by intros s a s' HP H. Qed.

Lemma preserves_block {A : Type} (P : State -> Prop) :
  preserves P (@block State A).
Proof. by intros s a s' HP H. Qed.

Lemma preserves_gets {A : Type} (P : State -> Prop) (g : State -> A) :
  preserves P (gets g).
Proof. intros s a s' HP H. unfold gets in H. by simplify_eq. Qed.

Lemma preserves_modify (P : State -> Prop) (g : State -> State) :
  (forall s, P s -> P (g s)) -> preserves P (modify g).
Proof. intros Hg s a s' HP H. unfold modify in H. simplify_eq. auto. Qed.

Lemma preserves_forRange {A : Type} (P : State -> Prop) (l : list A)
    (body : A -> M State unit) :
  (forall x, preserves P (body x)) -> preserves P (forRange l body).
Proof.
  intros Hbody. induction l as [|x l IH]; simpl.
  - apply preserves_ret.
  - apply preserves_bind; auto.
Qed.

(** The code of a worker leaves [inNil], [inClosed] and [outBuf] alone and
    changes [wg] through [wg.Add] only: a property that depends on these four
    alone, and that [wg.Add] keeps, is kept by a whole batch. *)
Section Frame.
Variable P : State -> Prop.
Hypothesis P_frame : forall s s',
  inNil s' = inNil s -> inClosed s' = inClosed s -> outBuf s' = outBuf s ->
  wg s' = wg s -> P s -> P s'.
Hypothesis P_wg : forall delta, preserves P (wg_Add delta).

Lemma frame_emit (e : event) : preserves P (emit e).
Proof. apply preserves_modify. intros s. by apply P_frame. Qed.

Lemma frame_mu_Lock : preserves P mu_Lock.
Proof.
  intros s a s' HP H. unfold mu_Lock in H. destruct (mu s); simplify_eq.
  revert HP. by apply P_frame.
Qed.

Lemma frame_mu_Unlock : preserves P mu_Unlock.
Proof.
  intros s a s' HP H. unfold mu_Unlock in H. destruct (mu s); simplify_eq.
  revert HP. by apply P_frame.
Qed.

Lemma frame_listRmu_Lock : preserves P listRmu_Lock.
Proof.
  intros s a s' HP H. unfold listRmu_Lock in H.
  destruct (listRmu s); simplify_eq. revert HP. by apply P_frame.
Qed.

Lemma frame_listRmu_Unlock : preserves P listRmu_Unlock.
Proof.
  intros s a s' HP H. unfold listRmu_Unlock in H.
  destruct (listRmu s); simplify_eq. revert HP. by apply P_frame.
Qed.

Lemma frame_swapGrouping (new : Z) : preserves P (swapGrouping new).
Proof.
  intros s a s' HP H. unfold swapGrouping in H. simplify_eq.
  revert HP. by apply P_frame.
Qed.

Lemma frame_in_trySend (job : listREntry) : preserves P (in_trySend job).
Proof.
  intros s a s' HP H. unfold in_trySend in H.
  destruct (inClosed s); [done|].
  destruct (Z.of_nat (length (inBuf s)) <? listRInputBuffer); simplify_eq;
    [|done].
  revert HP. by apply P_frame.
Qed.

Create HintDb pres discriminated.

#[local] Hint Resolve frame_emit P_wg frame_mu_Lock frame_mu_Unlock
  frame_listRmu_Lock frame_listRmu_Unlock frame_swapGrouping
  frame_in_trySend : pres.

Ltac pres_step :=
  match goal with
  | |- preserves _ (bind _ _) => apply preserves_bind; [|intros]
  | |- preserves _ (Go.ret _) => apply preserves_ret
  | |- preserves _ (panic _) => apply preserves_panic
  | |- preserves _ block => apply preserves_block
  | |- preserves _ (gets _) => apply preserves_gets
  | |- preserves _ wg_Done => apply P_wg
  | |- preserves _ (forRange _ _) => apply preserves_forRange; intros
  | |- preserves _ (modify _) =>
      apply preserves_modify; let s := fresh in intros s; by apply P_frame
  | |- preserves _ (match ?x with _ => _ end) => destruct x
  | |- preserves _ _ => solve [auto with pres]
  end.

Ltac pres := repeat pres_step.

Lemma frame_getFile (f : Fs) (i : string) : preserves P (Fs_getFile f i).
Proof. unfold Fs_getFile. pres. Qed.

Lemma frame_resolveShortcut (f : Fs) (item : File) :
  preserves P (Fs_resolveShortcut f item).
Proof. pose proof frame_getFile. unfold Fs_resolveShortcut. pres. Qed.

Lemma frame_listShortcut (f : Fs) (directoriesOnly filesOnly : bool)
    (item : File) :
  preserves P (listShortcut f directoriesOnly filesOnly item).
Proof. pose proof frame_resolveShortcut. unfold listShortcut. pres. Qed.

Lemma frame_listItems {A : Type} (f : Fs) (title : string)
    (directoriesOnly filesOnly : bool) (stems : list string)
    (fn : File -> A -> M State (A * bool)) (items : list File) (a : A) :
  (forall item a, preserves P (fn item a)) ->
  preserves P (listItems f title directoriesOnly filesOnly stems fn items a).
Proof.
  intros Hfn. pose proof frame_listShortcut. revert a.
  induction items as [|item rest IH]; intros a; simpl; [pres|].
  unfold listItem. pres.
Qed.

Lemma frame_listPages {A : Type} (fuel : nat) (f : Fs)
    (req : listRequest) (stems : list string)
    (fn : File -> A -> M State (A * bool)) (a : A) :
  (forall item a, preserves P (fn item a)) ->
  preserves P (listPages fuel f req stems fn a).
Proof.
  intros Hfn. revert req a.
  induction fuel as [|fuel IH]; intros req a; simpl; [by intros s x s' HP H|].
  pose proof (fun t d fo st items a =>
                frame_listItems f t d fo st fn items a Hfn).
  unfold listDo. pres.
Qed.

Lemma frame_itemToDirEntry (f : Fs) (remote : string) (item : File) :
  preserves P (Fs_itemToDirEntry f remote item).
Proof. unfold Fs_itemToDirEntry. pres. Qed.

Lemma frame_sendJob (job : listREntry) : preserves P (sendJob job).
Proof. unfold sendJob. pres. Qed.

Lemma frame_ListR_cb (callback : DirEntry -> option error)
    (entry : DirEntry) :
  preserves P (ListR_cb callback entry).
Proof. pose proof frame_sendJob. unfold ListR_cb, list_Add. pres. Qed.

Lemma frame_parentsLoop (f : Fs) (cb : DirEntry -> M State (option error))
    (dirs paths : list string) (item : File) (parents : list string)
    (v : batchVars) :
  (forall entry, preserves P (cb entry)) ->
  preserves P (parentsLoop f cb dirs paths item parents v).
Proof.
  intros Hcb. pose proof frame_itemToDirEntry. revert v.
  induction parents as [|parent rest IH]; intros v; simpl; [pres|].
  unfold emitUnder. pres.
Qed.

Lemma frame_regroup (sendJob' : listREntry -> M State unit)
    (dirs paths : list string) :
  (forall job, preserves P (sendJob' job)) ->
  preserves P (regroup sendJob' dirs paths).
Proof. intros Hsend. unfold regroup. pres. Qed.

Lemma frame_clearEmpty (dirs : list string) : preserves P (clearEmpty dirs).
Proof. unfold clearEmpty. pres. Qed.

Lemma frame_listRBatch (fuel : nat) (f : Fs)
    (cb : DirEntry -> M State (option error))
    (sendJob' : listREntry -> M State unit) (dirs0 paths0 : list string)
    (g : Z) :
  (forall entry, preserves P (cb entry)) ->
  (forall job, preserves P (sendJob' job)) ->
  preserves P (listRBatch fuel f cb sendJob' dirs0 paths0 g).
Proof.
  intros Hcb Hsend. unfold listRBatch, Fs_list, afterList, listRClosure.
  pose proof (fun d p => frame_regroup sendJob' d p Hsend).
  pose proof frame_clearEmpty.
  pose proof (fun d p it ps v => frame_parentsLoop f cb d p it ps v Hcb).
  destruct (listRSlices_Sort _); [|pres].
  apply preserves_bind; [apply frame_listPages; intros; auto|].
  intros. pres.
Qed.

(** A step of a worker that is not its report on [out]. *)
Lemma frame_workerStep (fuel : nat) (f : Fs)
    (callback : DirEntry -> option error) (pc : workerPC) :
  (forall e, pc <> WOut e) ->
  preserves P (workerStep fuel f callback pc).
Proof.
  intros Hpc. destruct pc as [|ds ps g i|ds ps g|e|]; simpl.
  - intros s a s' HP H. destruct (inBuf s); simplify_eq.
    + destruct (inClosed s); by simplify_eq.
    + revert HP. by apply P_frame.
  - destruct (i <? g); [|pres].
    intros s a s' HP H. destruct (inBuf s); simplify_eq.
    + destruct (inClosed s); by simplify_eq.
    + revert HP. by apply P_frame.
  - apply preserves_bind.
    + apply frame_listRBatch; auto using frame_ListR_cb, frame_sendJob.
    + intros [iE e]. pres.
  - by destruct (Hpc e).
  - pres.
Qed.

End Frame.

Lemma chanInv_frame (s s' : State) :
  inNil s' = inNil s -> inClosed s' = inClosed s -> outBuf s' = outBuf s ->
  wg s' = wg s -> chanInv s -> chanInv s'.
Proof. unfold chanInv. by intros -> -> _ ->. Qed.

Lemma preserves_wg_Add (delta : Z) : preserves chanInv (wg_Add delta).
Proof.
  intros s a s' [H1 H2] H. unfold wg_Add in H.
  destruct (wg s + delta <? 0) eqn:E; [done|]. simplify_eq.
  apply Z.ltb_ge in E. by split.
Qed.

Lemma preserves_mu_Lock : preserves chanInv mu_Lock.
Proof. exact (frame_mu_Lock chanInv chanInv_frame). Qed.

Lemma preserves_mu_Unlock : preserves chanInv mu_Unlock.
Proof. exact (frame_mu_Unlock chanInv chanInv_frame). Qed.

Lemma preserves_in_send (d : listREntry) : preserves chanInv (in_send d).
Proof.
  intros s a s' HP H. unfold in_send in H.
  destruct (inNil s); [done|]. destruct (inClosed s); [done|].
  destruct (Z.of_nat (length (inBuf s)) <? listRInputBuffer); by simplify_eq.
Qed.

Lemma preserves_in_closeAndNil : preserves chanInv in_closeAndNil.
Proof.
  intros s a s' [H1 H2] H. unfold in_closeAndNil in H.
  destruct (inClosed s); [done|]. simplify_eq. by split.
Qed.

(** *** The steps of the goroutines keep the channel in order *)

Lemma preserves_workerStep (fuel : nat) (f : Fs)
    (callback : DirEntry -> option error) (pc : workerPC) :
  preserves chanInv (workerStep fuel f callback pc).
Proof.
  destruct pc as [| | |e|];
    try (apply (frame_workerStep chanInv chanInv_frame preserves_wg_Add);
         done).
  simpl. intros s a s' HP H.
  destruct (length (outBuf s) <? ci_Checkers f)%nat; by simplify_eq.
Qed.

Ltac chan_step :=
  match goal with
  | |- preserves _ (bind _ _) => apply preserves_bind; [|intros]
  | |- preserves _ (Go.ret _) => apply preserves_ret
  | |- preserves _ block => apply preserves_block
  | |- preserves _ (gets _) => apply preserves_gets
  | |- preserves _ (modify _) =>
      apply preserves_modify; intros ? ?; assumption
  | |- preserves _ (match ?x with _ => _ end) => destruct x
  | |- preserves _ _ =>
      solve [auto using preserves_wg_Add, preserves_in_send,
               preserves_in_closeAndNil, preserves_mu_Lock,
               preserves_mu_Unlock]
  end.

Lemma preserves_coordStep (pc : coordPC) : preserves chanInv (coordStep pc).
Proof.
  destruct pc as [| | |rest l| |]; simpl.
  - intros s a s' HP H. destruct (wg s =? 0); by simplify_eq.
  - repeat chan_step.
  - repeat chan_step.
  - destruct rest; repeat chan_step.
  - repeat chan_step.
  - repeat chan_step.
Qed.

Lemma preserves_mainStep (f : Fs) (pc : mainPC) :
  preserves chanInv (mainStep f pc).
Proof.
  destruct pc as [i|i e|r]; simpl.
  - destruct (i <? ci_Checkers f)%nat.
    + intros s a s' HP H. destruct (outBuf s); by simplify_eq.
    + unfold list_Flush. repeat chan_step.
  - repeat chan_step.
  - repeat chan_step.
Qed.

Lemma stepWith_inv {PC : Type} (P : State -> Prop) (m : M State PC)
    (c c' : Config) (k : PC -> State -> Config) :
  preserves P m -> (forall pc s', st (k pc s') = s') ->
  P (st c) -> stepWith m c k = Some c' -> P (st c').
Proof.
  intros Hm Hk HP H. unfold stepWith in H.
  destruct (m (st c)) as [pc s'| | |] eqn:Hrun; simplify_eq.
  - rewrite Hk. by eapply Hm.
  - exact HP.
Qed.

Lemma step_chanInv (f : Fs) (callback : DirEntry -> option error)
    (c c' : Config) :
  chanInv (st c) -> step f callback c c' -> chanInv (st c').
Proof.
  intros HP (fuel & t & H). unfold stepThread in H.
  destruct (crashed c); [done|].
  destruct t as [| |n].
  - eapply stepWith_inv; [apply preserves_mainStep| |exact HP|exact H]. done.
  - eapply stepWith_inv; [apply preserves_coordStep| |exact HP|exact H]. done.
  - destruct (workers c !! n) as [w|]; [|done].
    eapply stepWith_inv; [apply preserves_workerStep| |exact HP|exact H]. done.
Qed.

Lemma reachable_chanInv (f : Fs) (callback : DirEntry -> option error)
    (dir : string) (s0 : State) (c : Config) :
  reachable f callback dir s0 c -> chanInv (st c).
Proof.
  intros (c0 & Hstart & Hsteps).
  assert (H0 : chanInv (st c0)).
  { unfold ListR_start in Hstart.
    destruct (dirCache_FindDir f dir); simplify_eq. by split. }
  clear Hstart. induction Hsteps as [|c1 c2 c3 Hstep _ IH]; [done|].
  apply IH. by eapply step_chanInv.
Qed.

(** C10: in every configuration a call of [ListR] can reach, a call of
    [sendJob] waits at most for the mutex, never for the channel, and it does
    not panic: a channel that has been closed has been set to nil, and then
    the job is dropped and nothing changes, the counter of outstanding work
    included; when the buffer of the channel is full the job goes to the end
    of the overflow slice and the counter is back at its value; otherwise the
    job enters the channel and the counter goes up by one. *)
Theorem sendJob_never_blocks (f : Fs) (callback : DirEntry -> option error)
    (dir : string) (s0 : State) (c : Config) (job : listREntry) :
  reachable f callback dir s0 c ->
  sendJob job (st c)
  = (if mu (st c) then Blocked else Ret tt (afterSendJob job (st c))) /\
  (inClosed (st c) = true -> inNil (st c) = true) /\
  (inNil (st c) = true -> afterSendJob job (st c) = st c) /\
  (inNil (st c) = false ->
   listRInputBuffer <= Z.of_nat (length (inBuf (st c))) ->
   inBuf (afterSendJob job (st c)) = inBuf (st c) /\
   overflow (afterSendJob job (st c)) = overflow (st c) ++ [job] /\
   wg (afterSendJob job (st c)) = wg (st c)) /\
  (inNil (st c) = false ->
   Z.of_nat (length (inBuf (st c))) < listRInputBuffer ->
   inBuf (afterSendJob job (st c)) = inBuf (st c) ++ [job] /\
   overflow (afterSendJob job (st c)) = overflow (st c) /\
   wg (afterSendJob job (st c)) = wg (st c) + 1).
Proof.
  intros Hreach. destruct (reachable_chanInv _ _ _ _ _ Hreach) as [Hchan Hwg].
  split; [|split; [|split; [|split]]].
  - destruct (mu (st c)) eqn:Hmu.
    + unfold sendJob, bind, mu_Lock. by rewrite Hmu.
    + by apply sendJob_run.
  - intros Hclosed. destruct (inNil (st c)); [done|].
    rewrite Hchan in Hclosed; done.
  - intros Hnil. unfold afterSendJob. by rewrite Hnil.
  - intros Hnil Hfull. unfold afterSendJob. rewrite Hnil.
    destruct (Z.of_nat (length (inBuf (st c))) <? listRInputBuffer) eqn:E;
      [apply Z.ltb_lt in E; lia | done].
  - intros Hnil Hroom. unfold afterSendJob. rewrite Hnil.
    destruct (Z.of_nat (length (inBuf (st c))) <? listRInputBuffer) eqn:E;
      [done | apply Z.ltb_ge in E; lia].
Qed.

End SendJob.

(** ** After the listing of a batch: regrouping *)

Section Regroup.
Import Samples.


Lemma sendable_frame (s s' : State) :
  mu s' = mu s -> inNil s' = inNil s -> inClosed s' = inClosed s ->
  wg s' = wg s -> sendable s -> sendable s'.
Proof. unfold sendable. intros -> -> -> ->. done. Qed.













(** A listing whose pages hold no item never calls the function: it leaves
    the function's variables as they are and adds to the trace only. *)
Lemma listPages_no_items {A : Type} (f : Fs) (stems : list string)
    (fn : File -> A -> M State (A * bool)) (pages : list FileList) :
  forall (fuel : nat) (req : listRequest) (a : A) (s : State),
    chainFrom f req pages -> Forall (fun p => Files p = []) pages ->
    (length pages <= fuel)%nat ->
    exists new,
      listPages fuel f req stems fn a s
      = Ret (a, (false, None)) (set_trace (trace s ++ new) s).
Proof.
  induction pages as [|p rest IH]; intros fuel req a s Hchain Hnone Hfuel;
    [destruct Hchain|].
  destruct fuel as [|fuel]; [simpl in Hfuel; lia|].
  destruct Hchain as [Hdo Hrest]. apply Forall_cons in Hnone as [Hp Hnone].
  simpl. unfold listDo. unfold bind at 1. unfold bind at 1.
  unfold emit, modify, ret. rewrite Hdo.
  set (log := if IncompleteSearch p
              then [EvErrorf "search result INCOMPLETE"] else []).
  set (s1 := set_trace (trace s ++ [EvFilesList (reqDirIDs req)
                                      (reqPageToken req)]) s).
  set (s2 := set_trace (trace s ++ EvFilesList (reqDirIDs req)
                          (reqPageToken req) :: log) s).
  assert (Hlog : (if IncompleteSearch p
                  then emit (EvErrorf "search result INCOMPLETE")
                  else Go.ret tt) s1 = Ret tt s2).
  { subst s1 s2 log. destruct (IncompleteSearch p).
    - unfold emit, modify. simpl. by rewrite <- app_assoc.
    - reflexivity. }
  rewrite (bind_Ret _ _ _ _ _ Hlog). rewrite Hp. simpl.
  unfold bind at 1. unfold Go.ret at 1.
  destruct (String.eqb_spec (NextPageToken p) "") as [Htok|Htok].
  - by eexists.
  - destruct rest as [|p' rest']; [done|]. destruct Hrest as [_ Hrest].
    destruct (IH fuel (withPageToken (NextPageToken p) req) a s2)
      as [new ->]; [exact Hrest | exact Hnone | simpl in *; lia |].
    exists ((EvFilesList (reqDirIDs req) (reqPageToken req) :: log) ++ new).
    subst s2. simpl. by rewrite <- app_assoc.
Qed.

(** A round of the worker on a batch for which the remote side has no item
    goes on as [afterList] says for [foundItems = false]. *)
Lemma listRBatch_no_items (fuel : nat) (f : Fs)
    (cb : DirEntry -> M State (option error))
    (sendJob' : listREntry -> M State unit) (dirs0 paths0 : list string)
    (g : Z) (s : State) (sorted : listRSlices) (pages : list FileList) :
  listRSlices_Sort {| dirs := dirs0; paths := paths0 |} = Some sorted ->
  chainFrom f {| reqDirIDs := dirs sorted; reqTitle := "";
                 reqDirectoriesOnly := false; reqFilesOnly := false;
                 reqTrashedOnly := TrashedOnly (opt f);
                 reqIncludeAll := false; reqPageToken := "" |} pages ->
  Forall (fun p => Files p = []) pages ->
  (length pages <= fuel)%nat ->
  exists new,
    listRBatch fuel f cb sendJob' dirs0 paths0 g s
    = (afterList sendJob' (dirs sorted) (paths sorted) g false ;;
       ret (None, None)) (set_trace (trace s ++ new) s).
Proof.
  intros Hsort Hchain Hnone Hfuel. unfold listRBatch, Fs_list.
  rewrite Hsort.
  edestruct (listPages_no_items f
               (exportStems f "" false)
               (listRClosure f cb (dirs sorted) (paths sorted)) pages fuel _
               {| foundItems := false; iErr := None |} s Hchain Hnone Hfuel)
    as [new Hrun].
  exists new. by rewrite (bind_Ret _ _ _ _ _ Hrun).
Qed.

End Regroup.

(** ** ListR: the report of the first error *)

Section ListR.
Import Samples.

Lemma runSchedule_steps (fuel : nat) (f : Fs)
    (callback : DirEntry -> option error) (sched : list tid) :
  forall c c',
    runSchedule fuel f callback sched c = Some c' ->
    rtc (step f callback) c c'.
Proof.
  induction sched as [|t sched IH]; intros c c' H; simpl in H.
  - simplify_eq. apply rtc_refl.
  - destruct (stepThread fuel f callback t c) as [c1|] eqn:Hstep; [|done].
    eapply rtc_l; [by exists fuel, t | by apply IH].
Qed.

Lemma runSchedule_app (fuel : nat) (f : Fs)
    (callback : DirEntry -> option error) (s1 s2 : list tid) (c : Config) :
  runSchedule fuel f callback (s1 ++ s2) c
  = match runSchedule fuel f callback s1 c with
    | Some c' => runSchedule fuel f callback s2 c'
    | None => None
    end.
Proof.
  revert c. induction s1 as [|t s1 IH]; intros c; simpl; [done|].
  destruct (stepThread fuel f callback t c); [apply IH | done].
Qed.

Lemma sendJob_never_blocks_witness :
  exists c,
    reachable failingFs acceptAll "" newFsState c /\
    inNil (st c) = true /\ inClosed (st c) = true /\
    sendJob {| id := "d5"; path := "docs" |} (st c) = Ret tt (st c).
Proof.
  destruct (runSchedule 1 failingFs acceptAll keptErrorSchedule
              (startOf failingFs "" newFsState)) as [c|] eqn:Hrun;
    [|by vm_compute in Hrun].
  assert (Hreach : reachable failingFs acceptAll "" newFsState c).
  { exists (startOf failingFs "" newFsState).
    split; [reflexivity | by eapply runSchedule_steps]. }
  assert (Hfacts : inNil (st c) = true /\ inClosed (st c) = true /\
                   mu (st c) = false).
  { clear Hreach. vm_compute in Hrun. by simplify_eq. }
  destruct Hfacts as (Hn & Hc & Hm).
  destruct (sendJob_never_blocks failingFs acceptAll "" newFsState c
              {| id := "d5"; path := "docs" |} Hreach)
    as (Hsend & _ & Hnil & _).
  exists c. split; [exact Hreach|]. split; [exact Hn|]. split; [exact Hc|].
  rewrite Hsend, Hm. f_equal. exact (Hnil Hn).
Defined.

(** C1 fails on the code.  The remote side refuses the listing of the root
    directory.  The worker takes that error and is about to report it; the
    counter of outstanding work is at zero by then, so the feeding goroutine
    may close the channel and set it to nil first, and [ListR], which records
    a report only while the channel is not nil, returns nil.  When the report
    is looked at first, [ListR] returns the error. *)
Theorem ListR_loses_error :
  ListR_start failingFs "" newFsState
  = Ok (startOf failingFs "" newFsState) /\
  outcome (runSchedule 1 failingFs acceptAll workerListsRoot
             (startOf failingFs "" newFsState))
  = Some (MRecv 0, CWait,
          [WOut (Some (Wrapf "couldn't list directory" quotaError))], None) /\
  outcome (runSchedule 1 failingFs acceptAll lostErrorSchedule
             (startOf failingFs "" newFsState))
  = Some (MReturned None, CExit, [WExit], None) /\
  outcome (runSchedule 1 failingFs acceptAll keptErrorSchedule
             (startOf failingFs "" newFsState))
  = Some (MReturned (Some (Wrapf "couldn't list directory" quotaError)),
          CExit, [WExit], None).
Proof. repeat split; vm_compute; reflexivity. Qed.

(** The same in terms of the steps: a configuration in which the worker holds
    the error to report can be reached, and from it one in which [ListR] has
    returned nil. *)
Lemma ListR_nil_despite_error :
  exists c' c,
    reachable failingFs acceptAll "" newFsState c' /\
    workers c' = [WOut (Some (Wrapf "couldn't list directory" quotaError))] /\
    rtc (step failingFs acceptAll) c' c /\
    mainpc c = MReturned None.
Proof.
  destruct (runSchedule 1 failingFs acceptAll workerListsRoot
              (startOf failingFs "" newFsState)) as [c'|] eqn:Hrun1;
    [|by vm_compute in Hrun1].
  destruct (runSchedule 1 failingFs acceptAll
              [TCoord; TCoord; TCoord; TWorker 0; TMain; TMain; TMain] c')
    as [c|] eqn:Hrun2.
  - exists c', c. split; [|split; [|split]].
    + exists (startOf failingFs "" newFsState).
      split; [reflexivity | by eapply runSchedule_steps].
    + vm_compute in Hrun1. by simplify_eq.
    + by eapply runSchedule_steps.
    + vm_compute in Hrun1. simplify_eq. vm_compute in Hrun2. by simplify_eq.
  - vm_compute in Hrun1. simplify_eq; by vm_compute in Hrun2.
Qed.

(** *** ListR returns after its workers *)

Lemma outBuf_frame (ob : list (option error)) (s s' : State) :
  inNil s' = inNil s -> inClosed s' = inClosed s -> outBuf s' = outBuf s ->
  wg s' = wg s -> outBuf s = ob -> outBuf s' = ob.
Proof. by intros _ _ -> _. Qed.

Lemma outBuf_wg_Add (ob : list (option error)) (delta : Z) :
  preserves (fun s => outBuf s = ob) (wg_Add delta).
Proof.
  intros s a s' HP H. unfold wg_Add in H.
  destruct (wg s + delta <? 0); by simplify_eq.
Qed.

Lemma outBuf_in_send (ob : list (option error)) (d : listREntry) :
  preserves (fun s => outBuf s = ob) (in_send d).
Proof.
  intros s a s' HP H. unfold in_send in H.
  destruct (inNil s); [done|]. destruct (inClosed s); [done|].
  destruct (Z.of_nat (length (inBuf s)) <? listRInputBuffer); by simplify_eq.
Qed.

Lemma outBuf_in_closeAndNil (ob : list (option error)) :
  preserves (fun s => outBuf s = ob) in_closeAndNil.
Proof.
  intros s a s' HP H. unfold in_closeAndNil in H.
  destruct (inClosed s); by simplify_eq.
Qed.

Lemma outBuf_mu_Lock (ob : list (option error)) :
  preserves (fun s => outBuf s = ob) mu_Lock.
Proof. exact (frame_mu_Lock _ (outBuf_frame ob)). Qed.

Lemma outBuf_mu_Unlock (ob : list (option error)) :
  preserves (fun s => outBuf s = ob) mu_Unlock.
Proof. exact (frame_mu_Unlock _ (outBuf_frame ob)). Qed.

Ltac out_step :=
  match goal with
  | |- preserves _ (bind _ _) => apply preserves_bind; [|intros]
  | |- preserves _ (Go.ret _) => apply preserves_ret
  | |- preserves _ block => apply preserves_block
  | |- preserves _ (gets _) => apply preserves_gets
  | |- preserves _ (modify _) =>
      apply preserves_modify; intros ? ?; assumption
  | |- preserves _ (match ?x with _ => _ end) => destruct x
  | |- preserves _ _ =>
      solve [auto using outBuf_wg_Add, outBuf_in_send, outBuf_in_closeAndNil,
               outBuf_mu_Lock, outBuf_mu_Unlock]
  end.

Lemma outBuf_coordStep (ob : list (option error)) (pc : coordPC) :
  preserves (fun s => outBuf s = ob) (coordStep pc).
Proof.
  destruct pc as [| | |rest l| |]; simpl.
  - intros s a s' HP H. destruct (wg s =? 0); by simplify_eq.
  - repeat out_step.
  - repeat out_step.
  - destruct rest; repeat out_step.
  - repeat out_step.
  - repeat out_step.
Qed.

Lemma bind_inv {St A B : Type} (m : M St A) (k : A -> M St B) (s s' : St)
    (b : B) :
  bind m k s = Ret b s' -> exists a s1, m s = Ret a s1 /\ k a s1 = Ret b s'.
Proof.
  unfold bind. destruct (m s) as [a s1| | |]; try done. by exists a, s1.
Qed.

(** A step of a worker either is its report, which adds to [out] and ends
    the worker, or leaves [out] alone and the worker alive. *)
Lemma workerStep_out (fuel : nat) (f : Fs)
    (callback : DirEntry -> option error) (pc pc' : workerPC) (s s' : State) :
  workerStep fuel f callback pc s = Ret pc' s' ->
  (exists e, pc = WOut e /\ pc' = WExit /\ outBuf s' = outBuf s ++ [e]) \/
  (isExit pc = false /\ isExit pc' = false /\ outBuf s' = outBuf s).
Proof.
  intros H.
  assert (Hframe : (forall e, pc <> WOut e) -> outBuf s' = outBuf s).
  { intros Hne.
    eapply (frame_workerStep (fun st => outBuf st = outBuf s)
              (outBuf_frame (outBuf s)) (outBuf_wg_Add (outBuf s))
              fuel f callback pc Hne); [reflexivity | exact H]. }
  destruct pc as [|ds ps g i|ds ps g|e|].
  - right. split; [done|]. split; [|by apply Hframe]. simpl in H.
    destruct (inBuf s); [|by simplify_eq].
    destruct (inClosed s); by simplify_eq.
  - right. split; [done|]. split; [|by apply Hframe]. simpl in H.
    destruct (i <? g); [|unfold Go.ret in H; by simplify_eq].
    destruct (inBuf s); [|by simplify_eq].
    destruct (inClosed s); by simplify_eq.
  - right. split; [done|]. split; [|by apply Hframe]. simpl in H.
    apply bind_inv in H as ([iE e] & s1 & _ & H).
    unfold Go.ret in H. destruct iE, e; by simplify_eq.
  - left. exists e. simpl in H.
    destruct (length (outBuf s) <? ci_Checkers f)%nat; by simplify_eq.
  - done.
Qed.

Lemma mainStep_out (f : Fs) (pc pc' : mainPC) (s s' : State) :
  mainStep f pc s = Ret pc' s' ->
  match pc with
  | MRecv i =>
      ((i < ci_Checkers f)%nat /\
       exists e, outBuf s = e :: outBuf s' /\ pc' = MCheck i e) \/
      ((ci_Checkers f <= i)%nat /\ outBuf s' = outBuf s /\
       exists r, pc' = MReturned r)
  | MCheck i e => pc' = MRecv (S i) /\ outBuf s' = outBuf s
  | MReturned _ => False
  end.
Proof.
  intros H. destruct pc as [i|i e|r]; simpl in H.
  - destruct (Nat.ltb_spec i (ci_Checkers f)) as [Hlt|Hge].
    + left. split; [done|]. destruct (outBuf s) as [|e rest]; [done|].
      simplify_eq. by exists e.
    + right. split; [done|]. unfold bind, gets, list_Flush, Go.ret in H.
      destruct (err s); simplify_eq; eauto.
  - split.
    + apply bind_inv in H as (? & ? & _ & H).
      apply bind_inv in H as (? & ? & _ & H).
      apply bind_inv in H as (? & ? & _ & H).
      apply bind_inv in H as (? & ? & _ & H).
      unfold Go.ret in H. by simplify_eq.
    + assert (Hp : preserves (fun st => outBuf st = outBuf s)
                     (mainStep f (MCheck i e))) by (simpl; repeat out_step).
      by eapply Hp.
  - done.
Qed.

Lemma exitedCount_le (ws : list workerPC) :
  (exitedCount ws <= length ws)%nat.
Proof. unfold exitedCount. apply length_filter. Qed.

Lemma exitedCount_all (ws : list workerPC) :
  exitedCount ws = length ws -> Forall (fun w => w = WExit) ws.
Proof.
  induction ws as [|w ws IH]; [constructor|].
  unfold exitedCount in *. rewrite filter_cons.
  pose proof (length_filter (fun w => isExit w = true) ws) as Hle.
  destruct w; simpl; try (intros; lia).
  intros [= H]. constructor; auto.
Qed.

Lemma exitedCount_insert (ws : list workerPC) (n : nat) (w w' : workerPC) :
  ws !! n = Some w ->
  (exitedCount (<[n:=w']> ws) + (if isExit w then 1 else 0)
   = exitedCount ws + (if isExit w' then 1 else 0))%nat.
Proof.
  revert n. induction ws as [|x ws IH]; intros [|n] Hn; simplify_eq/=.
  - unfold exitedCount. rewrite !filter_cons.
    destruct (isExit w), (isExit w'); simpl; lia.
  - specialize (IH n Hn). unfold exitedCount in *. rewrite !filter_cons.
    destruct (decide (isExit x = true)); simpl; lia.
Qed.

Lemma exitedCount_start (k : nat) : exitedCount (replicate k WRange) = 0%nat.
Proof.
  unfold exitedCount. induction k as [|k IH]; [done|].
  change (replicate (S k) WRange) with (WRange :: replicate k WRange).
  rewrite filter_cons, decide_False by done. exact IH.
Qed.

Lemma step_reportInv (f : Fs) (callback : DirEntry -> option error)
    (c c' : Config) :
  reportInv f c -> step f callback c c' -> reportInv f c'.
Proof.
  intros [Hlen Hcount] (fuel & t & H). unfold stepThread in H.
  destruct (crashed c); [done|]. unfold stepWith in H.
  destruct t as [| |n].
  - destruct (mainStep f (mainpc c) (st c)) as [pc' s'| | |] eqn:Hstep;
      simplify_eq; [|by split].
    apply mainStep_out in Hstep. unfold reportInv. simpl.
    split; [done|].
    destruct (mainpc c) as [i|i e|r]; simpl in *.
    + destruct Hstep as [(Hlt & e & Hout & ->)|(Hge & Hout & r & ->)]; simpl.
      * rewrite Hout in Hcount. simpl in Hcount. lia.
      * pose proof (exitedCount_le (workers c)). rewrite Hout. lia.
    + destruct Hstep as [-> Hout]. simpl. rewrite Hout. lia.
    + done.
  - destruct (coordStep (coordpc c) (st c)) as [pc' s'| | |] eqn:Hstep;
      simplify_eq; [|by split].
    unfold reportInv. simpl. split; [done|].
    by rewrite (outBuf_coordStep (outBuf (st c)) _ _ _ _ eq_refl Hstep).
  - destruct (workers c !! n) as [w|] eqn:Hw; [|done].
    destruct (workerStep fuel f callback w (st c)) as [pc' s'| | |] eqn:Hstep;
      simplify_eq; [|by split].
    unfold reportInv. simpl. rewrite length_insert. split; [done|].
    pose proof (exitedCount_insert (workers c) n w pc' Hw) as Hins.
    apply workerStep_out in Hstep
      as [(e & -> & -> & Hout)|(Hw1 & Hw2 & Hout)]; rewrite Hout.
    + rewrite length_app. simpl in *. lia.
    + rewrite Hw1, Hw2 in Hins. lia.
Qed.

(** [ListR] returns only when every worker has gone: it has taken one report
    from each. *)
Lemma ListR_returns_after_workers (f : Fs)
    (callback : DirEntry -> option error) (dir : string) (s0 : State)
    (c : Config) (r : option error) :
  reachable f callback dir s0 c -> mainpc c = MReturned r ->
  Forall (fun w => w = WExit) (workers c) /\ outBuf (st c) = [].
Proof.
  intros (c0 & Hstart & Hsteps) Hret.
  assert (H0 : reportInv f c0).
  { unfold ListR_start in Hstart.
    destruct (dirCache_FindDir f dir); simplify_eq.
    unfold reportInv. simpl. rewrite length_replicate.
    split; [done | apply exitedCount_start]. }
  assert (Hinv : reportInv f c).
  { clear Hstart Hret. induction Hsteps as [|c1 c2 c3 Hstep _ IH]; [done|].
    apply IH. by eapply step_reportInv. }
  destruct Hinv as [Hlen Hcount]. rewrite Hret in Hcount. simpl in Hcount.
  pose proof (exitedCount_le (workers c)).
  split; [apply exitedCount_all; lia|].
  destruct (outBuf (st c)); [done | simpl in *; lia].
Qed.

End ListR.

(** * Further properties *)

(** ** Composite IDs as the callers use them *)

Section CodecUse.
Import ID.

Lemma sliceTo_IndexByte_free (s : string) (c : ascii) :
  0 <= IndexByte s c -> ~ occurs c (sliceTo s (Z.to_nat (IndexByte s c))).
Proof.
  induction s as [|x s IH]; simpl; [lia|].
  destruct (Ascii.eqb_spec x c) as [->|Hne]; [simpl; tauto|].
  destruct (IndexByte s c <? 0) eqn:E; [lia|].
  apply Z.ltb_ge in E. intros _.
  replace (Z.to_nat (IndexByte s c + 1)) with (S (Z.to_nat (IndexByte s c)))
    by lia.
  simpl. intros [H|H]; [done | by apply IH].
Qed.

Lemma actualID_sepFree (i : string) : sepFree (actualID i).
Proof.
  unfold actualID, splitID, IndexRune.
  destruct (IndexByte i shortcutSeparator <? 0) eqn:E; simpl.
  - apply Z.ltb_lt in E. intros H. apply IndexByte_present in H. lia.
  - apply Z.ltb_ge in E. by apply sliceTo_IndexByte_free.
Qed.

(** X1: the actual ID of any composite ID is a plain ID, whatever the
    composite looks like (a second separator stays in the shortcut part):
    it holds no separator, it is no shortcut ID, and unpacking it again
    ([actualID], [shortcutID]) changes nothing. *)
Theorem actualID_plain (i : string) :
  ID.sepFree (ID.actualID i) /\
  ID.isShortcutID (ID.actualID i) = false /\
  ID.actualID (ID.actualID i) = ID.actualID i /\
  ID.shortcutID (ID.actualID i) = ID.actualID i /\
  ID.splitID (ID.actualID i) = (ID.actualID i, "").
Proof.
  pose proof (actualID_sepFree i) as H.
  pose proof (splitID_plain _ H) as E.
  split; [exact H|]. split; [by apply isShortcutID_plain|].
  unfold shortcutID. unfold actualID at 1. rewrite E. by repeat split.
Qed.

End CodecUse.

(** ** Extensions and export formats *)

Section FormatsProps.
Import GoStrings Formats.

Lemma containsString_elem (slice : list string) (s : string) :
  containsString slice s = true <-> s ∈ slice.
Proof.
  induction slice as [|e rest IH]; simpl.
  - split; [done | by intros ?%elem_of_nil].
  - rewrite elem_of_cons. destruct (String.eqb_spec e s) as [->|Hne].
    + tauto.
    + rewrite IH. split; [tauto | intros [?|?]; [congruence | done]].
Qed.

Lemma extensionOf_dotted (lib : Library) (piece : string) :
  extensionOf lib piece <> "" -> HasPrefix (extensionOf lib piece) "." = true.
Proof.
  unfold extensionOf.
  destruct (ToLower lib (TrimSpace lib piece)) as [|c e]; [done|].
  destruct (Ascii.eqb_spec c "."%char) as [->|Hne]; simpl; [by destruct e | done].
Qed.

Lemma extensionOf_blank (lib : Library) (piece : string) :
  extensionOf lib piece = "" <-> ToLower lib (TrimSpace lib piece) = "".
Proof.
  unfold extensionOf.
  destruct (ToLower lib (TrimSpace lib piece)) as [|c e]; [done|].
  destruct (negb (Ascii.eqb c ".")); split; discriminate.
Qed.

(** One round of the inner loop, in terms of [extensionOf]. *)
Lemma parsePieces_cons (lib : Library) (piece : string) (rest : list string)
    (exts mts : list string) :
  parsePieces lib (piece :: rest) exts mts
  = let ext := extensionOf lib piece in
    if String.eqb ext "" then parsePieces lib rest exts mts
    else if String.eqb (TypeByExtension lib ext) "" then
      (exts, mts,
       Some (PlainError ("couldn't find MIME type for extension "
                         +:+ Quote lib ext)))
    else if negb (containsString exts ext) then
      parsePieces lib rest (exts ++ [ext]) (mts ++ [TypeByExtension lib ext])
    else parsePieces lib rest exts mts.
Proof.
  simpl. unfold extensionOf.
  destruct (ToLower lib (TrimSpace lib piece)) as [|c e]; [done|].
  change (String.eqb (String c e) "") with false. cbv iota.
  destruct (negb (Ascii.eqb c ".")); reflexivity.
Qed.

Lemma parsePieces_inv (lib : Library) (pieces : list string) :
  forall exts mts exts' mts' e,
    slicesInv lib exts mts ->
    parsePieces lib pieces exts mts = (exts', mts', e) ->
    slicesInv lib exts' mts'.
Proof.
  induction pieces as [|piece rest IH]; intros exts mts exts' mts' e Hinv H.
  - simpl in H. by simplify_eq.
  - rewrite parsePieces_cons in H. cbv zeta in H.
    destruct (String.eqb_spec (extensionOf lib piece) "") as [Hb|Hb];
      [by eapply IH|].
    destruct (String.eqb_spec (TypeByExtension lib (extensionOf lib piece)) "")
      as [Ht|Ht]; [by simplify_eq|].
    destruct (containsString exts (extensionOf lib piece)) eqn:Hc; simpl in H;
      [by eapply IH|].
    eapply IH; [|exact H].
    destruct Hinv as (Hnd & Hmt & Hdot & Hne).
    split; [|split; [|split]].
    + apply NoDup_app. split; [done|]. split; [|apply NoDup_singleton].
      intros x Hx ->%list_elem_of_singleton.
      apply containsString_elem in Hx. congruence.
    + by rewrite fmap_app, Hmt.
    + apply Forall_app. split; [done|]. apply Forall_singleton.
      by apply extensionOf_dotted.
    + apply Forall_app. split; [done|]. by apply Forall_singleton.
Qed.

Lemma parseTexts_inv (lib : Library) (texts : list string) :
  forall exts mts exts' mts' e,
    slicesInv lib exts mts ->
    parseTexts lib texts exts mts = (exts', mts', e) ->
    slicesInv lib exts' mts'.
Proof.
  induction texts as [|text rest IH]; intros exts mts exts' mts' e Hinv H.
  - simpl in H. by simplify_eq.
  - simpl in H.
    destruct (parsePieces lib (Split text ",") exts mts) as [[exts1 mts1] e1]
      eqn:Hp.
    pose proof (parsePieces_inv _ _ _ _ _ _ _ Hinv Hp) as Hinv1.
    destruct e1; [by simplify_eq | by eapply IH].
Qed.

(** X2: whatever its arguments, and whether it fails or not,
    [parseExtensions] returns extensions that are pairwise different and
    start with a dot, together with one MIME type for each, the one the
    library has for the extension, which is never empty. *)
Theorem parseExtensions_unique_dotted (lib : GoStrings.Library)
    (extensionsIn : list string) :
  let '(extensions, mimeTypes, _) :=
    Formats.parseExtensions lib extensionsIn in
  NoDup extensions /\
  mimeTypes = GoStrings.TypeByExtension lib <$> extensions /\
  Forall (fun e => GoStrings.HasPrefix e "." = true) extensions /\
  Forall (fun mt => mt <> "") mimeTypes.
Proof.
  destruct (parseExtensions lib extensionsIn) as [[exts mts] e] eqn:H.
  apply (parseTexts_inv lib extensionsIn [] [] exts mts e); [|exact H].
  split; [apply NoDup_nil_2|]. by repeat split.
Qed.

Lemma fromPieces_cons (lib : Library) (piece : string) (rest : list string)
    (ext : string) :
  (exists p, p ∈ piece :: rest /\ extensionOf lib p = ext) <->
  extensionOf lib piece = ext \/
  (exists p, p ∈ rest /\ extensionOf lib p = ext).
Proof.
  split.
  - intros (p & [->|Hp]%elem_of_cons & Hp'); [by left | right; eauto].
  - intros [H|(p & Hp & Hp')].
    + exists piece. split; [apply elem_of_cons; by left | done].
    + exists p. split; [apply elem_of_cons; by right | done].
Qed.

Lemma fromPieces_app (lib : Library) (l1 l2 : list string) (ext : string) :
  (exists p, p ∈ l1 ++ l2 /\ extensionOf lib p = ext) <->
  (exists p, p ∈ l1 /\ extensionOf lib p = ext) \/
  (exists p, p ∈ l2 /\ extensionOf lib p = ext).
Proof.
  split.
  - intros (p & [Hp|Hp]%elem_of_app & Hp'); [left | right]; eauto.
  - intros [(p & Hp & Hp')|(p & Hp & Hp')]; exists p;
      (split; [apply elem_of_app; tauto | done]).
Qed.

Lemma fromPieces_nil (lib : Library) (ext : string) :
  ~ (exists p, p ∈ @nil string /\ extensionOf lib p = ext).
Proof. intros (p & Hp & _). by apply elem_of_nil in Hp. Qed.

Lemma parsePieces_exact (lib : Library) (pieces : list string) :
  forall exts mts exts' mts' e,
    parsePieces lib pieces exts mts = (exts', mts', e) ->
    (e = None <-> Forall (knownPiece lib) pieces) /\
    (e = None ->
     forall ext, ext ∈ exts' <->
       ext ∈ exts \/
       (ext <> "" /\ exists piece,
          piece ∈ pieces /\ extensionOf lib piece = ext)).
Proof.
  induction pieces as [|piece rest IH]; intros exts mts exts' mts' e H.
  - simpl in H. simplify_eq. split; [by split|]. intros _ ext.
    pose proof (fromPieces_nil lib ext). tauto.
  - rewrite parsePieces_cons in H. cbv zeta in H.
    destruct (String.eqb_spec (extensionOf lib piece) "") as [Hb|Hb].
    { destruct (IH _ _ _ _ _ H) as [He Hin]. split.
      - rewrite He, Forall_cons. unfold knownPiece at 2. tauto.
      - intros Hn ext. rewrite (Hin Hn ext), fromPieces_cons.
        split; [tauto|]. intros [?|(Hne & [Hp|Hp])]; [tauto|congruence|tauto]. }
    destruct (String.eqb_spec (TypeByExtension lib (extensionOf lib piece)) "")
      as [Ht|Ht].
    { simplify_eq. split; [|done]. split; [done|].
      intros [Hk _]%Forall_cons. by apply Hk in Hb. }
    assert (Hk : knownPiece lib piece) by (by intros _).
    destruct (containsString exts (extensionOf lib piece)) eqn:Hc; simpl in H.
    { apply containsString_elem in Hc.
      destruct (IH _ _ _ _ _ H) as [He Hin]. split.
      - rewrite He, Forall_cons. tauto.
      - intros Hn ext. rewrite (Hin Hn ext), fromPieces_cons.
        split; [tauto|]. intros [?|(Hne & [Hp|Hp])]; [tauto| |tauto].
        left. by rewrite <- Hp. }
    destruct (IH _ _ _ _ _ H) as [He Hin]. split.
    + rewrite He, Forall_cons. tauto.
    + intros Hn ext.
      rewrite (Hin Hn ext), elem_of_app, list_elem_of_singleton,
        fromPieces_cons.
      split.
      * intros [[?| ->]|?]; tauto.
      * intros [?|(Hne & [Hp|Hp])]; [tauto| |tauto]. left. by right.
Qed.

Lemma parseTexts_exact (lib : Library) (texts : list string) :
  forall exts mts exts' mts' e,
    parseTexts lib texts exts mts = (exts', mts', e) ->
    (e = None <-> Forall (knownPiece lib) (piecesOf texts)) /\
    (e = None ->
     forall ext, ext ∈ exts' <->
       ext ∈ exts \/
       (ext <> "" /\ exists piece,
          piece ∈ piecesOf texts /\ extensionOf lib piece = ext)).
Proof.
  induction texts as [|text rest IH]; intros exts mts exts' mts' e H.
  - simpl in H. simplify_eq. split; [by split|]. intros _ ext.
    pose proof (fromPieces_nil lib ext). tauto.
  - simpl in H. unfold piecesOf. rewrite bind_cons. fold (piecesOf rest).
    destruct (parsePieces lib (Split text ",") exts mts) as [[exts1 mts1] e1]
      eqn:Hp.
    destruct (parsePieces_exact _ _ _ _ _ _ _ Hp) as [He1 Hin1].
    destruct e1 as [err|].
    + simplify_eq. split; [|done]. split; [done|].
      intros [Hk _]%Forall_app. by apply He1 in Hk.
    + destruct (IH _ _ _ _ _ H) as [He Hin]. split.
      * rewrite He, Forall_app. tauto.
      * intros Hn ext.
        rewrite (Hin Hn ext), (Hin1 eq_refl ext), fromPieces_app. tauto.
Qed.

(** X3: [parseExtensions] fails exactly when some piece of its arguments
    that is not blank has an extension without MIME type; when it succeeds,
    the extensions it returns are those of the pieces that are not blank, no
    more and no less. *)
Theorem parseExtensions_exact (lib : GoStrings.Library)
    (extensionsIn extensions mimeTypes : list string) (e : option error) :
  Formats.parseExtensions lib extensionsIn = (extensions, mimeTypes, e) ->
  (e = None <->
   Forall (Formats.knownPiece lib) (Formats.piecesOf extensionsIn)) /\
  (e = None ->
   forall ext, ext ∈ extensions <->
     ext <> "" /\ exists piece,
       piece ∈ Formats.piecesOf extensionsIn /\
       Formats.extensionOf lib piece = ext).
Proof.
  intros H. destruct (parseTexts_exact lib _ _ _ _ _ _ H) as [He Hin].
  split; [exact He|]. intros Hn ext. rewrite (Hin Hn ext).
  split; [intros [?%elem_of_nil|?]; done | by right].
Qed.

Lemma parseExtensions_exact_witness :
  Formats.parseExtensions Cases.asciiLibrary [" docx, PDF"; "svg,,.docx"]
  = ([".docx"; ".pdf"; ".svg"],
     ["application/vnd.openxmlformats-officedocument.wordprocessingml.document";
      "application/pdf"; "image/svg+xml"], None) /\
  (".pdf" ∈ [".docx"; ".pdf"; ".svg"] <->
   ".pdf" <> "" /\ exists piece,
     piece ∈ Formats.piecesOf [" docx, PDF"; "svg,,.docx"] /\
     Formats.extensionOf Cases.asciiLibrary piece = ".pdf").
Proof.
  split; [reflexivity|].
  exact (proj2 (parseExtensions_exact Cases.asciiLibrary
                  [" docx, PDF"; "svg,,.docx"] _ _ None eq_refl)
           eq_refl ".pdf").
Defined.

Lemma matchExport_elem (mt : string) (emts : list string) (emt : string) :
  matchExport mt emts = Some emt ->
  emt ∈ emts /\ (emt = mt \/ mt = mimeTypeCustomTransform emt).
Proof.
  induction emts as [|e rest IH]; simpl; [done|].
  destruct (String.eqb_spec e mt) as [->|Hne].
  { intros [= <-]. split; [apply elem_of_cons; by left | by left]. }
  destruct (String.eqb_spec mt (mimeTypeCustomTransform e)) as [Hc|Hc].
  { intros [= <-]. split; [apply elem_of_cons; by left | by right]. }
  intros H. destruct (IH H) as [Hin Hor].
  split; [apply elem_of_cons; by right | done].
Qed.

Lemma documentLoop_first (lib : Library) (emts exts : list string)
    (ext emt : string) :
  documentLoop lib emts exts = Some (ext, emt) ->
  exists before after,
    exts = before ++ ext :: after /\
    Forall (fun e => usable lib emts e = false) before /\
    usable lib emts ext = true /\
    (if isLinkMimeType (TypeByExtension lib ext)
     then emt = TypeByExtension lib ext
     else matchExport (TypeByExtension lib ext) emts = Some emt).
Proof.
  induction exts as [|e rest IH]; simpl; [done|]. unfold usable.
  destruct (isLinkMimeType (TypeByExtension lib e)) eqn:Hl.
  { intros [= <- <-]. exists [], rest. rewrite Hl. by repeat split. }
  destruct (matchExport (TypeByExtension lib e) emts) as [m|] eqn:Hm.
  { intros [= <- <-]. exists [], rest. rewrite Hl, Hm. by repeat split. }
  intros H. destruct (IH H) as (before & after & -> & Hb & Hu & Hk).
  exists (e :: before), after. split; [done|].
  split; [|done]. constructor; [|done]. unfold usable. by rewrite Hl, Hm.
Qed.

Lemma documentLoop_none (lib : Library) (emts exts : list string) :
  documentLoop lib emts exts = None ->
  Forall (fun e => usable lib emts e = false) exts.
Proof.
  induction exts as [|e rest IH]; simpl; [constructor|].
  destruct (isLinkMimeType (TypeByExtension lib e)) eqn:Hl; [done|].
  destruct (matchExport (TypeByExtension lib e) emts) as [m|] eqn:Hm; [done|].
  intros H. constructor; [|by apply IH]. unfold usable. by rewrite Hl, Hm.
Qed.

Lemma linkLoop_first (lib : Library) (exts : list string) (ext emt : string) :
  linkLoop lib exts = Some (ext, emt) ->
  exists before after,
    exts = before ++ ext :: after /\
    Forall (fun e => isLinkMimeType (TypeByExtension lib e) = false) before /\
    isLinkMimeType (TypeByExtension lib ext) = true /\
    emt = TypeByExtension lib ext.
Proof.
  induction exts as [|e rest IH]; simpl; [done|].
  destruct (isLinkMimeType (TypeByExtension lib e)) eqn:Hl.
  { intros [= <- <-]. exists [], rest. by repeat split. }
  intros H. destruct (IH H) as (before & after & -> & Hb & Hu & Hk).
  exists (e :: before), after. split; [done|]. split; [|done].
  by constructor.
Qed.

Lemma linkLoop_none (lib : Library) (exts : list string) :
  linkLoop lib exts = None <->
  Forall (fun e => isLinkMimeType (TypeByExtension lib e) = false) exts.
Proof.
  induction exts as [|e rest IH]; simpl; [by split|].
  rewrite Forall_cons.
  destruct (isLinkMimeType (TypeByExtension lib e)) eqn:Hl;
    [split; [done | by intros [? _]] | tauto].
Qed.

Lemma usable_false_link (lib : Library) (emts exts : list string) :
  Forall (fun e => usable lib emts e = false) exts ->
  Forall (fun e => isLinkMimeType (TypeByExtension lib e) = false) exts.
Proof.
  intros H. eapply Forall_impl; [exact H|]. intros e. unfold usable.
  by intros [? _]%orb_false_iff.
Qed.

(** X4: [findExportFormatByMimeType] settles on the first of the preferred
    extensions that can be used, in the order of the option.  For a MIME type
    the drive exports, that is the first extension whose MIME type is a link
    type, or is among the export types on offer, or is what the backend turns
    one of them into; the MIME type returned is the link type, or the one on
    offer.  For any other MIME type only a link type will do.  When no
    extension can be used, the extension and the MIME type are empty and the
    item counts as a document exactly when the drive exports its type. *)
Theorem findExportFormatByMimeType_first (lib : GoStrings.Library)
    (x : Formats.Exports) (itemMimeType : string) :
  let '(extension, mimeType, isDocument) :=
    Formats.findExportFormatByMimeType lib x itemMimeType in
  match Formats.exportFormats x !! itemMimeType with
  | Some emts =>
      isDocument = true /\
      ((exists before after,
          Formats.exportExtensions x = before ++ extension :: after /\
          Forall (fun e => Formats.usable lib emts e = false) before /\
          Formats.usable lib emts extension = true /\
          if Formats.isLinkMimeType (GoStrings.TypeByExtension lib extension)
          then mimeType = GoStrings.TypeByExtension lib extension
          else mimeType ∈ emts /\
               (mimeType = GoStrings.TypeByExtension lib extension \/
                GoStrings.TypeByExtension lib extension
                = Formats.mimeTypeCustomTransform mimeType)) \/
       (Forall (fun e => Formats.usable lib emts e = false)
          (Formats.exportExtensions x) /\
        extension = "" /\ mimeType = ""))
  | None =>
      (exists before after,
         Formats.exportExtensions x = before ++ extension :: after /\
         Forall (fun e => Formats.isLinkMimeType
                            (GoStrings.TypeByExtension lib e) = false) before /\
         Formats.isLinkMimeType (GoStrings.TypeByExtension lib extension)
         = true /\
         mimeType = GoStrings.TypeByExtension lib extension /\
         isDocument = true) \/
      (Forall (fun e => Formats.isLinkMimeType
                          (GoStrings.TypeByExtension lib e) = false)
         (Formats.exportExtensions x) /\
       extension = "" /\ mimeType = "" /\ isDocument = false)
  end.
Proof.
  unfold findExportFormatByMimeType.
  destruct (exportFormats x !! itemMimeType) as [emts|].
  - destruct (documentLoop lib emts (exportExtensions x)) as [[ext emt]|]
      eqn:Hd.
    + split; [done|]. left.
      destruct (documentLoop_first _ _ _ _ _ Hd)
        as (before & after & Hx & Hb & Hu & Hk).
      exists before, after. split; [done|]. split; [done|]. split; [done|].
      destruct (isLinkMimeType (TypeByExtension lib ext)); [done|].
      by apply matchExport_elem.
    + pose proof (documentLoop_none _ _ _ Hd) as Hn.
      pose proof (proj2 (linkLoop_none lib (exportExtensions x))
                    (usable_false_link _ _ _ Hn)) as ->.
      split; [done|]. by right.
  - destruct (linkLoop lib (exportExtensions x)) as [[ext emt]|] eqn:Hl.
    + left. destruct (linkLoop_first _ _ _ _ Hl)
        as (before & after & Hx & Hb & Hu & Hk).
      exists before, after. by repeat split.
    + right. split; [by apply linkLoop_none | done].
Qed.

Lemma findExportFormatByMimeType_link (lib : Library) (x : Exports)
    (itemMimeType : string) :
  Exists (fun e => isLinkMimeType (TypeByExtension lib e) = true)
    (exportExtensions x) ->
  exists ext mt,
    findExportFormatByMimeType lib x itemMimeType = (ext, mt, true) /\
    ext ∈ exportExtensions x.
Proof.
  intros Hlink. unfold findExportFormatByMimeType.
  assert (Hno : ~ Forall (fun e => isLinkMimeType (TypeByExtension lib e)
                                   = false) (exportExtensions x)).
  { intros Hall. apply Exists_exists in Hlink as (e & He & Hl).
    rewrite Forall_forall in Hall. specialize (Hall e He). congruence. }
  assert (Hlk : forall ext mt,
            linkLoop lib (exportExtensions x) = Some (ext, mt) ->
            ext ∈ exportExtensions x).
  { intros ext mt H.
    destruct (linkLoop_first _ _ _ _ H) as (before & after & -> & _).
    apply elem_of_app. right. apply elem_of_cons. by left. }
  destruct (exportFormats x !! itemMimeType) as [emts|].
  - destruct (documentLoop lib emts (exportExtensions x)) as [[ext emt]|]
      eqn:Hd.
    + exists ext, emt. split; [done|].
      destruct (documentLoop_first _ _ _ _ _ Hd) as (before & after & -> & _).
      apply elem_of_app. right. apply elem_of_cons. by left.
    + destruct Hno. eapply usable_false_link. by apply documentLoop_none.
  - destruct (linkLoop lib (exportExtensions x)) as [[ext emt]|] eqn:Hl.
    + exists ext, emt. split; [done | by eapply Hlk].
    + destruct Hno. by apply linkLoop_none.
Qed.

(** X5: once the preferred extensions hold a link type, the backend exports
    every item that has no MD5 checksum and is no folder, whether the drive
    knows how to export its MIME type or not: [findExportFormat] calls it a
    document, gives it one of the preferred extensions, and names the export
    after the item with that extension appended. *)
Theorem findExportFormat_link_exports_all (lib : GoStrings.Library)
    (x : Formats.Exports) (item : File) :
  Exists (fun e => Formats.isLinkMimeType
                     (GoStrings.TypeByExtension lib e) = true)
    (Formats.exportExtensions x) ->
  Md5Checksum item = "" ->
  MimeType item <> driveFolderType ->
  exists extension mimeType,
    Formats.findExportFormat lib x item
    = (extension,
       if String.eqb extension "" then "" else Name item +:+ extension,
       mimeType, true) /\
    extension ∈ Formats.exportExtensions x.
Proof.
  intros Hlink Hmd5 Hfolder. unfold findExportFormat.
  rewrite Hmd5. simpl.
  destruct (String.eqb_spec (MimeType item) driveFolderType); [done|].
  destruct (findExportFormatByMimeType_link lib x (MimeType item) Hlink)
    as (ext & mt & -> & Hin).
  exists ext, mt. split; [|done]. by destruct (String.eqb ext "").
Qed.

Lemma findExportFormat_link_exports_all_witness :
  exists extension mimeType,
    Formats.findExportFormat Cases.asciiLibrary Cases.pdfExports
      Cases.drawingFile
    = (extension,
       if String.eqb extension "" then "" else "sketch" +:+ extension,
       mimeType, true) /\
    extension ∈ [".docx"; ".url"].
Proof.
  apply (findExportFormat_link_exports_all Cases.asciiLibrary
           Cases.pdfExports Cases.drawingFile).
  - right. left. reflexivity.
  - reflexivity.
  - discriminate.
Defined.

Lemma length_Split (s : string) (sep : ascii) :
  length (Split s sep) = S (countByte sep s).
Proof.
  induction s as [|x s IH]; simpl; [done|].
  destruct (Ascii.eqb x sep); simpl; [by rewrite IH|].
  destruct (Split s sep); simpl in *; lia.
Qed.

Lemma HasPrefix_append (p t : string) : HasPrefix (p +:+ t) p = true.
Proof.
  induction p as [|c p IH]; [by destruct t|].
  rewrite append_cons. simpl. by rewrite Ascii.eqb_refl, IH.
Qed.

(** X6: [driveScopes] never returns an empty slice: it returns one scope for
    each piece between the commas of the option, each of them the scope
    prefix followed by the trimmed piece, and for the empty option exactly
    the default scope. *)
Theorem driveScopes_never_empty (lib : GoStrings.Library)
    (scopesString : string) :
  Formats.driveScopes lib scopesString <> [] /\
  length (Formats.driveScopes lib scopesString)
  = S (GoStrings.countByte ","
         (if String.eqb scopesString "" then Formats.defaultScope
          else scopesString)) /\
  Forall (fun scope => GoStrings.HasPrefix scope Formats.scopePrefix = true)
    (Formats.driveScopes lib scopesString) /\
  Formats.driveScopes lib ""
  = [Formats.scopePrefix +:+ GoStrings.TrimSpace lib "drive"].
Proof.
  unfold driveScopes.
  set (s := if String.eqb scopesString "" then defaultScope else scopesString).
  assert (Hlen : length ((fun scope => scopePrefix +:+ TrimSpace lib scope)
                           <$> Split s ",") = S (countByte "," s))
    by (by rewrite length_fmap, length_Split).
  split; [|split; [exact Hlen|split; [|reflexivity]]].
  - intros Hnil. by rewrite Hnil in Hlen.
  - apply Forall_fmap, Forall_true. intros scope. apply HasPrefix_append.
Qed.

End FormatsProps.

(** ** The retry policy *)

Section RetryProps.
Import Retry.

(** X7: while the context of the call is live, [shouldRetry] asks for
    another try only for an error, which it hands back as it got it and
    without a line in the log; and it never changes the error it got except
    to mark it fatal, which it does only when one of the two stop options is
    set, together with one line in the log and the answer not to retry.
    Without an error there is no retry. *)
Theorem shouldRetry_outcomes (p : Retry.Policy) (e : option Retry.err) :
  Retry.ContextError p e = (false, e) ->
  let '(retry, e', log) := Retry.shouldRetry p e in
  (retry = true -> e' = e /\ e <> None /\ log = []) /\
  (e' <> e ->
   retry = false /\
   (exists err, e = Some err /\ e' = Some (Retry.Fatal err)) /\
   length log = 1%nat /\
   Retry.StopOnUploadLimit p || Retry.StopOnDownloadLimit p = true) /\
  (e = None -> retry = false /\ e' = None).
Proof.
  intros Hctx. unfold shouldRetry. rewrite Hctx.
  destruct e as [err|]; [|by repeat split].
  destruct (ShouldRetry p err); [by repeat split|].
  destruct err as [code items|e0|msg]; try by repeat split.
  destruct ((500 <=? code) && (code <? 600)); [by repeat split|].
  destruct items as [|item items]; [by repeat split|].
  cbv zeta.
  destruct (String.eqb (Reason item) "rateLimitExceeded" ||
            String.eqb (Reason item) "userRateLimitExceeded").
  { destruct (StopOnUploadLimit p) eqn:Hup; simpl;
      [destruct (String.eqb (Message item) "User rate limit exceeded.")|];
      repeat split; try done; eauto. }
  destruct (StopOnDownloadLimit p) eqn:Hdown,
           (StopOnUploadLimit p) eqn:Hup; simpl;
    repeat match goal with
           | |- context [if String.eqb ?a ?b then _ else _] =>
               destruct (String.eqb a b)
           end;
    repeat split; try done; eauto.
Qed.

Lemma shouldRetry_outcomes_witness :
  let '(retry, e', log) :=
    Retry.shouldRetry Cases.stoppingPolicy (Some Cases.downloadQuotaError) in
  (retry = true ->
   e' = Some Cases.downloadQuotaError /\
   Some Cases.downloadQuotaError <> None /\ log = []) /\
  (e' <> Some Cases.downloadQuotaError ->
   retry = false /\
   (exists err, Some Cases.downloadQuotaError = Some err /\
                e' = Some (Retry.Fatal err)) /\
   length log = 1%nat /\ true || true = true) /\
  (Some Cases.downloadQuotaError = None -> retry = false /\ e' = None).
Proof.
  exact (shouldRetry_outcomes Cases.stoppingPolicy
           (Some Cases.downloadQuotaError) eq_refl).
Defined.

(** X8: a server error (a [googleapi] error with a code from 500 to 599) is
    always tried again while the context is live, whatever the items of the
    error say and whichever stop options are set. *)
Theorem shouldRetry_server_error (p : Retry.Policy) (code : Z)
    (items : list Retry.ErrorItem) :
  Retry.ContextError p (Some (Retry.Googleapi code items))
  = (false, Some (Retry.Googleapi code items)) ->
  500 <= code < 600 ->
  Retry.shouldRetry p (Some (Retry.Googleapi code items))
  = (true, Some (Retry.Googleapi code items), []).
Proof.
  intros Hctx Hcode. unfold shouldRetry. rewrite Hctx.
  destruct (ShouldRetry p _); [done|].
  replace (500 <=? code) with true by (symmetry; apply Z.leb_le; lia).
  replace (code <? 600) with true by (symmetry; apply Z.ltb_lt; lia).
  done.
Qed.

Lemma shouldRetry_server_error_witness :
  Retry.shouldRetry Cases.stoppingPolicy (Some (Retry.Googleapi 503 []))
  = (true, Some (Retry.Googleapi 503 []), []).
Proof.
  apply (shouldRetry_server_error Cases.stoppingPolicy 503 []);
    [reflexivity | lia].
Defined.

End RetryProps.

(** ** Removing objects and directories *)

Section RemovalProps.
Import ID Objects.

(** X9: removing an object that a listing reached through a shortcut
    deletes the shortcut and leaves the target alone: the object is made
    from the item [resolveShortcut] returns, whose ID is the join of the
    target's ID and the shortcut's, and [Remove] asks the remote side to
    delete the shortcut's ID, once.  An object with more than one parent is
    not removed at all. *)
Theorem Remove_deletes_the_shortcut (f : Fs) (item target : File)
    (d : FileShortcutDetails) (o : Objects.ObjectOptions) (remote : string)
    (more : Objects.FileInfo) (svc_delete : string -> option error)
    (s : State) :
  MimeType item = shortcutMimeType ->
  ShortcutDetails item = Some d ->
  SkipShortcuts (opt f) = false ->
  svc_Files_Get f (TargetId d) = Ok target ->
  ID.sepFree (Id target) ->
  Id item <> "" ->
  exists newItem s',
    Fs_resolveShortcut f item s = Ret (Ok newItem) s' /\
    Objects.baseObject_Remove svc_delete
      (Objects.newBaseObject o remote newItem more) []
    = if (1 <? length (Parents item))%nat
      then Ret (Some (PlainError "can't delete safely - has multiple parents"))
             []
      else Ret (svc_delete (Id item)) [Objects.EffDelete (Id item)].
Proof.
  intros Hmime Hdet Hskip Hget Hfree Hid.
  unfold Fs_resolveShortcut.
  rewrite Hskip, Hmime, String.eqb_refl, Hdet. simpl.
  unfold Fs_getFile, bind, emit, modify, ret. simpl. rewrite Hget.
  eexists _, _. split; [reflexivity|].
  unfold baseObject_Remove, newBaseObject. simpl.
  destruct (1 <? length (Parents item))%nat; [reflexivity|].
  unfold shortcutID. rewrite (splitID_joinID_actual _ _ Hfree).
  destruct (String.eqb_spec (Id item) ""); [done|]. reflexivity.
Qed.

Lemma Remove_deletes_the_shortcut_witness :
  exists newItem s',
    Fs_resolveShortcut (Samples.sampleFs Samples.plainOptions 1%nat
                          Samples.noPages) Samples.aliasFile newFsState
    = Ret (Ok newItem) s' /\
    Objects.baseObject_Remove Cases.deleteAll
      (Objects.newBaseObject Cases.plainObjectOptions "link" newItem
         Cases.noFileInfo) []
    = Ret None [Objects.EffDelete "sc1"].
Proof.
  apply (Remove_deletes_the_shortcut
           (Samples.sampleFs Samples.plainOptions 1%nat Samples.noPages)
           Samples.aliasFile Samples.targetFile
           {| TargetId := "t1"; TargetMimeType := "text/plain" |}
           Cases.plainObjectOptions "link" Cases.noFileInfo Cases.deleteAll
           newFsState); try reflexivity.
  - vm_compute. intuition discriminate.
  - discriminate.
Defined.

(** X10: purging a directory that was reached through a shortcut deletes
    the shortcut, whatever the root of the remote is: the one request to the
    remote side names the shortcut's ID, not the directory's, its answer is
    the result, and the directory cache is not flushed. *)
Theorem Purge_of_shortcut_deletes_shortcut (f : Fs) (root dir a sc : string)
    (svc_delete : string -> option error) :
  dirCache_FindDir f dir = Ok (ID.joinID a sc) ->
  ID.sepFree a ->
  sc <> "" ->
  Objects.Fs_Purge f root svc_delete dir []
  = Ret (svc_delete sc) [Objects.EffDelete sc].
Proof.
  intros Hfind Hfree Hsc. unfold Fs_Purge.
  rewrite Hfind, (splitID_joinID_actual _ _ Hfree).
  destruct (String.eqb_spec sc ""); [done|]. reflexivity.
Qed.

Lemma Purge_of_shortcut_deletes_shortcut_witness :
  Objects.Fs_Purge Cases.shortcutDirFs "backup" Cases.deleteAll "docs" []
  = Ret None [Objects.EffDelete "sc1"].
Proof.
  apply (Purge_of_shortcut_deletes_shortcut Cases.shortcutDirFs "backup"
           "docs" "d1" "sc1" Cases.deleteAll).
  - reflexivity.
  - vm_compute. intuition discriminate.
  - discriminate.
Defined.

(** X11: [Rmdir] removes a directory with a plain ID without looking into
    it: it asks the remote side once, to delete the directory, and flushes
    the directory from the cache when that succeeded; on the root of the
    remote (the joined path is empty) it deletes nothing and only flushes
    the cache. *)
Theorem Rmdir_deletes_unseen (f : Fs) (root dir directoryID : string)
    (svc_delete : string -> option error) :
  dirCache_FindDir f dir = Ok directoryID ->
  ID.sepFree directoryID ->
  Objects.Fs_Rmdir f root svc_delete dir []
  = if String.eqb (path_Join f root dir) "" then
      Ret None [Objects.EffFlushDir dir]
    else
      match svc_delete directoryID with
      | Some e => Ret (Some e) [Objects.EffDelete directoryID]
      | None =>
          Ret None [Objects.EffDelete directoryID; Objects.EffFlushDir dir]
      end.
Proof.
  intros Hfind Hfree. unfold Fs_Rmdir, Fs_Purge.
  rewrite Hfind, (splitID_plain _ Hfree). simpl.
  destruct (String.eqb (path_Join f root dir) ""); simpl; [reflexivity|].
  unfold bind, Fs_delete, modify, ret. simpl.
  by destruct (svc_delete directoryID).
Qed.

Lemma Rmdir_deletes_unseen_witness :
  Objects.Fs_Rmdir (Samples.sampleFs Samples.plainOptions 1%nat
                      Samples.noPages) "backup" Cases.deleteAll "docs" []
  = Ret None [Objects.EffDelete "root"; Objects.EffFlushDir "docs"].
Proof.
  apply (Rmdir_deletes_unseen
           (Samples.sampleFs Samples.plainOptions 1%nat Samples.noPages)
           "backup" "docs" "root" Cases.deleteAll).
  - reflexivity.
  - vm_compute. intuition discriminate.
Defined.

End RemovalProps.

(** ** The plain listing *)

Section ListingProps.
Import Listing.

Lemma set_trace_id (s : State) : set_trace (trace s) s = s.
Proof. by destruct s. Qed.

Lemma set_trace_set_trace (t1 t2 : list event) (s : State) :
  set_trace t2 (set_trace t1 s) = set_trace t2 s.
Proof. by destruct s. Qed.

(** The resolver returns what [resolved] says and touches the trace only. *)
Lemma resolveShortcut_resolved (f : Fs) (item : File) (s : State) :
  exists new,
    Fs_resolveShortcut f item s
    = Ret (resolved f item) (set_trace (trace s ++ new) s).
Proof.
  unfold Fs_resolveShortcut, resolved.
  destruct (SkipShortcuts (opt f)
            || negb (String.eqb (MimeType item) shortcutMimeType)).
  { exists []. by rewrite app_nil_r, set_trace_id. }
  destruct (ShortcutDetails item) as [d|].
  - unfold Fs_getFile, bind, emit, modify, ret. simpl.
    destruct (svc_Files_Get f (TargetId d)) as [target|e]; simpl.
    + by eexists.
    + destruct (is404 e); simpl.
      * eexists. rewrite set_trace_set_trace, <- app_assoc. reflexivity.
      * by eexists.
  - unfold bind, emit, modify, ret. simpl. by eexists.
Qed.

Lemma listShortcut_shown (f : Fs) (item : File) (s : State) :
  exists new,
    listShortcut f false false
      (setName (Enc_ToStandardName f (Name item)) item) s
    = Ret (shown f item) (set_trace (trace s ++ new) s).
Proof.
  unfold listShortcut, shown.
  set (item1 := setName (Enc_ToStandardName f (Name item)) item).
  destruct (isShortcut item1);
    [|exists []; by rewrite app_nil_r, set_trace_id].
  destruct (SkipShortcuts (opt f));
    [exists []; by rewrite app_nil_r, set_trace_id|].
  simpl.
  destruct (resolveShortcut_resolved f item1 s) as [new Hr].
  exists new. rewrite (bind_Ret _ _ _ _ _ Hr).
  destruct (resolved f item1) as [item'|e]; [|reflexivity].
  by destruct (SkipDanglingShortcuts (opt f) &&
               String.eqb (MimeType item') shortcutMimeTypeDangling).
Qed.

Lemma itemToDirEntry_entryOf (f : Fs) (remote : string) (item : File)
    (s : State) :
  exists s', Fs_itemToDirEntry f remote item s = Ret (entryOf f remote item) s'.
Proof.
  unfold Fs_itemToDirEntry, entryOf.
  destruct (String.eqb (MimeType item) driveFolderType).
  - unfold bind, modify, ret.
    destruct (negb (String.eqb (ResourceKey item) "")); by eexists.
  - destruct (newObjectWithInfo f remote item) as [entry|e];
      [by eexists|].
    destruct (error_eqb e ErrorObjectNotFound); by eexists.
Qed.

Lemma listItem_List (f : Fs) (dir : string) (stems : list string)
    (item : File) (entries : list DirEntry) (s : State) :
  exists a flow s',
    listItem f "" false false stems (List_fn f dir) item (entries, None) s
    = Ret (a, flow) s' /\
    ranItems f dir [item] entries a flow.
Proof.
  unfold listItem.
  destruct (listShortcut_shown f item s) as [new Hr].
  rewrite (bind_Ret _ _ _ _ _ Hr). unfold ranItems. simpl.
  destruct (shown f item) as [[item'|]|e].
  - change (listTitleOK f "" stems item') with true. cbv iota.
    unfold List_fn.
    destruct (itemToDirEntry_entryOf f (path_Join f dir (Name item')) item'
                (set_trace (trace s ++ new) s)) as [s1 He].
    unfold bind at 1. unfold bind at 1. rewrite He.
    destruct (entryOf f (path_Join f dir (Name item')) item') as [entry|e].
    + destruct entry; unfold bind, emit, modify, Go.ret; simpl;
        eexists _, _, _; (split; [reflexivity|]); simpl; eauto.
    + unfold bind, emit, modify, Go.ret; simpl.
      eexists _, _, _. split; [reflexivity|]. simpl. eauto.
  - eexists _, _, _. split; [reflexivity|]. simpl. eauto.
  - eexists _, _, _. split; [reflexivity|]. simpl. eauto.
Qed.

Lemma listItems_List (f : Fs) (dir : string) (stems : list string)
    (items : list File) :
  forall (entries : list DirEntry) (s : State),
  exists a flow s',
    listItems f "" false false stems (List_fn f dir) items (entries, None) s
    = Ret (a, flow) s' /\
    ranItems f dir items entries a flow.
Proof.
  induction items as [|item rest IH]; intros entries s.
  - exists (entries, None), FlowNext, s. split; [reflexivity|].
    exists entries. by split.
  - simpl.
    destruct (listItem_List f dir stems item entries s)
      as (a1 & flow1 & s1 & Hrun1 & Hran1).
    rewrite (bind_Ret _ _ _ _ _ Hrun1).
    destruct flow1 as [| |e]; simpl in Hran1.
    + destruct Hran1 as (es & -> & Hes).
      destruct (IH es s1) as (a2 & flow2 & s2 & Hrun2 & Hran2).
      exists a2, flow2, s2. split; [exact Hrun2|].
      unfold ranItems in *.
      destruct flow2 as [| |e2].
      * destruct Hran2 as (es2 & -> & Hes2). exists es2. split; [done|].
        intros rest'. specialize (Hes (rest ++ rest')). simpl in Hes.
        simpl. by rewrite Hes, Hes2.
      * destruct Hran2 as (es2 & e2 & -> & Hes2). exists es2, e2.
        split; [done|].
        intros rest'. specialize (Hes (rest ++ rest')). simpl in Hes.
        simpl. by rewrite Hes, Hes2.
      * intros rest'. specialize (Hes (rest ++ rest')). simpl in Hes.
        simpl. by rewrite Hes, Hran2.
    + destruct Hran1 as (es & e & -> & Hes).
      eexists _, _, _. split; [reflexivity|]. exists es, e. split; [done|].
      intros rest'. exact (Hes (rest ++ rest')).
    + eexists _, _, _. split; [reflexivity|].
      intros rest'. exact (Hran1 (rest ++ rest')).
Qed.

Lemma listPages_List (f : Fs) (dir : string) (stems : list string)
    (pages : list FileList) :
  forall (fuel : nat) (req : listRequest) (entries : list DirEntry)
         (s : State),
    reqTitle req = "" -> reqDirectoriesOnly req = false ->
    reqFilesOnly req = false ->
    chainFrom f req pages -> (length pages <= fuel)%nat ->
    exists a found err s',
      listPages fuel f req stems (List_fn f dir) (entries, None) s
      = Ret (a, (found, err)) s' /\
      finished a err = entriesOf f dir (itemsOf pages) entries.
Proof.
  induction pages as [|p rest IH];
    intros fuel req entries s Ht Hd Hf Hchain Hfuel; [destruct Hchain|].
  destruct fuel as [|fuel]; [simpl in Hfuel; lia|].
  destruct Hchain as [Hdo Hrest]. simpl.
  unfold listDo. unfold bind at 1. unfold bind at 1. unfold emit, modify, ret.
  rewrite Hdo, Ht, Hd, Hf.
  match goal with
  | |- context [bind (if IncompleteSearch p then _ else _) _ ?s0] =>
      assert (Hlog : exists s2,
                (if IncompleteSearch p
                 then emit (EvErrorf "search result INCOMPLETE")
                 else Go.ret tt) s0 = Ret tt s2)
        by (destruct (IncompleteSearch p); by eexists)
  end.
  destruct Hlog as [s2 Hlog]. rewrite (bind_Ret _ _ _ _ _ Hlog).
  destruct (listItems_List f dir stems (Files p) entries s2)
    as (a1 & flow & s3 & Hrun & Hran).
  rewrite (bind_Ret _ _ _ _ _ Hrun).
  unfold ranItems in Hran.
  destruct flow as [| |e].
  - destruct Hran as (es & -> & Hes). rewrite Hes.
    destruct (String.eqb_spec (NextPageToken p) "") as [Htok|Htok].
    + assert (rest = []) as -> by (destruct rest; [done | tauto]).
      eexists _, _, _, _. split; [reflexivity|]. reflexivity.
    + destruct rest as [|p' rest']; [done|]. destruct Hrest as [_ Hrest].
      apply (IH fuel (withPageToken (NextPageToken p) req) es s3);
        [done | done | done | exact Hrest | simpl in *; lia].
  - destruct Hran as (es & e & -> & Hes). rewrite Hes.
    eexists _, _, _, _. split; [reflexivity|]. reflexivity.
  - rewrite Hran. eexists _, _, _, _. split; [reflexivity|]. reflexivity.
Qed.

(** X12: [List] returns the entries of the items of the directory, page
    after page and in the order of the remote side: every item under its
    standard name, a shortcut replaced by its target, each turned into its
    entry under the path of the directory.  Items that are skipped
    (shortcuts, when they are to be skipped, and dangling ones likewise) and
    items that have no entry are left out without an error; the first error
    of the resolver or of the making of an entry is the result, and no entry
    is returned with it. *)
Theorem List_entries (fuel : nat) (f : Fs) (dir directoryID : string)
    (pages : list FileList) (s : State) :
  dirCache_FindDir f dir = Ok directoryID ->
  chainFrom f (Listing.listAll f [ID.actualID directoryID]) pages ->
  (length pages <= fuel)%nat ->
  exists s',
    Listing.Fs_List fuel f dir s
    = Ret (Listing.entriesOf f dir (Listing.itemsOf pages) []) s'.
Proof.
  intros Hfind Hchain Hfuel. unfold Fs_List, Fs_list. rewrite Hfind.
  destruct (listPages_List f dir (exportStems f "" false) pages fuel
              (listAll f [ID.actualID directoryID]) [] s
              eq_refl eq_refl eq_refl Hchain Hfuel)
    as ([es iErr] & found & err & s' & Hrun & Hfin).
  unfold listAll in Hrun. rewrite (bind_Ret _ _ _ _ _ Hrun).
  rewrite <- Hfin. unfold finished. exists s'.
  destruct err; [reflexivity|]. by destruct iErr.
Qed.

Lemma List_entries_witness :
  exists s',
    Listing.Fs_List 2 (Samples.sampleFs Samples.plainOptions 1%nat
                         Samples.twoPages) "" newFsState
    = Ret (Ok [EntryObject "report.txt" "t1";
               EntryObject "link" (ID.joinID "t1" "sc1")]) s'.
Proof.
  apply (List_entries 2
           (Samples.sampleFs Samples.plainOptions 1%nat Samples.twoPages)
           "" "root" [Samples.firstPage; Samples.secondPage] newFsState).
  - reflexivity.
  - simpl. repeat split. discriminate.
  - simpl. lia.
Defined.



Ltac no_calls :=
  repeat split; try done; try (simpl; by apply Forall_nil_2).


Lemma stopsLast_after (calls1 calls2 : list (File * bool)) (found : bool) :
  stopsLast false calls1 -> stopsLast found calls2 ->
  stopsLast found (calls1 ++ calls2).
Proof.
  unfold stopsLast. intros H1 H2. destruct found.
  - destruct H2 as (init & item & -> & Hinit).
    exists (calls1 ++ init), item. rewrite app_assoc. split; [done|].
    by apply Forall_app.
  - by apply Forall_app.
Qed.






Lemma quiet_pure {A : Type} (fn : File -> A -> M State (A * bool))
    (step : File -> A -> A * bool) :
  pureFn fn step -> quiet fn.
Proof.
  intros Hp item a s. exists (step item a).1, (step item a).2, [], s.
  rewrite app_nil_r, Hp. split; [by destruct (step item a)|].
  split; [done | apply silent_nil].
Qed.

Lemma ranCalls_app {A : Type} (step : File -> A -> A * bool)
    (c1 c2 : list (File * bool)) :
  forall a a' a'',
    ranCalls step a c1 a' -> ranCalls step a' c2 a'' ->
    ranCalls step a (c1 ++ c2) a''.
Proof.
  induction c1 as [|c c1 IH]; intros a a' a'' H1 H2; simpl in *.
  - by subst.
  - destruct H1 as [Hs H1]. split; [done|]. by eapply IH.
Qed.

Lemma listItem_ran {A : Type} (f : Fs) (title : string)
    (directoriesOnly filesOnly : bool) (stems : list string)
    (fn : File -> A -> M State (A * bool)) (step : File -> A -> A * bool)
    (item : File) (a : A) (s : State) :
  pureFn fn step ->
  exists a' flow new s',
    listItem f title directoriesOnly filesOnly stems fn item a s
    = Ret (a', flow) s' /\
    trace s' = (trace s ++ new)%list /\
    ranCalls step a (fnCalls new) a' /\
    stopsLast (match flow with FlowBreakOuter => true | _ => false end)
      (fnCalls new).
Proof.
  intros Hpure. unfold listItem.
  set (item1 := setName (Enc_ToStandardName f (Name item)) item).
  destruct (listShortcut_silent f directoriesOnly filesOnly item1 s)
    as (r & new & s1 & Hr & Ht & Hp & He & Hc).
  rewrite (bind_Ret _ _ _ _ _ Hr).
  destruct r as [[item2|]|e];
    [|exists a, FlowNext, new, s1; rewrite Hc; no_calls
     |exists a, (FlowReturn e), new, s1; rewrite Hc; no_calls].
  destruct (listTitleOK f title stems item2) eqn:Hok;
    [|exists a, FlowNext, new, s1; rewrite Hc; no_calls].
  rewrite (bind_Ret _ _ _ _ _ (Hpure item2 a s1)).
  destruct (step item2 a) as [a' stop] eqn:Hstep.
  unfold bind, emit, modify. simpl.
  exists a', (if stop then FlowBreakOuter else FlowNext),
    (new ++ [EvFn item2 stop])%list.
  eexists. split; [by destruct stop|]. simpl.
  rewrite Ht, !fnCalls_app, Hc, <- !app_assoc. simpl.
  split; [done|]. rewrite Hstep. split; [done|].
  destruct stop; simpl.
  - exists [], item2. by split.
  - by apply Forall_singleton.
Qed.

Lemma listItems_ran {A : Type} (f : Fs) (title : string)
    (directoriesOnly filesOnly : bool) (stems : list string)
    (fn : File -> A -> M State (A * bool)) (step : File -> A -> A * bool)
    (items : list File) (a : A) (s : State) :
  pureFn fn step ->
  exists a' flow new s',
    listItems f title directoriesOnly filesOnly stems fn items a s
    = Ret (a', flow) s' /\
    trace s' = (trace s ++ new)%list /\
    ranCalls step a (fnCalls new) a' /\
    stopsLast (match flow with FlowBreakOuter => true | _ => false end)
      (fnCalls new).
Proof.
  intros Hpure. revert a s.
  induction items as [|item rest IH]; intros a s; simpl.
  - exists a, FlowNext, [], s. rewrite app_nil_r. no_calls.
  - destruct (listItem_ran f title directoriesOnly filesOnly stems fn step
                item a s Hpure)
      as (a1 & flow & new1 & s1 & Hrun & Ht & Hh & Hs).
    rewrite (bind_Ret _ _ _ _ _ Hrun).
    destruct flow;
      [|exists a1, FlowBreakOuter, new1, s1; by repeat split
       |exists a1, (FlowReturn e), new1, s1; by repeat split].
    destruct (IH a1 s1) as (a2 & flow2 & new2 & s2 & Hrun2 & Ht2 & Hh2 & Hs2).
    exists a2, flow2, (new1 ++ new2)%list, s2.
    rewrite Hrun2, Ht2, Ht, fnCalls_app, app_assoc.
    split; [done|]. split; [done|].
    split; [by eapply ranCalls_app | by apply stopsLast_after].
Qed.

Lemma listPages_ran {A : Type} (f : Fs) (stems : list string)
    (fn : File -> A -> M State (A * bool)) (step : File -> A -> A * bool) :
  pureFn fn step ->
  forall (fuel : nat) (req : listRequest) (a : A) (s : State),
    listPages fuel f req stems fn a s = OutOfFuel \/
    exists a' found err new s',
      listPages fuel f req stems fn a s = Ret (a', (found, err)) s' /\
      trace s' = (trace s ++ new)%list /\
      (found = true -> err = None) /\
      ranCalls step a (fnCalls new) a' /\
      stopsLast found (fnCalls new).
Proof.
  intros Hpure fuel.
  induction fuel as [|fuel IH]; intros req a s; [by left|].
  pose proof (listPages_page f stems fn fuel req a s) as Hrun.
  destruct (svc_Files_List f req) as [p|e].
  - destruct Hrun as (s2 & Ht2 & Hrun). rewrite Hrun.
    destruct (pageEvents_readings req p) as (_ & _ & HpreC).
    destruct (listItems_ran f (reqTitle req) (reqDirectoriesOnly req)
                (reqFilesOnly req) stems fn step (Files p) a s2 Hpure)
      as (a1 & flow & new1 & s3 & Hitems & Ht & Hh & Hs).
    rewrite (bind_Ret _ _ _ _ _ Hitems).
    assert (Hpre : trace s3 = (trace s ++ (pageEvents req p ++ new1))%list)
      by (by rewrite Ht, Ht2, <- app_assoc).
    assert (Hcalls : fnCalls (pageEvents req p ++ new1) = fnCalls new1)
      by (by rewrite fnCalls_app, HpreC).
    destruct flow as [| |e].
    + destruct (String.eqb_spec (NextPageToken p) "") as [Htok|Htok].
      * right. eexists a1, false, None, _, s3.
        split; [reflexivity|]. split; [exact Hpre|]. by rewrite Hcalls.
      * destruct (IH (withPageToken (NextPageToken p) req) a1 s3)
          as [Hout | (a2 & found & err & new2 & s4 & Hrun2 & Ht3 & He2
                      & Hh2 & Hs2)]; [by left|].
        right. eexists a2, found, err, _, s4.
        split; [exact Hrun2|].
        split; [rewrite Ht3, Hpre, <- app_assoc; reflexivity|].
        rewrite fnCalls_app, Hcalls. split; [done|].
        split; [by eapply ranCalls_app | by apply stopsLast_after].
    + right. eexists a1, true, None, _, s3.
      split; [reflexivity|]. split; [exact Hpre|]. by rewrite Hcalls.
    + right. eexists a1, false, (Some e), _, s3.
      split; [reflexivity|]. split; [exact Hpre|]. by rewrite Hcalls.
  - right. eexists a, false, (Some _), [_], _. split; [exact Hrun|].
    split; [reflexivity|]. no_calls.
Qed.

Lemma FindLeaf_fn_pure (lib : GoStrings.Library) (x : Formats.Exports)
    (f : Fs) (leaf : string) :
  pureFn (FindLeaf_fn lib x f leaf) (FindLeaf_step lib x f leaf).
Proof.
  intros item a s. unfold FindLeaf_fn, FindLeaf_step, leafMatch.
  destruct (negb (SkipGdocs (opt f))).
  - destruct (Formats.findExportFormat lib x item) as [[[ext name] mt] isDoc].
    destruct (String.eqb name leaf); [done|].
    destruct isDoc; [done|]. by destruct (String.eqb (Name item) leaf).
  - by destruct (String.eqb (Name item) leaf).
Qed.

(** The calls of the function of [FindLeaf] that did not stop the listing
    met no match and left [pathIDOut] as it was. *)
Lemma FindLeaf_no_match (lib : GoStrings.Library) (x : Formats.Exports)
    (f : Fs) (leaf : string) (calls : list (File * bool)) :
  forall a a',
    ranCalls (FindLeaf_step lib x f leaf) a calls a' ->
    Forall (fun c => c.2 = false) calls ->
    a' = a /\ Forall (fun c => leafMatch lib x f leaf c.1 = false) calls.
Proof.
  induction calls as [|[item stop] calls IH]; intros a a' Hran Hall;
    simpl in *.
  - by split.
  - destruct Hran as [Hs Hran]. apply Forall_cons in Hall as [Hc Hall].
    simpl in Hc. subst stop. unfold FindLeaf_step in *.
    destruct (leafMatch lib x f leaf item) eqn:Hm; [done|]. simpl in *.
    destruct (IH a a' Hran Hall) as [-> Hno]. split; [done|].
    by constructor.
Qed.

(** X14: [FindLeaf] answers with the first match of the listing, whatever
    the remote side answers, a failing request included.  When it reports
    that the leaf was found, the ID it returns is that of the item the
    lister handed over last, this item is a match (its export name is the
    leaf, or it is no document and its name is the leaf, letter for letter;
    with [skip_gdocs] only the name counts), no item handed over before it
    was one, and there is no error.  When it reports that the leaf was not
    found, no item handed over was a match and the ID it returns is empty.
    And [FindLeaf] does return when the pages of the remote side come to an
    end, with a page without next page token or with a request that
    fails. *)
Theorem FindLeaf_first_match (lib : GoStrings.Library)
    (x : Formats.Exports) (f : Fs) (pathID leaf : string) (s : State) :
  (forall fuel : nat,
     Listing.Fs_FindLeaf fuel lib x f pathID leaf s = OutOfFuel \/
     exists pathIDOut found err new s',
       Listing.Fs_FindLeaf fuel lib x f pathID leaf s
       = Ret (pathIDOut, found, err) s' /\
       trace s' = (trace s ++ new)%list /\
       if found then
         err = None /\
         exists init item,
           fnCalls new = init ++ [(item, true)] /\
           pathIDOut = Id item /\
           Listing.leafMatch lib x f leaf item = true /\
           Forall (fun c => Listing.leafMatch lib x f leaf c.1 = false) init
       else
         pathIDOut = "" /\
         Forall (fun c => Listing.leafMatch lib x f leaf c.1 = false)
           (fnCalls new)) /\
  (forall (fuel : nat) (pages : list FileList) (failure : option error),
     servedFrom f {| reqDirIDs := [ID.actualID pathID]; reqTitle := leaf;
                     reqDirectoriesOnly := true; reqFilesOnly := false;
                     reqTrashedOnly := TrashedOnly (opt f);
                     reqIncludeAll := false; reqPageToken := "" |}
       pages failure ->
     (length (tokensTo "" pages failure) <= fuel)%nat ->
     exists r s', Listing.Fs_FindLeaf fuel lib x f pathID leaf s = Ret r s').
Proof.
  unfold Fs_FindLeaf, Fs_list. split.
  - intros fuel.
    destruct (listPages_ran f (exportStems f leaf true)
                (FindLeaf_fn lib x f leaf) (FindLeaf_step lib x f leaf)
                (FindLeaf_fn_pure lib x f leaf) fuel
                {| reqDirIDs := [ID.actualID pathID]; reqTitle := leaf;
                   reqDirectoriesOnly := true; reqFilesOnly := false;
                   reqTrashedOnly := TrashedOnly (opt f);
                   reqIncludeAll := false; reqPageToken := "" |} "" s)
      as [Hout | (a' & found & err & new & s' & Hrun & Ht & He & Hran
                  & Hlast)].
    { left. unfold bind. by rewrite Hout. }
    right. rewrite (bind_Ret _ _ _ _ _ Hrun).
    exists a', found, err, new, s'. split; [reflexivity|].
    split; [exact Ht|].
    unfold stopsLast in Hlast. destruct found.
    + split; [by apply He|].
      destruct Hlast as (init & item & Hcalls & Hinit).
      exists init, item. split; [exact Hcalls|]. rewrite Hcalls in Hran.
      clear -Hran Hinit. revert Hran. generalize "".
      induction init as [|[it st] init IH]; intros a Hran; simpl in Hran.
      * destruct Hran as [Hs ->]. unfold FindLeaf_step in *.
        destruct (leafMatch lib x f leaf item); [|done]. by repeat split.
      * destruct Hran as [Hs Hran]. apply Forall_cons in Hinit as [Hc Hinit].
        simpl in *. subst st. unfold FindLeaf_step in Hs, Hran.
        destruct (leafMatch lib x f leaf it) eqn:Hm; [done|]. simpl in Hran.
        destruct (IH Hinit a Hran) as (-> & Hmt & Hno).
        split; [done|]. split; [done|]. by constructor.
    + destruct (FindLeaf_no_match lib x f leaf _ _ _ Hran Hlast) as [-> Hno].
      by split.
  - intros fuel pages failure Hserved Hfuel.
    destruct (listPages_spec f (exportStems f leaf true)
                (FindLeaf_fn lib x f leaf)
                (quiet_pure _ _ (FindLeaf_fn_pure lib x f leaf))
                pages failure fuel _ "" s Hserved Hfuel)
      as (a' & found & err & new & s' & Hrun & _).
    rewrite (bind_Ret _ _ _ _ _ Hrun). by eexists _, _.
Qed.

Lemma FindLeaf_first_match_witness :
  exists new s',
    Listing.Fs_FindLeaf 1 Cases.asciiLibrary Cases.pdfExports
      (Samples.sampleFs Samples.plainOptions 1%nat Cases.photosPage)
      (ID.joinID "d1" "sc1") "photos" newFsState
    = Ret ("d2", true, None) s' /\
    trace s' = (trace newFsState ++ new)%list /\
    fnCalls new = [(Cases.photosFolder, true)].
Proof.
  destruct (FindLeaf_first_match Cases.asciiLibrary Cases.pdfExports
              (Samples.sampleFs Samples.plainOptions 1%nat Cases.photosPage)
              (ID.joinID "d1" "sc1") "photos" newFsState) as [Hany _].
  destruct (Hany 1%nat)
    as [Hout | (i & found & err & new & s' & Hrun & Ht & _)];
    [by vm_compute in Hout|].
  pose proof Hrun as Hrun'. vm_compute in Hrun'.
  injection Hrun' as <- <- <- Hs'.
  exists new, s'. split; [exact Hrun|]. split; [exact Ht|].
  rewrite <- Hs' in Ht. simpl in Ht. by rewrite <- Ht.
Defined.

End ListingProps.

(** ** From an item to its entry *)

Section EntryProps.

(** X15: a folder that a worker of [ListR] finds is cached, queued and
    reported.  When the mutex is free, the entry made for a folder item
    under the path [p] is a directory of path [p/name]; this path leads to
    the ID of the item in the directory cache; the callback of the caller
    gets the entry once and its answer is the result; the count of listed
    entries goes up by one; and the folder is queued as a job under its
    plain ID: in the channel with one more piece of outstanding work when
    there is room, in the overflow slice when the channel is full, nowhere
    once the channel has been given up. *)
Theorem folder_cached_reported_queued (f : Fs)
    (callback : DirEntry -> option error) (p : string) (item : File)
    (s : State) :
  MimeType item = driveFolderType ->
  sendable s ->
  let remote := path_Join f p (Name item) in
  let entry :=
    EntryDir remote (ModifiedTime item) (Id item)
      (match Parents item with q :: _ => q | [] => "" end) in
  let job := {| id := ID.actualID (Id item); path := remote |} in
  exists s',
    emitUnder f (ListR_cb callback) p item s = Ret (callback entry) s' /\
    dirCache s' !! remote = Some (Id item) /\
    helperEntries s' = (helperEntries s ++ [entry])%list /\
    listed s' = listed s + 1 /\
    mu s' = false /\
    if inNil s then
      inBuf s' = inBuf s /\ overflow s' = overflow s /\ wg s' = wg s
    else if Z.of_nat (length (inBuf s)) <? listRInputBuffer then
      inBuf s' = (inBuf s ++ [job])%list /\ overflow s' = overflow s /\
      wg s' = wg s + 1
    else
      inBuf s' = inBuf s /\ overflow s' = (overflow s ++ [job])%list /\
      wg s' = wg s.
Proof.
  intros Hfolder Hsend remote entry job.
  unfold emitUnder, Fs_itemToDirEntry. fold remote.
  rewrite Hfolder, String.eqb_refl.
  set (s1 := set_dirCache (<[remote := Id item]> (dirCache s)) s).
  set (s2 := if negb (String.eqb (ResourceKey item) "")
             then set_dirResourceKeys
                    (<[Id item := ResourceKey item]> (dirResourceKeys s1)) s1
             else s1).
  assert (Hentry :
    (modify (fun s => set_dirCache (<[remote := Id item]> (dirCache s)) s) ;;
     (if negb (String.eqb (ResourceKey item) "")
      then modify (fun s =>
             set_dirResourceKeys
               (<[Id item := ResourceKey item]> (dirResourceKeys s)) s)
      else ret tt) ;;
     ret (Ok entry)) s = Ret (Ok entry) s2).
  { subst s2 s1. unfold bind, modify, ret.
    by destruct (negb (String.eqb (ResourceKey item) "")). }
  rewrite (bind_Ret _ _ _ _ _ Hentry).
  assert (Hsend2 : sendable s2).
  { subst s2 s1. destruct Hsend as (? & ? & ?).
    by destruct (negb (String.eqb (ResourceKey item) "")). }
  unfold ListR_cb, entry.
  rewrite (bind_Ret _ _ _ _ _ (sendJob_run job s2 Hsend2)).
  assert (Hmu : mu (afterSendJob job s2) = false)
    by (destruct (afterSendJob_sendable job s2 Hsend2) as [H _]; exact H).
  unfold bind, mu_Lock, mu_Unlock, modify, list_Add, emit, ret.
  rewrite Hmu. simpl. eexists. split; [reflexivity|]. simpl.
  assert (Hsame : inNil s2 = inNil s /\ inBuf s2 = inBuf s /\
                  overflow s2 = overflow s /\ wg s2 = wg s /\
                  dirCache s2 = <[remote := Id item]> (dirCache s) /\
                  helperEntries s2 = helperEntries s /\
                  listed s2 = listed s).
  { subst s2 s1. by destruct (negb (String.eqb (ResourceKey item) "")). }
  destruct Hsame as (Hn & Hb & Ho & Hw & Hd & Hh & Hl).
  unfold afterSendJob. rewrite Hn, Hb.
  destruct (inNil s); simpl;
    [|destruct (Z.of_nat (length (inBuf s)) <? listRInputBuffer); simpl];
    rewrite ?Hd, ?Hh, ?Hl, ?Hb, ?Ho, ?Hw, ?lookup_insert_eq;
    by repeat split.
Qed.

Lemma folder_cached_reported_queued_witness :
  exists s',
    emitUnder Samples.failingFs (ListR_cb Samples.acceptAll) "albums"
      Cases.photosFolder newFsState
    = Ret None s' /\
    dirCache s' !! "albums/photos" = Some "d2".
Proof.
  destruct (folder_cached_reported_queued Samples.failingFs Samples.acceptAll
              "albums" Cases.photosFolder newFsState)
    as (s' & Hrun & Hcache & _).
  - reflexivity.
  - by repeat split.
  - exists s'. by split.
Defined.

End EntryProps.

(** ** Reading an exported document *)

Section DownloadProps.
Import Download.

Lemma wrap64_add (a n : Z) : wrap64 (wrap64 a + n) = wrap64 (a + n).
Proof.
  unfold wrap64. f_equal.
  replace ((a + 2 ^ 63) mod 2 ^ 64 - 2 ^ 63 + n + 2 ^ 63)
    with ((a + 2 ^ 63) mod 2 ^ 64 + n) by lia.
  rewrite Zplus_mod_idemp_l. f_equal. lia.
Qed.

Lemma readAll_fields (reads : list (Z * option readError)) :
  forall file b0,
    bytes file = wrap64 b0 ->
    size (readAll reads file) = size file /\
    bytes (readAll reads file) = wrap64 (b0 + total reads) /\
    eof (readAll reads file) = eof file || existsb isEOF reads /\
    errored (readAll reads file) = errored file || existsb isFailed reads.
Proof.
  unfold readAll.
  induction reads as [|[n e] reads IH]; intros file b0 Hb.
  - simpl. by rewrite Z.add_0_r, !orb_false_r.
  - cbn [foldl].
    destruct (IH (Read (n, e) file) (b0 + n)) as (Hs & Hby & He & Hf).
    { simpl. by rewrite Hb, wrap64_add. }
    rewrite Hs, Hby, He, Hf. simpl. unfold isEOF, isFailed. simpl.
    split; [done|]. split; [f_equal; lia|].
    destruct e as [[|msg]|]; simpl;
      by rewrite ?orb_true_r, ?orb_true_l, ?orb_false_r.
Qed.

(** X17: the size of a document object changes only when its download is
    closed after a read that met the end of the file and with no read that
    failed; it is then the number of bytes read since the file was opened
    (as an [int64]).  In every other case [Close] leaves the size as it
    was. *)
Theorem Close_sets_size_after_clean_read (size0 : Z)
    (reads : list (Z * option Download.readError)) :
  Download.size (Download.Close (Download.readAll reads
                                   (Download.opened size0)))
  = if existsb Download.isEOF reads && negb (existsb Download.isFailed reads)
    then Download.wrap64 (Download.total reads)
    else size0.
Proof.
  destruct (readAll_fields reads (opened size0) 0 eq_refl)
    as (Hs & Hby & He & Hf).
  unfold Close. rewrite He, Hf. simpl.
  destruct (existsb isEOF reads && negb (existsb isFailed reads)); simpl.
  - by rewrite Hby.
  - exact Hs.
Qed.

End DownloadProps.

(** ** ListR: no panic, and what the counter counts *)

Section SafetyProps.
Import Safety.

Lemma hoare_ret {A : Type} (P : State -> Prop) (Q : A -> State -> Prop)
    (a : A) :
  (forall s, P s -> Q a s) -> hoare P (Go.ret a) Q.
Proof. intros H s HP. by apply H. Qed.

Lemma hoare_bind {A B : Type} (P : State -> Prop) (Q : A -> State -> Prop)
    (R : B -> State -> Prop) (m : M State A) (k : A -> M State B) :
  hoare P m Q -> (forall a, hoare (Q a) (k a) R) -> hoare P (bind m k) R.
Proof.
  intros Hm Hk s HP. specialize (Hm s HP). unfold bind.
  destruct (m s) as [a s1| | |]; try done. by apply Hk.
Qed.

Lemma hoare_conseq {A : Type} (P P' : State -> Prop)
    (Q Q' : A -> State -> Prop) (m : M State A) :
  (forall s, P' s -> P s) -> (forall a s, Q a s -> Q' a s) ->
  hoare P m Q -> hoare P' m Q'.
Proof.
  intros HP HQ Hm s Hs. specialize (Hm s (HP s Hs)).
  destruct (m s); try done. by apply HQ.
Qed.

Lemma keeps_ret {A : Type} (P : State -> Prop) (a : A) : keeps P (Go.ret a).
Proof. by apply hoare_ret. Qed.

Lemma keeps_bind {A B : Type} (P : State -> Prop) (m : M State A)
    (k : A -> M State B) :
  keeps P m -> (forall a, keeps P (k a)) -> keeps P (bind m k).
Proof. intros Hm Hk. by eapply hoare_bind. Qed.

Lemma keeps_block {A : Type} (P : State -> Prop) : keeps P (@block State A).
Proof. by intros s HP. Qed.

Lemma keeps_gets {A : Type} (P : State -> Prop) (g : State -> A) :
  keeps P (gets g).
Proof. by intros s HP. Qed.

Lemma keeps_modify (P : State -> Prop) (g : State -> State) :
  (forall s, P s -> P (g s)) -> keeps P (modify g).
Proof. intros Hg s HP. by apply Hg. Qed.

Lemma keeps_forRange {A : Type} (P : State -> Prop) (l : list A)
    (body : A -> M State unit) :
  (forall x, keeps P (body x)) -> keeps P (forRange l body).
Proof.
  intros Hbody. induction l as [|x l IH]; simpl.
  - apply keeps_ret.
  - apply keeps_bind; auto.
Qed.

Section Round.
Variable G : Z -> Prop.
Hypothesis G_one : G 1.
Hypothesis G_default : G listRGrouping.

(** The invariant of a round looks at seven fields of the state. *)
Lemma roundInv_frame (k : Z) (mb lb : bool) (s s' : State) :
  wg s' = wg s -> inBuf s' = inBuf s -> inNil s' = inNil s ->
  inClosed s' = inClosed s -> mu s' = mu s -> listRmu s' = listRmu s ->
  grouping s' = grouping s ->
  roundInv G k mb lb s -> roundInv G k mb lb s'.
Proof.
  unfold roundInv, pending. intros -> -> -> -> -> -> ->. done.
Qed.

Lemma round_emit (k : Z) (mb lb : bool) (e : event) :
  keeps (roundInv G k mb lb) (emit e).
Proof. apply keeps_modify. intros s. by apply roundInv_frame. Qed.

Lemma round_swapGrouping (k : Z) (mb lb : bool) (new : Z) :
  G new -> keeps (roundInv G k mb lb) (swapGrouping new).
Proof.
  intros Hnew s (Hp & Hk & Hc & Hm & Hl & Hg). unfold swapGrouping.
  by repeat split.
Qed.

Lemma round_listRmu_Lock (k : Z) (mb lb : bool) :
  hoare (roundInv G k mb lb) listRmu_Lock (fun _ => roundInv G k mb true).
Proof.
  intros s (Hp & Hk & Hc & Hm & Hl & Hg). unfold listRmu_Lock.
  destruct (listRmu s); [done|]. by repeat split.
Qed.

Lemma round_listRmu_Unlock (k : Z) (mb : bool) :
  hoare (roundInv G k mb true) listRmu_Unlock
    (fun _ => roundInv G k mb false).
Proof.
  intros s (Hp & Hk & Hc & Hm & Hl & Hg). unfold listRmu_Unlock.
  rewrite Hl. by repeat split.
Qed.

Lemma round_sendJob (k : Z) (mb lb : bool) (job : listREntry) :
  keeps (roundInv G k mb lb) (sendJob job).
Proof.
  intros s (Hp & Hk & Hc & Hm & Hl & Hg). unfold sendJob.
  unfold bind, mu_Lock, mu_Unlock, gets, wg_Add, in_trySend, modify, Go.ret.
  unfold pending in Hp.
  destruct s as [g e dc rk lm m n b c o w ov li he er tr].
  simpl in *. subst m. destruct mb; [done|]. simpl.
  destruct n; simpl; [by repeat split|].
  rewrite (Hc eq_refl).
  destruct (w + 1 <? 0) eqn:E1; [apply Z.ltb_lt in E1; lia|]. simpl.
  destruct (Z.of_nat (length b) <? listRInputBuffer) eqn:E2; simpl.
  - unfold roundInv, pending. simpl. rewrite length_app. simpl.
    repeat split; try done; lia.
  - destruct (w + 1 + -1 <? 0) eqn:E3; [apply Z.ltb_lt in E3; lia|]. simpl.
    unfold roundInv, pending. simpl. repeat split; try done; lia.
Qed.

Lemma round_ListR_cb (k : Z) (mb lb : bool)
    (callback : DirEntry -> option error) (entry : DirEntry) :
  keeps (roundInv G k mb lb) (ListR_cb callback entry).
Proof.
  unfold ListR_cb. apply keeps_bind.
  { destruct entry; [apply round_sendJob | apply keeps_ret | apply keeps_ret]. }
  intros _ s (Hp & Hk & Hc & Hm & Hl & Hg).
  unfold bind, mu_Lock, mu_Unlock, list_Add, emit, modify, Go.ret.
  destruct (mu s) eqn:Hmu; [done|]. simpl.
  unfold roundInv, pending in *. simpl. by rewrite <- Hm.
Qed.

Create HintDb round discriminated.

#[local] Hint Resolve round_emit round_sendJob round_ListR_cb : round.

Ltac round_step :=
  match goal with
  | |- keeps _ (bind _ _) => apply keeps_bind; [|intros]
  | |- keeps _ (Go.ret _) => apply keeps_ret
  | |- keeps _ block => apply keeps_block
  | |- keeps _ (gets _) => apply keeps_gets
  | |- keeps _ (forRange _ _) => apply keeps_forRange; intros
  | |- keeps _ (modify _) =>
      apply keeps_modify; intros ?; by apply roundInv_frame
  | |- keeps _ (if ?b then _ else _) => destruct b
  | |- keeps _ (match ?x with _ => _ end) => destruct x
  | |- keeps _ _ => solve [auto with round]
  end.

Ltac round := repeat round_step.

Lemma round_getFile (k : Z) (mb lb : bool) (f : Fs) (i : string) :
  keeps (roundInv G k mb lb) (Fs_getFile f i).
Proof. unfold Fs_getFile. round. Qed.

Lemma round_resolveShortcut (k : Z) (mb lb : bool) (f : Fs) (item : File) :
  keeps (roundInv G k mb lb) (Fs_resolveShortcut f item).
Proof. unfold Fs_resolveShortcut. pose proof round_getFile. round. Qed.

Lemma round_listShortcut (k : Z) (mb lb : bool) (f : Fs)
    (directoriesOnly filesOnly : bool) (item : File) :
  keeps (roundInv G k mb lb) (listShortcut f directoriesOnly filesOnly item).
Proof. unfold listShortcut. pose proof round_resolveShortcut. round. Qed.

Lemma round_itemToDirEntry (k : Z) (mb lb : bool) (f : Fs) (remote : string)
    (item : File) :
  keeps (roundInv G k mb lb) (Fs_itemToDirEntry f remote item).
Proof. unfold Fs_itemToDirEntry. round. Qed.

Lemma round_listItems {A : Type} (k : Z) (mb lb : bool) (f : Fs)
    (title : string) (directoriesOnly filesOnly : bool) (stems : list string)
    (fn : File -> A -> M State (A * bool)) (items : list File) :
  (forall item a, keeps (roundInv G k mb lb) (fn item a)) ->
  forall a,
    keeps (roundInv G k mb lb)
      (listItems f title directoriesOnly filesOnly stems fn items a).
Proof.
  intros Hfn. pose proof round_listShortcut.
  induction items as [|item rest IH]; intros a; simpl; [round|].
  apply keeps_bind; [unfold listItem; round|].
  intros [a1 flow]. destruct flow; [apply IH | round | round].
Qed.

Lemma round_listPages {A : Type} (k : Z) (mb lb : bool) (f : Fs)
    (stems : list string) (fn : File -> A -> M State (A * bool))
    (fuel : nat) :
  (forall item a, keeps (roundInv G k mb lb) (fn item a)) ->
  forall req a,
    keeps (roundInv G k mb lb) (listPages fuel f req stems fn a).
Proof.
  intros Hfn. induction fuel as [|fuel IH]; intros req a; simpl.
  { by intros s HP. }
  unfold listDo. apply keeps_bind; [round|].
  intros [files|e]; [|round].
  apply keeps_bind; [round|]. intros _.
  apply keeps_bind; [by apply round_listItems|].
  intros [a1 flow]. destruct flow; [|round|round].
  destruct (String.eqb (NextPageToken files) ""); [round | apply IH].
Qed.

Lemma keeps_forRange_elem {A : Type} (P : State -> Prop) (l : list A)
    (body : A -> M State unit) :
  (forall x, x ∈ l -> keeps P (body x)) -> keeps P (forRange l body).
Proof.
  induction l as [|x l IH]; intros Hbody; simpl.
  - apply keeps_ret.
  - apply keeps_bind.
    + apply Hbody, elem_of_cons. by left.
    + intros _. apply IH. intros y Hy. apply Hbody, elem_of_cons. by right.
Qed.

Lemma parentIndex_path (dirs paths : list string) (parent : string)
    (i : nat) :
  length dirs = length paths ->
  parentIndex dirs paths parent = Some i -> is_Some (paths !! i).
Proof.
  intros Hlen Hi. apply lookup_lt_is_Some.
  destruct (decide (length paths = 1%nat)) as [H1|H1].
  - unfold parentIndex in Hi. rewrite H1 in Hi. simpl in Hi.
    simplify_eq. lia.
  - rewrite <- Hlen. by eapply parentIndex_in_range.
Qed.

Lemma round_emitUnder (k : Z) (mb lb : bool) (f : Fs)
    (cb : DirEntry -> M State (option error)) (p : string) (item : File) :
  (forall entry, keeps (roundInv G k mb lb) (cb entry)) ->
  keeps (roundInv G k mb lb) (emitUnder f cb p item).
Proof. intros Hcb. unfold emitUnder. pose proof round_itemToDirEntry. round. Qed.

Lemma round_parentsLoop (k : Z) (mb lb : bool) (f : Fs)
    (cb : DirEntry -> M State (option error)) (dirs paths : list string)
    (item : File) (parents : list string) :
  (forall entry, keeps (roundInv G k mb lb) (cb entry)) ->
  length dirs = length paths ->
  forall v,
    keeps (roundInv G k mb lb) (parentsLoop f cb dirs paths item parents v).
Proof.
  intros Hcb Hlen. pose proof (round_emitUnder k mb lb f cb) as Hemit.
  induction parents as [|parent rest IH]; intros v; simpl; [round|].
  destruct (parentIndex dirs paths parent) as [i|] eqn:Hi; [|apply IH].
  destruct (parentIndex_path _ _ _ _ Hlen Hi) as [p ->].
  apply keeps_bind; [by apply Hemit|].
  intros [e|]; [round|].
  destruct (length paths =? 1)%nat; [round | apply IH].
Qed.

Lemma round_listRClosure (k : Z) (mb lb : bool) (f : Fs)
    (cb : DirEntry -> M State (option error)) (dirs paths : list string)
    (item : File) (v : batchVars) :
  (forall entry, keeps (roundInv G k mb lb) (cb entry)) ->
  length dirs = length paths ->
  keeps (roundInv G k mb lb) (listRClosure f cb dirs paths item v).
Proof. intros Hcb Hlen. unfold listRClosure. by apply round_parentsLoop. Qed.

Lemma hoare_false {A : Type} (m : M State A) (Q : A -> State -> Prop) :
  hoare (fun _ => False) m Q.
Proof. by intros s HP. Qed.

(** Code between the lock and the unlock of [listRmu] that keeps the
    invariant keeps it as a whole; a lock that is taken makes it wait. *)
Lemma round_locked {A B : Type} (k : Z) (mb lb : bool) (m : M State A)
    (rest : M State B) :
  keeps (roundInv G k mb true) m ->
  keeps (roundInv G k mb false) rest ->
  keeps (roundInv G k mb lb)
    (listRmu_Lock ;; m ;; listRmu_Unlock ;; rest).
Proof.
  intros Hm Hrest. destruct lb.
  - apply (hoare_bind _ (fun _ _ => False)); [|intros; apply hoare_false].
    intros s (Hp & Hk & Hc & Hmu & Hl & Hg). unfold listRmu_Lock.
    by rewrite Hl.
  - apply (hoare_bind _ (fun _ => roundInv G k mb true));
      [apply round_listRmu_Lock|].
    intros _. apply (hoare_bind _ (fun _ => roundInv G k mb true));
      [exact Hm|].
    intros _. apply (hoare_bind _ (fun _ => roundInv G k mb false));
      [apply round_listRmu_Unlock | by intros _].
Qed.

Lemma bind_ret_r {A : Type} (m : M State A) (s : State) :
  bind m Go.ret s = m s.
Proof. unfold bind. by destruct (m s). Qed.

Lemma round_regroup (k : Z) (mb lb : bool)
    (sendJob' : listREntry -> M State unit) (dirs paths : list string) :
  (forall job, keeps (roundInv G k mb true) (sendJob' job)) ->
  length dirs = length paths ->
  keeps (roundInv G k mb lb) (regroup sendJob' dirs paths).
Proof.
  intros Hsend Hlen. unfold regroup.
  apply keeps_bind; [by apply round_swapGrouping|]. intros old.
  apply keeps_bind; [round|]. intros _.
  apply round_locked; [|round].
  apply keeps_forRange_elem. intros i Hi.
  apply elem_of_seq in Hi as [_ Hi]. simpl in Hi.
  destruct (lookup_lt_is_Some_2 dirs i Hi) as [d ->].
  destruct (lookup_lt_is_Some_2 paths i ltac:(lia)) as [p ->].
  round.
Qed.

Lemma round_clearEmpty (k : Z) (mb lb : bool) (dirs : list string) :
  dirs <> [] -> keeps (roundInv G k mb lb) (clearEmpty dirs).
Proof.
  intros Hne. unfold clearEmpty.
  assert (Hshape : forall (m : M State unit) s,
            (listRmu_Lock ;; m ;; listRmu_Unlock) s
            = (listRmu_Lock ;; m ;; listRmu_Unlock ;; Go.ret tt) s).
  { intros m s. unfold bind. destruct (listRmu_Lock s); try done.
    destruct (m s0); try done. by destruct (listRmu_Unlock s1) as [[] ?| | |]. }
  intros s HP. rewrite Hshape. revert s HP.
  apply round_locked; [|round].
  destruct dirs as [|d0 dirs]; [done|]. simpl.
  pose proof (round_swapGrouping k mb true listRGrouping G_default).
  round.
Qed.

Lemma round_Done (mb lb : bool) (dirs : list string) :
  forall k,
    Z.of_nat (length dirs) <= k ->
    hoare (roundInv G k mb lb) (forRange dirs (fun _ => wg_Done))
      (fun _ => roundInv G (k - Z.of_nat (length dirs)) mb lb).
Proof.
  induction dirs as [|d dirs IH]; intros k Hk.
  - simpl. apply hoare_ret. intros s. by rewrite Z.sub_0_r.
  - cbn [forRange]. rewrite length_cons, Nat2Z.inj_succ in *.
    apply (hoare_bind _ (fun _ => roundInv G (k - 1) mb lb)).
    + intros s (Hp & Hk0 & Hc & Hm & Hl & Hg).
      unfold wg_Done, wg_Add, pending in *.
      destruct (wg s + -1 <? 0) eqn:E; [apply Z.ltb_lt in E; lia|].
      unfold roundInv, pending. simpl. repeat split; try done; lia.
    + intros _. eapply hoare_conseq; [| |apply (IH (k - 1)); lia]; [done|].
      intros a s. simpl.
      by replace (k - 1 - Z.of_nat (length dirs))
        with (k - Z.succ (Z.of_nat (length dirs))) by lia.
Qed.

Lemma round_afterList (k : Z) (mb lb : bool)
    (sendJob' : listREntry -> M State unit) (dirs paths : list string)
    (g : Z) (found : bool) :
  (forall job, keeps (roundInv G k mb true) (sendJob' job)) ->
  length dirs = length paths -> Z.of_nat (length dirs) <= k ->
  hoare (roundInv G k mb lb) (afterList sendJob' dirs paths g found)
    (fun _ => roundInv G (k - Z.of_nat (length dirs)) mb lb).
Proof.
  intros Hsend Hlen Hk. unfold afterList.
  apply (hoare_bind _ (fun _ => roundInv G k mb lb)).
  { destruct ((1 <? length dirs)%nat && negb found);
      [by apply round_regroup | apply keeps_ret]. }
  intros _. apply (hoare_bind _ (fun _ => roundInv G k mb lb)).
  { destruct (Nat.eqb_spec (length dirs) 1) as [H1|H1];
      [|rewrite andb_false_r; apply keeps_ret].
    destruct ((g =? 1) && true && negb found); [|apply keeps_ret].
    apply round_clearEmpty. by destruct dirs. }
  intros _. by apply round_Done.
Qed.

Lemma Sort_total (dirs0 paths0 : list string) :
  length dirs0 = length paths0 ->
  exists sorted,
    listRSlices_Sort {| dirs := dirs0; paths := paths0 |} = Some sorted /\
    length (dirs sorted) = length dirs0 /\
    length (paths sorted) = length dirs0.
Proof.
  intros Hlen. unfold listRSlices_Sort.
  set (s := {| dirs := dirs0; paths := paths0 |}).
  destruct (sort_Sort_ofPairs (pairsOf s)) as (m & Hrun & Hperm & Hm).
  rewrite (ofPairs_pairsOf s Hlen) in Hrun.
  exists (ofPairs m). split; [exact Hrun|].
  unfold ofPairs. simpl. rewrite !length_fmap, Hperm.
  unfold pairsOf. rewrite length_zip. simpl. lia.
Qed.

Lemma round_listRBatch (k : Z) (mb lb : bool) (fuel : nat) (f : Fs)
    (callback : DirEntry -> option error) (dirs0 paths0 : list string)
    (g : Z) :
  length dirs0 = length paths0 -> Z.of_nat (length dirs0) <= k ->
  hoare (roundInv G k mb lb)
    (listRBatch fuel f (ListR_cb callback) sendJob dirs0 paths0 g)
    (fun _ => roundInv G (k - Z.of_nat (length dirs0)) mb lb).
Proof.
  intros Hlen Hk. unfold listRBatch.
  destruct (Sort_total dirs0 paths0 Hlen) as (sorted & -> & Hd & Hp).
  cbv zeta.
  apply (hoare_bind _ (fun _ => roundInv G k mb lb)).
  { unfold Fs_list. apply round_listPages. intros item v.
    apply round_listRClosure; [apply round_ListR_cb | lia]. }
  intros [v [found err]].
  apply (hoare_bind _ (fun _ => roundInv G (k - Z.of_nat (length dirs0)) mb lb)).
  - rewrite <- Hd. apply round_afterList;
      [apply round_sendJob | lia | lia].
  - intros _. apply keeps_ret.
Qed.

Lemma inflight_nonneg (w : workerPC) : 0 <= inflight w.
Proof. destruct w; simpl; lia. Qed.

Lemma inflightAll_nonneg (ws : list workerPC) : 0 <= inflightAll ws.
Proof.
  induction ws as [|w ws IH]; simpl; [lia|].
  pose proof (inflight_nonneg w). lia.
Qed.

Lemma inflightAll_insert (ws : list workerPC) (n : nat) (w w' : workerPC) :
  ws !! n = Some w ->
  inflightAll (<[n:=w']> ws) = inflightAll ws - inflight w + inflight w'.
Proof.
  revert n. induction ws as [|x ws IH]; intros [|n] Hn; simplify_eq/=.
  - lia.
  - rewrite (IH n Hn). lia.
Qed.

Lemma inflightAll_lookup (ws : list workerPC) (n : nat) (w : workerPC) :
  ws !! n = Some w -> inflight w <= inflightAll ws.
Proof.
  revert n. induction ws as [|x ws IH]; intros [|n] Hn; simplify_eq/=.
  - pose proof (inflightAll_nonneg ws). lia.
  - pose proof (IH n Hn). pose proof (inflight_nonneg x). lia.
Qed.

Lemma inflightAll_start (k : nat) : inflightAll (replicate k WRange) = 0.
Proof. induction k as [|k IH]; simpl; [done | by rewrite IH]. Qed.

Ltac shape :=
  simpl; rewrite ?length_app; simpl; repeat split; try done; try lia.

(** The configuration a step of worker [n] leads to. *)
Lemma worker_safeInv (fuel : nat) (f : Fs)
    (callback : DirEntry -> option error) (c : Config) (n : nat)
    (w : workerPC) :
  safeInv G c -> workers c !! n = Some w ->
  match workerStep fuel f callback w (st c) with
  | Ret pc s' =>
      safeInv G {| st := s'; mainpc := mainpc c; coordpc := coordpc c;
                   workers := <[n := pc]> (workers c); crashed := None |}
  | Panic _ => False
  | Blocked => True
  | OutOfFuel => True
  end.
Proof.
  intros (Hcr & Hch & Hwg & Hmu & Hg & Hws) Hw.
  pose proof (inflightAll_insert (workers c) n w) as Hins.
  pose proof (Forall_lookup_1 _ _ _ _ Hws Hw) as Hshape.
  assert (Hsafe : forall pc s',
            (inNil s' = false -> inClosed s' = false) ->
            wg s' - Z.of_nat (length (inBuf s'))
            = wg (st c) - Z.of_nat (length (inBuf (st c)))
              - inflight w + inflight pc ->
            mu s' = mu (st c) -> G (grouping s') -> wellShaped G pc ->
            safeInv G {| st := s'; mainpc := mainpc c; coordpc := coordpc c;
                         workers := <[n := pc]> (workers c);
                         crashed := None |}).
  { intros pc s' Hch' Hwg' Hmu' Hg' Hpc. unfold safeInv. simpl.
    rewrite (Hins pc Hw). repeat split; try done; try lia; try congruence.
    by apply Forall_insert. }
  destruct w as [|ds ps g i|ds ps g|e|]; simpl.
  - destruct (inBuf (st c)) as [|dir rest] eqn:Hbuf.
    + destruct (inClosed (st c)) eqn:Hcl; [|done].
      apply Hsafe; rewrite ?Hbuf, ?Hcl; shape.
    + apply Hsafe; rewrite ?Hbuf; shape.
  - simpl in Hshape. destruct Hshape as (Hlen & Hi & Hmax & Hgg).
    destruct (Z.ltb_spec i g) as [Hlt|Hge].
    + destruct (inBuf (st c)) as [|d rest] eqn:Hbuf.
      * destruct (inClosed (st c)) eqn:Hcl;
          apply Hsafe; rewrite ?Hbuf, ?Hcl; shape.
      * apply Hsafe; rewrite ?Hbuf; shape.
    + unfold Go.ret. apply Hsafe; shape.
  - simpl in Hshape. destruct Hshape as (Hlen & Hi & Hgg).
    pose proof (inflightAll_lookup _ _ _ Hw) as Hle. simpl in Hle.
    pose proof (inflightAll_nonneg (workers c)).
    assert (Hfill : 0 <= filling (coordpc c))
      by (destruct (coordpc c); simpl; lia).
    set (k := wg (st c) - Z.of_nat (length (inBuf (st c)))).
    pose proof (round_listRBatch k (mu (st c)) (listRmu (st c)) fuel f
                  callback ds ps g Hlen ltac:(subst k; lia) (st c)) as Hrun.
    unfold bind.
    destruct (listRBatch fuel f (ListR_cb callback) sendJob ds ps g (st c))
      as [[iE e] s'| | |].
    + destruct Hrun as (Hp & Hk & Hc & Hm & Hl & Hg');
        [unfold roundInv, pending; repeat split; try done; subst k; lia|].
      unfold pending in Hp.
      destruct iE as [e1|]; [|destruct e as [e2|]]; unfold Go.ret;
        apply Hsafe; simpl; try done; subst k; lia.
    + apply Hrun. unfold roundInv, pending.
      repeat split; try done; subst k; lia.
    + done.
    + done.
  - destruct (length (outBuf (st c)) <? ci_Checkers f)%nat; [|done].
    apply Hsafe; simpl; try done; lia.
  - done.
Qed.

Lemma coord_safeInv (c : Config) :
  safeInv G c ->
  match coordStep (coordpc c) (st c) with
  | Ret pc s' =>
      safeInv G {| st := s'; mainpc := mainpc c; coordpc := pc;
                   workers := workers c; crashed := None |}
  | Panic _ => False
  | Blocked => True
  | OutOfFuel => True
  end.
Proof.
  intros (Hcr & Hch & Hwg & Hmu & Hg & Hws).
  pose proof (inflightAll_nonneg (workers c)) as Hnn.
  destruct c as [s mpc cpc ws cr]. simpl in *.
  destruct s as [g e dc rk lm m n b cl o w ov li he er tr]. simpl in *.
  unfold safeInv.
  destruct cpc as [| | |rest l| |]; simpl in *; subst m.
  - destruct (w =? 0); [|done]. shape.
  - unfold bind, gets, Go.ret. simpl.
    destruct (0 <? length ov)%nat; shape.
  - unfold bind, mu_Lock, gets, wg_Add, Go.ret. simpl.
    set (l := if (Z.to_nat (listRInputBuffer / 2) <? length ov)%nat
              then Z.to_nat (listRInputBuffer / 2) else length ov).
    assert (Hl : (l <= length ov)%nat).
    { subst l. destruct (Nat.ltb_spec (Z.to_nat (listRInputBuffer / 2))
                           (length ov)); lia. }
    destruct (w + Z.of_nat l <? 0) eqn:E; [apply Z.ltb_lt in E; lia|].
    simpl. repeat split; try done. rewrite length_take. lia.
  - destruct rest as [|d rest]; simpl.
    + unfold bind, modify, mu_Unlock, Go.ret. simpl. shape.
    + unfold bind, in_send, Go.ret. rewrite length_cons in Hwg. simpl.
      destruct n; [done|]. rewrite (Hch eq_refl).
      destruct (Z.of_nat (length b) <? listRInputBuffer); [|done].
      shape.
  - unfold bind, mu_Lock, mu_Unlock, gets, in_closeAndNil, Go.ret. simpl.
    destruct n; simpl; [shape|]. rewrite (Hch eq_refl). simpl. shape.
  - done.
Qed.

Lemma main_safeInv (f : Fs) (c : Config) :
  safeInv G c ->
  match mainStep f (mainpc c) (st c) with
  | Ret pc s' =>
      safeInv G {| st := s'; mainpc := pc; coordpc := coordpc c;
                   workers := workers c; crashed := None |}
  | Panic _ => False
  | Blocked => True
  | OutOfFuel => True
  end.
Proof.
  intros (Hcr & Hch & Hwg & Hmu & Hg & Hws).
  destruct c as [s mpc cpc ws cr]. simpl in *.
  destruct s as [g e dc rk lm m n b cl o w ov li he er tr]. simpl in *.
  unfold safeInv.
  destruct mpc as [i|i r|r]; simpl in *.
  - destruct (i <? ci_Checkers f)%nat.
    + destruct o as [|r rest]; [done|]. shape.
    + unfold bind, gets, list_Flush, Go.ret. simpl. destruct er; shape.
  - unfold bind, mu_Lock, mu_Unlock, gets, in_closeAndNil, modify, Go.ret.
    simpl. destruct m; [done|]. simpl.
    destruct r as [err|]; simpl; [|by destruct cpc; shape].
    destruct n; simpl; [by destruct cpc; shape|].
    rewrite (Hch eq_refl). simpl. by destruct cpc; shape.
  - done.
Qed.

Lemma step_safeInv (f : Fs) (callback : DirEntry -> option error)
    (c c' : Config) :
  safeInv G c -> step f callback c c' -> safeInv G c'.
Proof.
  intros Hinv (fuel & t & H). unfold stepThread in H.
  pose proof Hinv as (Hcr & _). rewrite Hcr in H. unfold stepWith in H.
  destruct t as [| |n].
  - pose proof (main_safeInv f c Hinv) as Hm.
    destruct (mainStep f (mainpc c) (st c)); by simplify_eq.
  - pose proof (coord_safeInv c Hinv) as Hc.
    destruct (coordStep (coordpc c) (st c)); by simplify_eq.
  - destruct (workers c !! n) as [w|] eqn:Hw; [|done].
    pose proof (worker_safeInv fuel f callback c n w Hinv Hw) as Hwk.
    destruct (workerStep fuel f callback w (st c)); by simplify_eq.
Qed.

Lemma reachable_safeInv (f : Fs) (callback : DirEntry -> option error)
    (dir : string) (s0 : State) (c : Config) :
  G (grouping s0) -> reachable f callback dir s0 c -> safeInv G c.
Proof.
  intros Hg0 (c0 & Hstart & Hsteps).
  assert (H0 : safeInv G c0).
  { unfold ListR_start in Hstart.
    destruct (dirCache_FindDir f dir); simplify_eq.
    unfold safeInv. simpl. rewrite inflightAll_start.
    repeat split; try done. apply Forall_replicate. done. }
  clear Hstart. induction Hsteps as [|c1 c2 c3 Hstep _ IH]; [done|].
  apply IH. by eapply step_safeInv.
Qed.

End Round.

Lemma reachable_safe (f : Fs) (callback : DirEntry -> option error)
    (dir : string) (s0 : State) (c : Config) :
  reachable f callback dir s0 c -> safeInv (fun _ => True) c.
Proof. by apply reachable_safeInv. Qed.

(** X18: no step of the goroutines of [ListR] panics, whatever the remote
    side answers, whatever the callback returns and however the goroutines
    take turns (a round of a worker on its batch counted as one step): the
    sort and the lookups of a batch stay within the two slices, the counter
    of the wait group never goes below zero, the channel is not sent on nor
    closed after it has been closed, and no mutex is unlocked that is not
    locked. *)
Theorem ListR_never_panics (f : Fs) (callback : DirEntry -> option error)
    (dir : string) (s0 : State) (c : Config) :
  reachable f callback dir s0 c -> crashed c = None.
Proof. intros H. by destruct (reachable_safe _ _ _ _ _ H). Qed.

(** X19: the counter of the wait group counts the directories that are not
    done: at every moment it is the number of jobs in the channel, plus the
    directories the workers have taken and not yet reported done, plus the
    jobs the feeding goroutine has counted and not yet sent.  So when
    [wg.Wait] lets the feeding goroutine go on (the counter is zero), the
    channel is empty and no worker holds a batch.  The mutex [mu] is held
    between the steps only by the feeding goroutine while it refills the
    channel. *)
Theorem ListR_counter_counts_outstanding (f : Fs)
    (callback : DirEntry -> option error) (dir : string) (s0 : State)
    (c : Config) :
  reachable f callback dir s0 c ->
  wg (st c)
  = Z.of_nat (length (inBuf (st c))) + Safety.inflightAll (workers c)
    + Safety.filling (coordpc c) /\
  (wg (st c) = 0 ->
   inBuf (st c) = [] /\
   Forall (fun w => Safety.inflight w = 0) (workers c) /\
   Safety.filling (coordpc c) = 0) /\
  mu (st c) = Safety.holdsMu (coordpc c).
Proof.
  intros H. destruct (reachable_safe _ _ _ _ _ H)
    as (_ & _ & Hwg & Hmu & _ & _).
  split; [exact Hwg|]. split; [|exact Hmu].
  intros H0. rewrite H0 in Hwg.
  pose proof (inflightAll_nonneg (workers c)) as Hnn.
  assert (Hfill : 0 <= filling (coordpc c))
    by (destruct (coordpc c); simpl; lia).
  split; [destruct (inBuf (st c)); [done | simpl in Hwg; lia]|].
  split; [|lia].
  apply Forall_lookup_2. intros n w Hw.
  pose proof (inflightAll_lookup _ _ _ Hw). pose proof (inflight_nonneg w).
  lia.
Qed.

Lemma ListR_counter_counts_outstanding_witness :
  exists c,
    reachable Samples.failingFs Samples.acceptAll "" newFsState c /\
    workers c = [WBatch ["root"] [""] 50] /\
    wg (st c)
    = Z.of_nat (length (inBuf (st c))) + Safety.inflightAll (workers c)
      + Safety.filling (coordpc c).
Proof.
  destruct (runSchedule 1 Samples.failingFs Samples.acceptAll Cases.workerHoldsRoot
              (Samples.startOf Samples.failingFs "" newFsState))
    as [c|] eqn:Hrun; [|by vm_compute in Hrun].
  assert (Hreach : reachable Samples.failingFs Samples.acceptAll ""
                     newFsState c).
  { exists (Samples.startOf Samples.failingFs "" newFsState).
    split; [reflexivity | by eapply runSchedule_steps]. }
  exists c. split; [exact Hreach|]. split.
  - clear Hreach. vm_compute in Hrun. by simplify_eq.
  - exact (proj1 (ListR_counter_counts_outstanding Samples.failingFs
                    Samples.acceptAll "" newFsState c Hreach)).
Defined.

Lemma ListR_never_panics_witness :
  exists c,
    reachable Samples.failingFs Samples.acceptAll "" newFsState c /\
    mainpc c = MReturned (Some (Wrapf "couldn't list directory"
                                  Samples.quotaError)) /\
    crashed c = None.
Proof.
  destruct (runSchedule 1 Samples.failingFs Samples.acceptAll Samples.keptErrorSchedule
              (Samples.startOf Samples.failingFs "" newFsState))
    as [c|] eqn:Hrun; [|by vm_compute in Hrun].
  assert (Hreach : reachable Samples.failingFs Samples.acceptAll ""
                     newFsState c).
  { exists (Samples.startOf Samples.failingFs "" newFsState).
    split; [reflexivity | by eapply runSchedule_steps]. }
  exists c. split; [exact Hreach|]. split.
  - clear Hreach. vm_compute in Hrun. by simplify_eq.
  - exact (ListR_never_panics Samples.failingFs Samples.acceptAll ""
             newFsState c Hreach).
Defined.

(** X20: a worker never lists more directories at once than the group size:
    when the backend starts with one of its two group sizes (1, or
    [listRGrouping]), the batch a worker hands to the lister holds at least
    one directory and at most [listRGrouping], as many paths as directories,
    and the group size the worker read is again one of the two. *)
Theorem ListR_batch_within_grouping (f : Fs)
    (callback : DirEntry -> option error) (dir : string) (s0 : State)
    (c : Config) (n : nat) (dirs paths : list string) (g : Z) :
  Safety.groupSize (grouping s0) ->
  reachable f callback dir s0 c ->
  workers c !! n = Some (WBatch dirs paths g) ->
  length paths = length dirs /\
  1 <= Z.of_nat (length dirs) <= listRGrouping /\
  Safety.groupSize g /\ Safety.groupSize (grouping (st c)).
Proof.
  intros Hg0 H Hw.
  destruct (reachable_safeInv groupSize (or_introl eq_refl)
              (or_intror eq_refl) _ _ _ _ _ Hg0 H)
    as (_ & _ & _ & _ & Hg & Hws).
  pose proof (Forall_lookup_1 _ _ _ _ Hws Hw) as (Hlen & Hsize & Hgg).
  split; [done|]. split; [|done].
  unfold listRGrouping. destruct Hgg as [->| ->]; unfold listRGrouping in *;
    lia.
Qed.

Lemma ListR_batch_within_grouping_witness :
  exists c,
    reachable Samples.failingFs Samples.acceptAll "" newFsState c /\
    workers c !! 0%nat = Some (WBatch ["root"] [""] 50) /\
    1 <= Z.of_nat (length ["root"]) <= listRGrouping.
Proof.
  destruct (runSchedule 1 Samples.failingFs Samples.acceptAll Cases.workerHoldsRoot
              (Samples.startOf Samples.failingFs "" newFsState))
    as [c|] eqn:Hrun; [|by vm_compute in Hrun].
  assert (Hreach : reachable Samples.failingFs Samples.acceptAll ""
                     newFsState c).
  { exists (Samples.startOf Samples.failingFs "" newFsState).
    split; [reflexivity | by eapply runSchedule_steps]. }
  assert (Hw : workers c !! 0%nat = Some (WBatch ["root"] [""] 50)).
  { clear Hreach. vm_compute in Hrun. by simplify_eq. }
  exists c. split; [exact Hreach|]. split; [exact Hw|].
  exact (proj1 (proj2 (ListR_batch_within_grouping Samples.failingFs
                         Samples.acceptAll "" newFsState c 0 ["root"] [""]
                         50 (or_intror eq_refl) Hreach Hw))).
Defined.

(** X21: [ListR] returns last: when it has returned, every worker has
    gone, each report has been taken from [out], and no directory is in the
    hands of a worker; the counter then counts only the jobs that are left
    in the channel and those the feeding goroutine still means to send. *)
Theorem ListR_returns_last (f : Fs) (callback : DirEntry -> option error)
    (dir : string) (s0 : State) (c : Config) (r : option error) :
  reachable f callback dir s0 c ->
  mainpc c = MReturned r ->
  crashed c = None /\
  Forall (fun w => w = WExit) (workers c) /\
  outBuf (st c) = [] /\
  wg (st c)
  = Z.of_nat (length (inBuf (st c))) + Safety.filling (coordpc c).
Proof.
  intros H Hret.
  destruct (reachable_safe _ _ _ _ _ H) as (Hcr & _ & Hwg & _ & _ & _).
  destruct (ListR_returns_after_workers _ _ _ _ _ _ H Hret) as [Hall Hout].
  split; [done|]. split; [done|]. split; [done|].
  rewrite Hwg. assert (inflightAll (workers c) = 0) as ->; [|lia].
  clear -Hall. induction Hall as [|w ws -> _ IH]; simpl; [done | by rewrite IH].
Qed.

Lemma ListR_returns_last_witness :
  exists c,
    reachable Samples.failingFs Samples.acceptAll "" newFsState c /\
    Forall (fun w => w = WExit) (workers c) /\ outBuf (st c) = [].
Proof.
  destruct (runSchedule 1 Samples.failingFs Samples.acceptAll Samples.keptErrorSchedule
              (Samples.startOf Samples.failingFs "" newFsState))
    as [c|] eqn:Hrun; [|by vm_compute in Hrun].
  assert (Hreach : reachable Samples.failingFs Samples.acceptAll ""
                     newFsState c).
  { exists (Samples.startOf Samples.failingFs "" newFsState).
    split; [reflexivity | by eapply runSchedule_steps]. }
  assert (Hret : mainpc c
                 = MReturned (Some (Wrapf "couldn't list directory"
                                      Samples.quotaError))).
  { clear Hreach. vm_compute in Hrun. by simplify_eq. }
  destruct (ListR_returns_last Samples.failingFs Samples.acceptAll ""
              newFsState c _ Hreach Hret) as (_ & Hall & Hout & _).
  exists c. split; [exact Hreach|]. split; [exact Hall | exact Hout].
Defined.

End SafetyProps.
